(** * Size-constrained region merging (scrm.py): model and verification

    The development embeds [src/scrm/scrm.py] shallowly.  The region
    adjacency graph is the [skimage.future.graph.RAG] object the code
    mutates in place (a [networkx.Graph]: an insertion-ordered node
    dictionary, an insertion-ordered adjacency dictionary per node, and one
    attribute dictionary per edge shared by both directions), the edge
    queue is the Python list the code hands to [heapq], and a heap item is
    the four-element list [[wt, n1, n2, valid]] that the queue and the
    edge's attribute dictionary both reference.

    Modelling choices:
    - The library code [scrm.py] calls ([networkx.Graph], [RAG] and
      [rag_mean_color] of scikit-image, [heapq]) is modelled after its
      sources; [rag_mean_color] for a two-dimensional label array, an
      image with three channels and connectivity 1, as [scrm] calls it.
    - Python integers (node ids, labels, pixel counts, the two counters)
      are [Z].
    - A float64 is an IEEE 754 binary64 number with rounding to nearest,
      ties to even: the three channels of a colour array are primitive
      floats ([PrimFloat.float]), and the stopping test, which mixes
      integers of any size with one float, is computed on their
      specification ([SpecFloat.spec_float]).  Where Python raises
      [OverflowError] because an integer is too large for a float, the
      model goes on with an infinity; this needs integers beyond 2^1023.
    - Edge weights are kept abstract in the theorems: a type [W] with the
      comparisons the heap uses and the norm [weight_scrm] computes.  The
      examples instantiate it with the floats and the Euclidean norm.
    - Objects mutated through more than one reference live in stores
      indexed by allocation number: [edata] for the edge attribute
      dictionaries, [items] for the heap items.
    - The attribute dictionaries have all their keys from the start:
      [rag_mean_color] creates an edge before it knows its weight and a
      node before it knows its mean colour, and the model fills these two
      with a zero until the loops of [rag_mean_color] that assign them
      have run.  Nothing reads them in between.
    - Python iterates a [set] in an order the language leaves open; the
      model iterates the neighbour set of [merge_nodes] in the order
      source-neighbours first.  No theorem below depends on that order. *)

From Stdlib Require Import ZArith Lia.
From Stdlib Require PrimFloat SpecFloat FloatOps.
From stdpp Require Import base tactics option numbers list.

Local Open Scope Z_scope.

(** ** Exceptions and the state-and-exception monad *)

Inductive exn : Type :=
  | ZeroDivisionError
  | KeyError
  | IndexError
  | ValueError
  | NetworkXError.

(** The outcome of a command run on a state: a value, or an exception.
    Either way the state reached is kept, since the objects are mutated in
    place and stay visible to the caller after an exception. *)
Inductive Res (S A : Type) : Type :=
  | Ok (a : A) (s : S)
  | Err (e : exn) (s : S).
Arguments Ok {S A} a s.
Arguments Err {S A} e s.

Definition M (S A : Type) : Type := S -> Res S A.

Definition ret {S A} (a : A) : M S A := fun s => Ok a s.
Definition raise {S A} (e : exn) : M S A := fun s => Err e s.
Definition bind {S A B} (m : M S A) (k : A -> M S B) : M S B :=
  fun s => match m s with
           | Ok a s' => k a s'
           | Err e s' => Err e s'
           end.
Definition get {S} : M S S := fun s => Ok s s.
Definition modify {S} (f : S -> S) : M S unit := fun s => Ok tt (f s).
Definition lift_opt {S A} (e : exn) (o : option A) : M S A :=
  match o with Some a => ret a | None => raise e end.

Notation "x <~ m ;; k" := (bind m (fun x => k))
  (at level 100, m at next level, right associativity).
Notation "m ;;; k" := (bind m (fun _ => k))
  (at level 100, right associativity).

(** [for x in l: body x] *)
Fixpoint for_each {S A} (l : list A) (body : A -> M S unit) : M S unit :=
  match l with
  | [] => ret tt
  | x :: l' => body x ;;; for_each l' body
  end.

Definition res_state {S A} (r : Res S A) : S :=
  match r with Ok _ s => s | Err _ s => s end.

(** ** Insertion-ordered dictionaries with integer keys *)

Section Dict.
Context {V : Type}.

Fixpoint dget (k : Z) (d : list (Z * V)) : option V :=
  match d with
  | [] => None
  | (k', v) :: d' => if Z.eqb k k' then Some v else dget k d'
  end.

(** [d[k] = v]: an existing key keeps its position, a new key goes last. *)
Fixpoint dset (k : Z) (v : V) (d : list (Z * V)) : list (Z * V) :=
  match d with
  | [] => [(k, v)]
  | (k', v') :: d' =>
      if Z.eqb k k' then (k, v) :: d' else (k', v') :: dset k v d'
  end.

(** [del d[k]] (the callers check membership first). *)
Fixpoint ddel (k : Z) (d : list (Z * V)) : list (Z * V) :=
  match d with
  | [] => []
  | (k', v') :: d' => if Z.eqb k k' then d' else (k', v') :: ddel k d'
  end.

Definition dkeys (d : list (Z * V)) : list Z := map fst d.

Definition dmem (k : Z) (d : list (Z * V)) : bool :=
  match dget k d with Some _ => true | None => false end.
End Dict.

(** ** [heapq] on a list of references, ordered by a comparison [lt] *)

Section Heapq.
Variable lt : nat -> nat -> bool.

(** The [while pos > startpos] loop of [heapq._siftdown]; [pos] at least
    halves on every turn, so [fuel = pos] turns are enough. *)
Fixpoint siftdown_loop (fuel : nat) (heap : list nat)
    (startpos pos newitem : nat) : list nat :=
  match fuel with
  | O => <[pos := newitem]> heap
  | S fuel' =>
      if bool_decide (startpos < pos)%nat then
        let parentpos := ((pos - 1) / 2)%nat in
        match heap !! parentpos with
        | Some parent =>
            if lt newitem parent
            then siftdown_loop fuel' (<[pos := parent]> heap)
                   startpos parentpos newitem
            else <[pos := newitem]> heap
        | None => <[pos := newitem]> heap
        end
      else <[pos := newitem]> heap
  end.

Definition siftdown (heap : list nat) (startpos pos : nat) : list nat :=
  match heap !! pos with
  | Some newitem => siftdown_loop pos heap startpos pos newitem
  | None => heap
  end.

(** The [while childpos < endpos] loop of [heapq._siftup]: the smaller
    child is moved up until a leaf is reached. *)
Fixpoint siftup_loop (fuel : nat) (heap : list nat) (endpos pos : nat)
    : list nat * nat :=
  match fuel with
  | O => (heap, pos)
  | S fuel' =>
      let childpos := (2 * pos + 1)%nat in
      if bool_decide (childpos < endpos)%nat then
        let rightpos := (childpos + 1)%nat in
        let childpos' :=
          match heap !! childpos, heap !! rightpos with
          | Some c, Some r => if negb (lt c r) then rightpos else childpos
          | _, _ => childpos
          end in
        match heap !! childpos' with
        | Some c => siftup_loop fuel' (<[pos := c]> heap) endpos childpos'
        | None => (heap, pos)
        end
      else (heap, pos)
  end.

Definition siftup (heap : list nat) (pos : nat) : list nat :=
  match heap !! pos with
  | Some newitem =>
      let '(heap', pos') := siftup_loop (length heap) heap (length heap) pos in
      siftdown (<[pos' := newitem]> heap') pos pos'
  | None => heap
  end.

Definition heappush (heap : list nat) (item : nat) : list nat :=
  siftdown (heap ++ [item]) 0 (length heap).

(** [heappop] of a non-empty heap; [None] is the [IndexError] of popping
    an empty list. *)
Definition heappop (heap : list nat) : option (nat * list nat) :=
  match rev heap with
  | [] => None
  | lastelt :: front =>
      match rev front with
      | [] => Some (lastelt, [])
      | returnitem :: rest =>
          Some (returnitem, siftup (lastelt :: rest) 0)
      end
  end.
End Heapq.

(** ** Floats *)

(** An integer as an exact float with an unbounded mantissa: the operand
    of an operation that rounds once, at its end. *)
Definition exact_int (a : Z) : SpecFloat.spec_float :=
  match a with
  | 0 => SpecFloat.S754_zero false
  | Zpos p => SpecFloat.S754_finite false p 0
  | Zneg p => SpecFloat.S754_finite true p 0
  end.

(** [float(n)]: the float64 nearest to [n] *)
Definition int_to_float (n : Z) : SpecFloat.spec_float :=
  SpecFloat.binary_normalize FloatOps.prec FloatOps.emax n 0 false.

(** [a / b] on two Python integers: the float64 nearest to the quotient *)
Definition int_true_div (a b : Z) : SpecFloat.spec_float :=
  SpecFloat.SFdiv FloatOps.prec FloatOps.emax (exact_int a) (exact_int b).

(** [x < n] for a float [x] and a Python integer [n]; Python compares
    the two exactly. *)
Definition float_lt_int (x : SpecFloat.spec_float) (n : Z) : bool :=
  match x with
  | SpecFloat.S754_zero _ => 0 <? n
  | SpecFloat.S754_infinity s => s
  | SpecFloat.S754_nan => false
  | SpecFloat.S754_finite s m e =>
      let v := if s then Zneg m else Zpos m in
      if 0 <=? e then v * 2 ^ e <? n else v <? n * 2 ^ (- e)
  end.

(** [int(x)] on a float: truncation towards zero *)
Definition float_to_int (x : SpecFloat.spec_float) : Z :=
  match x with
  | SpecFloat.S754_finite s m e =>
      let v := if 0 <=? e then Zpos m * 2 ^ e else Zpos m / 2 ^ (- e) in
      if s then - v else v
  | _ => 0
  end.

(** A label as [generic_filter] hands it on: the filter works on a
    float64 copy of the label array, and [values.astype(int)] turns the
    values back into integers. *)
Definition via_float (l : Z) : Z := float_to_int (int_to_float l).

(** An integer as a float64 *)
Definition z2f (n : Z) : PrimFloat.float := FloatOps.SF2Prim (int_to_float n).

(** The type of a float64, with Python's [==] and [<] on it *)
Definition float64 : Type := PrimFloat.float.
Definition feqb : float64 -> float64 -> bool := PrimFloat.eqb.
Definition fltb : float64 -> float64 -> bool := PrimFloat.ltb.

(** ** Colours: arrays of three float64 channels *)

Record color : Type := Color {
  ch0 : PrimFloat.float;
  ch1 : PrimFloat.float;
  ch2 : PrimFloat.float }.

Definition cadd (a b : color) : color :=
  Color (PrimFloat.add (ch0 a) (ch0 b)) (PrimFloat.add (ch1 a) (ch1 b))
        (PrimFloat.add (ch2 a) (ch2 b)).
Definition csub (a b : color) : color :=
  Color (PrimFloat.sub (ch0 a) (ch0 b)) (PrimFloat.sub (ch1 a) (ch1 b))
        (PrimFloat.sub (ch2 a) (ch2 b)).
(** [array / n] for an integer [n] *)
Definition cdiv (a : color) (n : Z) : color :=
  Color (PrimFloat.div (ch0 a) (z2f n)) (PrimFloat.div (ch1 a) (z2f n))
        (PrimFloat.div (ch2 a) (z2f n)).
(** [np.array([0, 0, 0], dtype=np.double)] *)
Definition zero_color : color := Color (z2f 0) (z2f 0) (z2f 0).
(** [np.linalg.norm] of a three-element array: [sqrt] of the sum of the
    squares, added from the left *)
Definition linalg_norm (c : color) : PrimFloat.float :=
  PrimFloat.sqrt
    (PrimFloat.add
       (PrimFloat.add (PrimFloat.mul (ch0 c) (ch0 c))
                      (PrimFloat.mul (ch1 c) (ch1 c)))
       (PrimFloat.mul (ch2 c) (ch2 c))).

(** The attribute dictionary of a node, with its four keys
    ['labels'], ['pixel count'], ['total color'], ['mean color']. *)
Record NodeData : Type := mkNode {
  labels : list Z;
  pixel_count : Z;
  total_color : color;
  mean_color : color }.

Definition b2z (b : bool) : Z := if b then 1 else 0.

(** [num + area / dms < expected]: the quotient of the two integers is
    rounded to a float, [num] is converted to a float, the sum is rounded,
    and the result is compared with the integer [expected]. *)
Definition below_expected (num area dms expected : Z) : bool :=
  float_lt_int
    (SpecFloat.SFadd FloatOps.prec FloatOps.emax
       (int_to_float num) (int_true_div area dms))
    expected.

(** [ndarray.astype(np.int16)] on one element: two's complement wrap *)
Definition astype_int16 (x : Z) : Z := (x + 32768) mod 65536 - 32768.

(** Position selected by an integer index into an array of length [len]:
    negative indices count from the end, anything else out of range is an
    [IndexError]. *)
Definition np_index (len : nat) (i : Z) : option nat :=
  if (0 <=? i) && (i <? Z.of_nat len) then Some (Z.to_nat i)
  else if (- Z.of_nat len <=? i) && (i <? 0)
       then Some (Z.to_nat (i + Z.of_nat len))
       else None.

(** [arr.max()] of a two-dimensional array; [None] when it has no element *)
Definition array_max (arr : list (list Z)) : option Z :=
  match concat arr with
  | [] => None
  | x :: xs => Some (foldr Z.max x xs)
  end.

(** [label_map[labels]]: element-wise lookup *)
Definition take_labels (label_map : list Z) (arr : list (list Z))
    : option (list (list Z)) :=
  mapM (mapM (fun l => i ← np_index (length label_map) l; label_map !! i)) arr.

(** ** The objects of a run *)

Section Scrm.
(** Edge weights: the type of the floats, their [==] and [<], and the
    Euclidean norm of a colour difference. *)
Variable W : Type.
Variable weqb : W -> W -> bool.
Variable wltb : W -> W -> bool.
Variable norm : color -> W.

(** A heap item [[wt, n1, n2, valid]] *)
Record HeapItem : Type := mkItem {
  hi_wt : W;
  hi_n1 : Z;
  hi_n2 : Z;
  hi_valid : bool }.

(** The attribute dictionary of an edge: ['weight'] and, once the edge
    has been queued, ['heap item'] (a reference into [items]). *)
Record EdgeData : Type := mkEdge {
  ed_weight : W;
  ed_heap_item : option nat }.

(** Everything the run reads and writes.  [g_node] is [rag._node] (an
    attribute dictionary per node, [None] while it is still empty),
    [g_adj] is [rag._adj] (per node, neighbour to reference of the shared
    edge dictionary in [edata]), [g_num_ge_mmu] and [g_area_lt_mmu] are
    the two keys of [rag.graph] ([None] while absent), [max_id] is
    [rag.max_id]; [items] holds the heap items ever created, [edge_heap]
    is the list handed to [heapq], [partial_stop] the stop latch. *)
Record St : Type := mkSt {
  g_node : list (Z * option NodeData);
  g_adj : list (Z * list (Z * nat));
  edata : list EdgeData;
  g_num_ge_mmu : option Z;
  g_area_lt_mmu : option Z;
  max_id : Z;
  items : list HeapItem;
  edge_heap : list nat;
  partial_stop : bool }.

Definition set_node v (s : St) : St :=
  mkSt v (g_adj s) (edata s) (g_num_ge_mmu s) (g_area_lt_mmu s) (max_id s)
       (items s) (edge_heap s) (partial_stop s).
Definition set_adj v (s : St) : St :=
  mkSt (g_node s) v (edata s) (g_num_ge_mmu s) (g_area_lt_mmu s) (max_id s)
       (items s) (edge_heap s) (partial_stop s).
Definition set_edata v (s : St) : St :=
  mkSt (g_node s) (g_adj s) v (g_num_ge_mmu s) (g_area_lt_mmu s) (max_id s)
       (items s) (edge_heap s) (partial_stop s).
Definition set_num_ge_mmu v (s : St) : St :=
  mkSt (g_node s) (g_adj s) (edata s) v (g_area_lt_mmu s) (max_id s)
       (items s) (edge_heap s) (partial_stop s).
Definition set_area_lt_mmu v (s : St) : St :=
  mkSt (g_node s) (g_adj s) (edata s) (g_num_ge_mmu s) v (max_id s)
       (items s) (edge_heap s) (partial_stop s).
Definition set_max_id v (s : St) : St :=
  mkSt (g_node s) (g_adj s) (edata s) (g_num_ge_mmu s) (g_area_lt_mmu s) v
       (items s) (edge_heap s) (partial_stop s).
Definition set_items v (s : St) : St :=
  mkSt (g_node s) (g_adj s) (edata s) (g_num_ge_mmu s) (g_area_lt_mmu s)
       (max_id s) v (edge_heap s) (partial_stop s).
Definition set_edge_heap v (s : St) : St :=
  mkSt (g_node s) (g_adj s) (edata s) (g_num_ge_mmu s) (g_area_lt_mmu s)
       (max_id s) (items s) v (partial_stop s).
Definition set_partial_stop v (s : St) : St :=
  mkSt (g_node s) (g_adj s) (edata s) (g_num_ge_mmu s) (g_area_lt_mmu s)
       (max_id s) (items s) (edge_heap s) v.

Local Abbreviation Cmd := (M St).

(** *** Comparison of heap items

    Python compares two lists at the first position where they differ;
    equal lists are not smaller than one another. *)
Definition item_lt (a b : HeapItem) : bool :=
  if negb (weqb (hi_wt a) (hi_wt b)) then wltb (hi_wt a) (hi_wt b)
  else if negb (hi_n1 a =? hi_n1 b) then hi_n1 a <? hi_n1 b
  else if negb (hi_n2 a =? hi_n2 b) then hi_n2 a <? hi_n2 b
  else negb (hi_valid a) && hi_valid b.

Definition ref_lt (its : list HeapItem) (a b : nat) : bool :=
  match its !! a, its !! b with
  | Some x, Some y => item_lt x y
  | _, _ => false
  end.

(** *** Graph primitives ([networkx.Graph] and [RAG]) *)

(** [rag.nodes[n]] followed by a key lookup: [KeyError] when the node is
    absent or its dictionary is empty. *)
Definition node_attrs (n : Z) : Cmd NodeData :=
  fun s => match dget n (g_node s) with
           | Some (Some d) => Ok d s
           | _ => Err KeyError s
           end.

Definition set_node_attrs (n : Z) (d : NodeData) : Cmd unit :=
  modify (fun s => set_node (dset n (Some d) (g_node s)) s).

(** [rag.neighbors(n)] *)
Definition neighbors (n : Z) : Cmd (list Z) :=
  fun s => match dget n (g_adj s) with
           | Some a => Ok (dkeys a) s
           | None => Err NetworkXError s
           end.

(** [rag[u][v]]: the edge's attribute dictionary (its reference) *)
Definition edge_ref (u v : Z) : Cmd nat :=
  fun s => match dget u (g_adj s) with
           | Some a => lift_opt KeyError (dget v a) s
           | None => Err KeyError s
           end.

Definition edge_data (r : nat) : Cmd EdgeData :=
  fun s => lift_opt KeyError (edata s !! r) s.

Definition get_item (h : nat) : Cmd HeapItem :=
  fun s => lift_opt KeyError (items s !! h) s.

(** [item[3] = False] *)
Definition invalidate_item (h : nat) : Cmd unit :=
  it <~ get_item h ;;
  modify (fun s =>
    set_items (<[h := mkItem (hi_wt it) (hi_n1 it) (hi_n2 it) false]>
                 (items s)) s).

(** [_invalidate_edge(graph, n1, n2)]:
    [graph[n1][n2]['heap item'][3] = False] *)
Definition invalidate_edge (n1 n2 : Z) : Cmd unit :=
  r <~ edge_ref n1 n2 ;;
  ed <~ edge_data r ;;
  h <~ lift_opt KeyError (ed_heap_item ed) ;;
  invalidate_item h.

(** The node creation at the head of [Graph.add_node] and
    [Graph.add_edge]: [if n not in self._node: self._adj[n] = {};
    self._node[n] = {}]. *)
Definition add_node_silent (n : Z) : Cmd unit :=
  modify (fun s =>
    if dmem n (g_node s) then s
    else set_node (dset n None (g_node s))
           (set_adj (dset n [] (g_adj s)) s)).

(** [self._adj[u][v] = datadict] *)
Definition adj_set (u v : Z) (r : nat) : Cmd unit :=
  fun s => match dget u (g_adj s) with
           | Some a => Ok tt (set_adj (dset u (dset v r a) (g_adj s)) s)
           | None => Err KeyError s
           end.

(** [del self._adj[u][v]] *)
Definition adj_del (u v : Z) : Cmd unit :=
  fun s => match dget u (g_adj s) with
           | Some a =>
               if dmem v a
               then Ok tt (set_adj (dset u (ddel v a) (g_adj s)) s)
               else Err KeyError s
           | None => Err KeyError s
           end.

(** [RAG.add_edge(u, v, {'weight': w})]: the dictionary of an existing
    edge is updated in place, a new edge gets a fresh dictionary; then
    both directions point to it and [max_id] is raised. *)
Definition add_edge (u v : Z) (w : W) : Cmd unit :=
  add_node_silent u ;;;
  add_node_silent v ;;;
  s <~ get ;;
  r <~ match dget u (g_adj s) with
       | None => raise KeyError
       | Some a =>
           match dget v a with
           | Some r =>
               ed <~ edge_data r ;;
               modify (fun s =>
                 set_edata (<[r := mkEdge w (ed_heap_item ed)]> (edata s)) s) ;;;
               ret r
           | None =>
               modify (fun s => set_edata (edata s ++ [mkEdge w None]) s) ;;;
               ret (length (edata s))
           end
       end ;;
  adj_set u v r ;;;
  adj_set v u r ;;;
  modify (fun s => set_max_id (Z.max (Z.max u v) (max_id s)) s).

(** [Graph.remove_node(n)] *)
Definition remove_node (n : Z) : Cmd unit :=
  s <~ get ;;
  match dget n (g_adj s) with
  | None => raise NetworkXError
  | Some a =>
      if dmem n (g_node s) then
        modify (fun s => set_node (ddel n (g_node s)) s) ;;;
        for_each (dkeys a) (fun u => adj_del u n) ;;;
        modify (fun s => set_adj (ddel n (g_adj s)) s)
      else raise NetworkXError
  end.

(** [RAG.next_id()] *)
Definition next_id : Cmd Z := fun s => Ok (max_id s + 1) s.

(** *** [graph_merge] helpers and [RAG.merge_nodes] *)

(** The neighbour set [(src_nbrs | dst_nbrs) - {src, dst}] *)
Definition merged_neighbors (src dst : Z) (src_nbrs dst_nbrs : list Z)
    : list Z :=
  filter (fun x => x ≠ src ∧ x ≠ dst) (remove_dups (src_nbrs ++ dst_nbrs)).

(** [rag.merge_nodes(src, dst, weight_func)], with the default
    [in_place=True]: the merged node is [dst]. *)
Definition merge_nodes (src dst : Z)
    (weight_func : Z -> Z -> Z -> Cmd W) : Cmd Z :=
  src_nbrs <~ neighbors src ;;
  dst_nbrs <~ neighbors dst ;;
  let new := dst in
  for_each (merged_neighbors src dst src_nbrs dst_nbrs) (fun neighbor =>
    w <~ weight_func src new neighbor ;;
    add_edge neighbor new w) ;;;
  sd <~ node_attrs src ;;
  dd <~ node_attrs dst ;;
  set_node_attrs new
    (mkNode (labels sd ++ labels dd) (pixel_count dd) (total_color dd)
            (mean_color dd)) ;;;
  remove_node src ;;;
  ret new.

(** [_rename_node(graph, node_id, copy_id)] *)
Definition rename_node (node_id copy_id : Z) : Cmd unit :=
  add_node_silent copy_id ;;;
  (* graph.nodes[copy_id].update(graph.nodes[node_id]) *)
  s <~ get ;;
  match dget copy_id (g_node s), dget node_id (g_node s) with
  | Some _, Some (Some d) => set_node_attrs copy_id d
  | Some _, Some None => ret tt
  | _, _ => raise KeyError
  end ;;;
  nbrs <~ neighbors node_id ;;
  for_each nbrs (fun nbr =>
    r <~ edge_ref node_id nbr ;;
    ed <~ edge_data r ;;
    add_edge nbr copy_id (ed_weight ed)) ;;;
  remove_node node_id.

(** [heapq.heappush(heap_list, heap_item)] *)
Definition push_item (h : nat) : Cmd unit :=
  modify (fun s =>
    set_edge_heap (heappush (ref_lt (items s)) (edge_heap s) h) s).

(** Allocation of the list [[wt, n1, n2, True]] *)
Definition new_item (wt : W) (n1 n2 : Z) : Cmd nat :=
  fun s => Ok (length (items s))
              (set_items (items s ++ [mkItem wt n1 n2 true]) s).

(** [data['heap item'] = heap_item] *)
Definition set_heap_item (r h : nat) : Cmd unit :=
  ed <~ edge_data r ;;
  modify (fun s =>
    set_edata (<[r := mkEdge (ed_weight ed) (Some h)]> (edata s)) s).

(** [_revalidate_node_edges(rag, node, heap_list)].  Inside the [try]
    only the lookup of the ['heap item'] key can raise [KeyError]. *)
Definition revalidate_node_edges (node : Z) : Cmd unit :=
  nbrs <~ neighbors node ;;
  for_each nbrs (fun nbr =>
    r <~ edge_ref node nbr ;;
    data <~ edge_data r ;;
    match ed_heap_item data with
    | Some h => invalidate_item h ;;; invalidate_edge node nbr
    | None => ret tt
    end ;;;
    data <~ edge_data r ;;
    h <~ new_item (ed_weight data) node nbr ;;
    set_heap_item r h ;;;
    push_item h).

(** *** The callbacks of [scrm.py] *)

(** [weight_scrm(graph, src, dst, n)] *)
Definition weight_scrm (src dst n : Z) : Cmd W :=
  dd <~ node_attrs dst ;;
  nd <~ node_attrs n ;;
  ret (norm (csub (mean_color dd) (mean_color nd))).

Definition graph_num_ge_mmu : Cmd Z :=
  fun s => lift_opt KeyError (g_num_ge_mmu s) s.
Definition graph_area_lt_mmu : Cmd Z :=
  fun s => lift_opt KeyError (g_area_lt_mmu s) s.

(** [merge_scrm(graph, src, dst, mmu)] *)
Definition merge_scrm (src dst mmu : Z) : Cmd unit :=
  sd <~ node_attrs src ;;
  let src_area := pixel_count sd in
  dd <~ node_attrs dst ;;
  let dst_area := pixel_count dd in
  (* graph.nodes[dst]['total color'] += graph.nodes[src]['total color'] *)
  dd <~ node_attrs dst ;;
  sd <~ node_attrs src ;;
  set_node_attrs dst
    (mkNode (labels dd) (pixel_count dd)
            (cadd (total_color dd) (total_color sd)) (mean_color dd)) ;;;
  (* graph.nodes[dst]['pixel count'] += graph.nodes[src]['pixel count'] *)
  dd <~ node_attrs dst ;;
  sd <~ node_attrs src ;;
  set_node_attrs dst
    (mkNode (labels dd) (pixel_count dd + pixel_count sd)
            (total_color dd) (mean_color dd)) ;;;
  (* mean color = total color / pixel count *)
  dd <~ node_attrs dst ;;
  set_node_attrs dst
    (mkNode (labels dd) (pixel_count dd) (total_color dd)
            (cdiv (total_color dd) (pixel_count dd))) ;;;
  dd <~ node_attrs dst ;;
  let new_area := pixel_count dd in
  let d_num_ge_mmu :=
    b2z (mmu <=? new_area) - b2z (mmu <=? src_area)
    - b2z (mmu <=? dst_area) in
  let d_area_lt_mmu :=
    b2z (new_area <? mmu) * new_area - b2z (src_area <? mmu) * src_area
    - b2z (dst_area <? mmu) * dst_area in
  num <~ graph_num_ge_mmu ;;
  modify (set_num_ge_mmu (Some (num + d_num_ge_mmu))) ;;;
  area <~ graph_area_lt_mmu ;;
  modify (set_area_lt_mmu (Some (area + d_area_lt_mmu))).

(** *** [merge_size_constrained] *)

(** The loop [for n in rag] that accumulates [total_area] and the two
    counters *)
Fixpoint scan_areas (ns : list Z) (mmu total_area : Z) : Cmd Z :=
  match ns with
  | [] => ret total_area
  | n :: ns' =>
      d <~ node_attrs n ;;
      let area := pixel_count d in
      (if area <? mmu
       then a <~ graph_area_lt_mmu ;;
            modify (set_area_lt_mmu (Some (a + area)))
       else c <~ graph_num_ge_mmu ;;
            modify (set_num_ge_mmu (Some (c + 1)))) ;;;
      scan_areas ns' mmu (total_area + area)
  end.

(** [rag.edges(data=True)]: every edge once, reported from the endpoint
    that comes first in the node order *)
Fixpoint edges_from (seen : list Z) (adj : list (Z * list (Z * nat)))
    : list (Z * Z * nat) :=
  match adj with
  | [] => []
  | (n, nbrs) :: rest =>
      map (fun p => (n, fst p, snd p))
          (filter (fun p => fst p ∉ seen) nbrs)
      ++ edges_from (n :: seen) rest
  end.

(** Lines 81 to 110: everything before the [while] loop; the value is
    [exp_final_num]. *)
Definition initialise (dms mmu : Z) : Cmd Z :=
  modify (set_edge_heap []) ;;;
  modify (set_num_ge_mmu (Some 0)) ;;;
  modify (set_area_lt_mmu (Some 0)) ;;;
  s <~ get ;;
  total_area <~ scan_areas (dkeys (g_node s)) mmu 0 ;;
  (if dms =? 0 then raise ZeroDivisionError else ret tt) ;;;
  let exp_final_num := total_area / dms in
  s <~ get ;;
  for_each (edges_from [] (g_adj s)) (fun e =>
    let '(n1, n2, r) := e in
    data <~ edge_data r ;;
    h <~ new_item (ed_weight data) n1 n2 ;;
    push_item h ;;;
    set_heap_item r h) ;;;
  modify (set_partial_stop false) ;;;
  ret exp_final_num.

(** Lines 133 to 144 for an entry popped with [valid = True]: the flag
    after the size checks. *)
Definition size_checks (mas mmu : Z) (stop : bool) (n1_area n2_area : Z)
    : bool :=
  let valid := true in
  let valid := if (mas <? n1_area) && (mas <? n2_area) then false else valid in
  let valid := if (mas <? n1_area) && (mmu <? n2_area) then false else valid in
  let valid := if (mmu <? n1_area) && (mas <? n2_area) then false else valid in
  if stop
  then (if (mmu <=? n1_area) && (mmu <=? n2_area) then false else valid)
  else valid.

(** Lines 148 to 164: the merge of an accepted pair *)
Definition merge_pair (mmu : Z) (in_place_merge : bool)
    (merge_func : Z -> Z -> Z -> Cmd unit)
    (weight_func : Z -> Z -> Z -> Cmd W) (n1 n2 : Z) : Cmd unit :=
  nbrs <~ neighbors n1 ;;
  for_each nbrs (fun nbr => invalidate_edge n1 nbr) ;;;
  nbrs <~ neighbors n2 ;;
  for_each nbrs (fun nbr => invalidate_edge n2 nbr) ;;;
  sd <~ (if negb in_place_merge
         then nid <~ next_id ;;
              rename_node n2 nid ;;;
              ret (n1, nid)
         else ret (n1, n2)) ;;
  let '(src, dst) := sd in
  merge_func src dst mmu ;;;
  new_id <~ merge_nodes src dst weight_func ;;
  revalidate_node_edges new_id.

(** Lines 112 to 144 of one turn of the [while] loop: the entry is
    popped, the latch re-evaluated and the entry checked; the value is
    the pair of the entry and the flag [valid] as line 147 tests it. *)
Definition pop_and_check (dms mas mmu exp_final_num : Z)
    : Cmd (Z * Z * bool) :=
  s <~ get ;;
  match heappop (ref_lt (items s)) (edge_heap s) with
  | None => raise IndexError
  | Some (h, heap') =>
      modify (set_edge_heap heap') ;;;
      it <~ get_item h ;;
      let n1 := hi_n1 it in
      let n2 := hi_n2 it in
      let valid := hi_valid it in
      num_ge_mmu <~ graph_num_ge_mmu ;;
      area_lt_mmu <~ graph_area_lt_mmu ;;
      (if dms =? 0 then raise ZeroDivisionError else ret tt) ;;;
      s <~ get ;;
      (if below_expected num_ge_mmu area_lt_mmu dms exp_final_num
          && negb (partial_stop s)
       then modify (set_partial_stop true) else ret tt) ;;;
      valid <~ (if valid
                then d1 <~ node_attrs n1 ;;
                     d2 <~ node_attrs n2 ;;
                     s <~ get ;;
                     ret (size_checks mas mmu (partial_stop s)
                            (pixel_count d1) (pixel_count d2))
                else ret valid) ;;
      ret (n1, n2, valid)
  end.

(** One turn of the [while] loop (lines 112 to 164) *)
Definition loop_body (dms mas mmu exp_final_num : Z) (in_place_merge : bool)
    (merge_func : Z -> Z -> Z -> Cmd unit)
    (weight_func : Z -> Z -> Z -> Cmd W) : Cmd unit :=
  e <~ pop_and_check dms mas mmu exp_final_num ;;
  let '(n1, n2, valid) := e in
  if valid
  then merge_pair mmu in_place_merge merge_func weight_func n1 n2
  else ret tt.

(** The [while len(edge_heap) > 0] loop; [None] when [fuel] turns were
    not enough to empty the heap. *)
Fixpoint main_loop (fuel : nat) (body : Cmd unit) (s : St)
    : option (Res St unit) :=
  match edge_heap s with
  | [] => Some (Ok tt s)
  | _ :: _ =>
      match fuel with
      | O => None
      | S fuel' =>
          match body s with
          | Ok _ s' => main_loop fuel' body s'
          | Err e s' => Some (Err e s')
          end
      end
  end.

(** Lines 166 to 171: the label map and the relabelled array *)
Fixpoint write_labels (ix : Z) (ls : list Z) (label_map : list Z)
    : exn + list Z :=
  match ls with
  | [] => inr label_map
  | label :: ls' =>
      match np_index (length label_map) label with
      | Some i => write_labels ix ls' (<[i := ix]> label_map)
      | None => inl IndexError
      end
  end.

Fixpoint build_label_map (ix : Z) (nodes : list (Z * option NodeData))
    (label_map : list Z) : exn + list Z :=
  match nodes with
  | [] => inr label_map
  | (_, None) :: _ => inl KeyError
  | (_, Some d) :: rest =>
      match write_labels ix (labels d) label_map with
      | inr label_map' => build_label_map (ix + 1) rest label_map'
      | inl e => inl e
      end
  end.

Definition relabel (label_arr : list (list Z)) : Cmd (list (list Z)) :=
  fun s =>
    match array_max label_arr with
    | None => Err ValueError s
    | Some m =>
        match build_label_map 0 (g_node s) (seqZ 0 (m + 1)) with
        | inl e => Err e s
        | inr label_map =>
            lift_opt IndexError (take_labels label_map label_arr) s
        end
    end.

(** [merge_size_constrained].  The state is the graph the function
    works on: the caller's own graph when [rag_copy] is false, a copy of
    it otherwise, so [rag_copy] changes nothing in what is computed here.
    What a caller sees in its own graph after a run with [rag_copy] is
    outside the model. *)
Definition merge_size_constrained (fuel : nat) (label_arr : list (list Z))
    (dms mas mmu : Z) (rag_copy in_place_merge : bool)
    (merge_func : Z -> Z -> Z -> Cmd unit)
    (weight_func : Z -> Z -> Z -> Cmd W) (s : St)
    : option (Res St (list (list Z))) :=
  match initialise dms mmu s with
  | Err e s1 => Some (Err e s1)
  | Ok exp_final_num s1 =>
      match main_loop fuel
              (loop_body dms mas mmu exp_final_num in_place_merge
                 merge_func weight_func) s1 with
      | None => None
      | Some (Err e s2) => Some (Err e s2)
      | Some (Ok _ s2) => Some (relabel label_arr s2)
      end
  end.

(** *** [rag_mean_color] and [scrm]

    [skimage.future.graph.rag_mean_color(img, labels, connectivity=1)] on
    a two-dimensional label array and an image with three channels. *)

(** [Graph.has_edge(u, v)] *)
Definition has_edge (u v : Z) : Cmd bool :=
  fun s => Ok (match dget u (g_adj s) with
               | Some a => dmem v a
               | None => false
               end) s.

(** [_add_edge_filter(values, graph)]; the new edge has no weight yet (a
    zero stands for it until the last loop of [rag_mean_color]). *)
Definition add_edge_filter (values : list Z) : Cmd unit :=
  center <~ lift_opt IndexError (values !! (length values / 2)%nat) ;;
  for_each values (fun value =>
    if bool_decide (value ≠ center) then
      b <~ has_edge center value ;;
      if b then ret tt else add_edge center value (norm zero_color)
    else ret tt).

(** [np.ndindex(labels.shape)]: the positions in row-major order *)
Fixpoint row_indices (i : Z) (rows : list (list Z)) : list (Z * Z) :=
  match rows with
  | [] => []
  | row :: rest =>
      map (fun j => (i, j)) (seqZ 0 (Z.of_nat (length row)))
      ++ row_indices (i + 1) rest
  end.

(** The element at a position that [mode='nearest'] has moved back into
    the array *)
Definition clamp (len : nat) (i : Z) : nat :=
  Z.to_nat (Z.min (Z.max i 0) (Z.of_nat len - 1)).
Definition label_near (label_arr : list (list Z)) (i j : Z) : option Z :=
  row ← label_arr !! clamp (length label_arr) i;
  row !! clamp (length row) j.

(** The values [generic_filter] passes for the position [(i, j)] with the
    footprint of connectivity 1: above, left, centre, right, below *)
Definition neighbourhood (label_arr : list (list Z)) (i j : Z) : list Z :=
  omap (fun d => via_float <$> label_near label_arr (i + d.1) (j + d.2))
       [(-1, 0); (0, -1); (0, 0); (0, 1); (1, 0)].

(** [arr[index]] for a position inside the array *)
Definition at_index {A} (arr : list (list A)) (i j : Z) : option A :=
  row ← arr !! Z.to_nat i; row !! Z.to_nat j.

(** [RAG()]: the empty graph *)
Definition empty_rag : St := mkSt [] [] [] None None 0 [] [] false.

Definition rag_mean_color (img : list (list color))
    (label_arr : list (list Z)) : Cmd unit :=
  (* graph = RAG(labels, connectivity=1) *)
  for_each (row_indices 0 label_arr) (fun ix =>
    add_edge_filter (neighbourhood label_arr ix.1 ix.2)) ;;;
  (* for n in graph: graph.nodes[n].update({...}) *)
  s <~ get ;;
  for_each (dkeys (g_node s)) (fun n =>
    set_node_attrs n (mkNode [n] 0 zero_color zero_color)) ;;;
  (* for index in np.ndindex(labels.shape) *)
  for_each (row_indices 0 label_arr) (fun ix =>
    current <~ lift_opt IndexError (at_index label_arr ix.1 ix.2) ;;
    d <~ node_attrs current ;;
    set_node_attrs current
      (mkNode (labels d) (pixel_count d + 1) (total_color d)
              (mean_color d)) ;;;
    d <~ node_attrs current ;;
    px <~ lift_opt IndexError (at_index img ix.1 ix.2) ;;
    set_node_attrs current
      (mkNode (labels d) (pixel_count d) (cadd (total_color d) px)
              (mean_color d))) ;;;
  (* for n in graph: graph.nodes[n]['mean color'] = ... *)
  s <~ get ;;
  for_each (dkeys (g_node s)) (fun n =>
    d <~ node_attrs n ;;
    set_node_attrs n
      (mkNode (labels d) (pixel_count d) (total_color d)
              (cdiv (total_color d) (pixel_count d)))) ;;;
  (* for x, y, d in graph.edges(data=True): d['weight'] = ... *)
  s <~ get ;;
  for_each (edges_from [] (g_adj s)) (fun e =>
    let '(x, y, r) := e in
    dx <~ node_attrs x ;;
    dy <~ node_attrs y ;;
    ed <~ edge_data r ;;
    modify (fun s =>
      set_edata (<[r := mkEdge (norm (csub (mean_color dx) (mean_color dy)))
                               (ed_heap_item ed)]> (edata s)) s)).

(** [scrm(img, labels, dms, mas, mmu)] *)
Definition scrm (fuel : nat) (img : list (list color))
    (label_arr : list (list Z)) (dms mas mmu : Z)
    : option (Res St (list (list Z))) :=
  match rag_mean_color img label_arr empty_rag with
  | Err e rag => Some (Err e rag)
  | Ok _ rag =>
      match merge_size_constrained fuel label_arr dms mas mmu false true
              merge_scrm weight_scrm rag with
      | Some (Ok regions s') => Some (Ok (map (map astype_int16) regions) s')
      | r => r
      end
  end.

(** ** Vocabulary of the specification *)

(** Sum of a quantity over the attribute dictionaries of the live
    regions *)
Definition node_sum (g : NodeData -> Z) (nodes : list (Z * option NodeData))
    : Z :=
  foldr (fun p acc => match snd p with
                      | Some d => g d + acc
                      | None => acc
                      end) 0 nodes.

(** Sum of the pixel counts of the live regions *)
Definition total_pixels (nodes : list (Z * option NodeData)) : Z :=
  node_sum pixel_count nodes.

(** Number of live regions with [pixel_count >= mmu], recomputed from
    scratch *)
Definition count_ge_mmu (mmu : Z) (nodes : list (Z * option NodeData)) : Z :=
  node_sum (fun d => b2z (mmu <=? pixel_count d)) nodes.

(** Area held by the live regions with [pixel_count < mmu], recomputed from
    scratch *)
Definition area_below_mmu (mmu : Z) (nodes : list (Z * option NodeData)) : Z :=
  node_sum (fun d => b2z (pixel_count d <? mmu) * pixel_count d) nodes.

(** The two counters of [rag.graph] agree with their recomputation. *)
Definition counters_ok (mmu : Z) (s : St) : Prop :=
  g_num_ge_mmu s = Some (count_ge_mmu mmu (g_node s)) /\
  g_area_lt_mmu s = Some (area_below_mmu mmu (g_node s)).

(** [s'] differs from [s] at most in the heap list and the latch. *)
Definition same_graph (s s' : St) : Prop :=
  g_node s' = g_node s /\ g_adj s' = g_adj s /\ edata s' = edata s /\
  g_num_ge_mmu s' = g_num_ge_mmu s /\ g_area_lt_mmu s' = g_area_lt_mmu s /\
  max_id s' = max_id s /\ items s' = items s.

(** The states at the head of the [while] loop: [s'] is reached from [s]
    by some number of complete turns. *)
Inductive turns (body : Cmd unit) : St -> St -> Prop :=
  | turns_refl s : turns body s s
  | turns_step s s1 s2 :
      edge_heap s <> [] -> body s = Ok tt s1 -> turns body s1 s2 ->
      turns body s s2.

(** ** Facts about lists used as arrays *)

Lemma insert_swap_head {A} (l : list A) (j : nat) (a b : A) :
  (j < length l)%nat -> a :: <[j := b]> l ≡ₚ b :: <[j := a]> l.
Proof.
  revert j; induction l as [|c l IH]; intros [|j] Hj; simpl in *; try lia.
  - apply perm_swap.
  - rewrite (perm_swap c a), (IH j) by lia. apply perm_swap.
Qed.

Lemma insert_exchange {A} (l : list A) (i j : nat) (a b : A) :
  i <> j -> (i < length l)%nat -> (j < length l)%nat ->
  <[i := a]> (<[j := b]> l) ≡ₚ <[i := b]> (<[j := a]> l).
Proof.
  revert i j; induction l as [|c l IH]; intros [|i] [|j] Hne Hi Hj;
    simpl in *; try lia.
  - apply insert_swap_head; lia.
  - symmetry. apply insert_swap_head; lia.
  - f_equiv. apply IH; lia.
Qed.

(** Moving the hole: writing [y = l[j]] at [i] and [x] at [j] permutes
    writing [x] at [i]. *)
Lemma insert_move_hole {A} (l : list A) (i j : nat) (x y : A) :
  l !! j = Some y -> i <> j -> (i < length l)%nat ->
  <[j := x]> (<[i := y]> l) ≡ₚ <[i := x]> l.
Proof.
  intros Hj Hne Hi.
  assert (j < length l)%nat by (by eapply lookup_lt_Some).
  transitivity (<[i := x]> (<[j := y]> l));
    [|by rewrite (list_insert_id l j y)].
  rewrite (list_insert_insert_ne l j i x y) by done.
  apply insert_exchange; done.
Qed.

(** ** Facts about [heapq] *)

Section HeapqFacts.
Variable lt : nat -> nat -> bool.

Lemma siftdown_loop_perm fuel heap startpos pos newitem :
  (pos < length heap)%nat ->
  siftdown_loop lt fuel heap startpos pos newitem ≡ₚ <[pos := newitem]> heap.
Proof.
  revert heap pos; induction fuel as [|fuel IH]; intros heap pos Hpos;
    cbn [siftdown_loop]; [reflexivity|].
  case_bool_decide as Hlt; [|reflexivity].
  destruct (heap !! ((pos - 1) / 2)%nat) as [parent|] eqn:Hp; [|reflexivity].
  destruct (lt newitem parent); [|reflexivity].
  assert ((pos - 1) / 2 < pos)%nat as Hpar.
  { apply Nat.Div0.div_lt_upper_bound. lia. }
  rewrite IH by (rewrite length_insert; lia).
  apply insert_move_hole; [done|lia|done].
Qed.

Lemma siftdown_perm heap startpos pos : siftdown lt heap startpos pos ≡ₚ heap.
Proof.
  unfold siftdown. destruct (heap !! pos) as [x|] eqn:Hx; [|done].
  rewrite siftdown_loop_perm by (by eapply lookup_lt_Some).
  by rewrite list_insert_id.
Qed.

Lemma siftup_loop_perm fuel heap endpos pos heap' pos' x :
  siftup_loop lt fuel heap endpos pos = (heap', pos') ->
  (pos < length heap)%nat ->
  (pos' < length heap')%nat /\ <[pos' := x]> heap' ≡ₚ <[pos := x]> heap.
Proof.
  revert heap pos; induction fuel as [|fuel IH]; intros heap pos;
    cbn [siftup_loop].
  { intros [= <- <-]. done. }
  case_bool_decide as Hlt; [|intros [= <- <-]; done].
  set (cp := match heap !! (2 * pos + 1)%nat, heap !! (2 * pos + 1 + 1)%nat with
             | Some c, Some r =>
                 if negb (lt c r) then (2 * pos + 1 + 1)%nat
                 else (2 * pos + 1)%nat
             | _, _ => (2 * pos + 1)%nat
             end).
  assert (pos < cp)%nat as Hcp.
  { unfold cp. repeat case_match; lia. }
  destruct (heap !! cp) as [c|] eqn:Hc; [|intros [= <- <-]; done].
  intros Hrec Hpos.
  apply IH in Hrec as [Hlen Hperm].
  2:{ rewrite length_insert. by eapply lookup_lt_Some. }
  split; [done|].
  rewrite Hperm. apply insert_move_hole; [done|lia|done].
Qed.

Lemma siftup_perm heap pos : siftup lt heap pos ≡ₚ heap.
Proof.
  unfold siftup. destruct (heap !! pos) as [x|] eqn:Hx; [|done].
  destruct (siftup_loop lt (length heap) heap (length heap) pos)
    as [heap' pos'] eqn:Hloop.
  rewrite siftdown_perm.
  eapply siftup_loop_perm in Hloop as [_ ->]; [|by eapply lookup_lt_Some].
  by rewrite list_insert_id.
Qed.

Lemma heappush_perm heap item : heappush lt heap item ≡ₚ item :: heap.
Proof.
  unfold heappush. rewrite siftdown_perm.
  by rewrite Permutation_app_comm.
Qed.

Lemma heappop_perm heap x heap' :
  heappop lt heap = Some (x, heap') -> heap ≡ₚ x :: heap'.
Proof.
  unfold heappop.
  destruct (rev heap) as [|lastelt front] eqn:Hrev; [done|].
  assert (heap = rev front ++ [lastelt]) as ->.
  { rewrite <- (rev_involutive heap), Hrev. done. }
  destruct (rev front) as [|returnitem rest]; intros [= <- <-]; [done|].
  rewrite siftup_perm. simpl. f_equiv.
  by rewrite Permutation_app_comm.
Qed.

Lemma heappop_nonempty heap :
  heap <> [] -> exists x heap', heappop lt heap = Some (x, heap').
Proof.
  intros Hne. unfold heappop.
  destruct (rev heap) as [|lastelt front] eqn:Hrev.
  - apply (f_equal (@rev nat)) in Hrev. rewrite rev_involutive in Hrev. done.
  - destruct (rev front); eauto.
Qed.
End HeapqFacts.

(** ** The check of a popped entry *)

Arguments size_checks : simpl never.
Arguments below_expected : simpl never.

Lemma size_checks_both_above_mas mas mmu stop a1 a2 :
  mas < a1 -> mas < a2 -> size_checks mas mmu stop a1 a2 = false.
Proof.
  intros H1 H2. unfold size_checks.
  apply Z.ltb_lt in H1, H2. rewrite H1, H2. cbn.
  by repeat case_match.
Qed.

(** What [pop_and_check] has done when it returns. *)
Lemma pop_and_check_ok dms mas mmu exp s n1 n2 valid s1 :
  pop_and_check dms mas mmu exp s = Ok (n1, n2, valid) s1 ->
  exists h it num area,
    heappop (ref_lt (items s)) (edge_heap s) = Some (h, edge_heap s1) /\
    items s !! h = Some it /\ n1 = hi_n1 it /\ n2 = hi_n2 it /\
    same_graph s s1 /\
    g_num_ge_mmu s = Some num /\ g_area_lt_mmu s = Some area /\ dms <> 0 /\
    partial_stop s1
      = (partial_stop s || below_expected num area dms exp)%bool /\
    (if hi_valid it
     then exists d1 d2,
            dget n1 (g_node s) = Some (Some d1) /\
            dget n2 (g_node s) = Some (Some d2) /\
            valid = size_checks mas mmu (partial_stop s1)
                      (pixel_count d1) (pixel_count d2)
     else valid = false).
Proof.
  unfold pop_and_check, bind, get, modify, get_item, graph_num_ge_mmu,
    graph_area_lt_mmu, lift_opt, ret, raise, node_attrs.
  destruct (heappop (ref_lt (items s)) (edge_heap s)) as [[h heap']|] eqn:Hpop;
    [|done].
  simpl.
  destruct (items s !! h) as [it|] eqn:Hit; [|done]. simpl.
  destruct (g_num_ge_mmu s) as [num|] eqn:Hnum; [|done]. simpl.
  destruct (g_area_lt_mmu s) as [area|] eqn:Harea; [|done]. simpl.
  destruct (dms =? 0) eqn:Hdms; [done|]. simpl.
  apply Z.eqb_neq in Hdms.
  intros H. exists h, it, num, area.
  destruct (below_expected num area dms exp) eqn:Hb,
    (partial_stop s) eqn:Hps, (hi_valid it) eqn:Hv; simpl in H;
    repeat case_match; simplify_eq/=;
    repeat split; eauto 10.
Qed.

(** A popped entry that is not accepted costs the turn nothing but the
    entry itself. *)
Lemma loop_body_rejected dms mas mmu exp ipm mf wf s n1 n2 s1 :
  pop_and_check dms mas mmu exp s = Ok (n1, n2, false) s1 ->
  loop_body dms mas mmu exp ipm mf wf s = Ok tt s1.
Proof. intros H. unfold loop_body, bind. by rewrite H. Qed.

(** ** Commands that leave an observation of the state alone *)

(** [m] never changes the observation [f], whether it returns or raises. *)
Definition preserves {X A : Type} (f : St -> X) (m : Cmd A) : Prop :=
  forall s, f (res_state (m s)) = f s.

Lemma preserves_ret {X A} (f : St -> X) (a : A) : preserves f (ret a).
Proof. done. Qed.

Lemma preserves_raise {X A} (f : St -> X) e : preserves f (@raise St A e).
Proof. done. Qed.

Lemma preserves_get {X} (f : St -> X) : preserves f get.
Proof. done. Qed.

Lemma preserves_lift_opt {X A} (f : St -> X) e (o : option A) :
  preserves f (lift_opt e o).
Proof. by destruct o. Qed.

Lemma preserves_modify {X} (f : St -> X) (g : St -> St) :
  (forall s, f (g s) = f s) -> preserves f (modify g).
Proof. intros H s. apply H. Qed.

Lemma preserves_bind {X A B} (f : St -> X) (m : Cmd A) (k : A -> Cmd B) :
  preserves f m -> (forall a, preserves f (k a)) -> preserves f (bind m k).
Proof.
  intros Hm Hk s. unfold bind. specialize (Hm s).
  destruct (m s) as [a s'|e s']; simpl in *; [|done].
  by rewrite Hk.
Qed.

Lemma preserves_for_each {X A} (f : St -> X) (l : list A)
    (body : A -> Cmd unit) :
  (forall x, preserves f (body x)) -> preserves f (for_each l body).
Proof.
  intros Hb. induction l as [|x l IH]; simpl; [done|].
  apply preserves_bind; auto.
Qed.

(** Observations that do not look at one field of the state *)
Definition ignores_node {X} (f : St -> X) := forall v s, f (set_node v s) = f s.
Definition ignores_adj {X} (f : St -> X) := forall v s, f (set_adj v s) = f s.
Definition ignores_edata {X} (f : St -> X) :=
  forall v s, f (set_edata v s) = f s.
Definition ignores_num {X} (f : St -> X) :=
  forall v s, f (set_num_ge_mmu v s) = f s.
Definition ignores_area {X} (f : St -> X) :=
  forall v s, f (set_area_lt_mmu v s) = f s.
Definition ignores_max_id {X} (f : St -> X) :=
  forall v s, f (set_max_id v s) = f s.
Definition ignores_items {X} (f : St -> X) :=
  forall v s, f (set_items v s) = f s.
Definition ignores_heap {X} (f : St -> X) :=
  forall v s, f (set_edge_heap v s) = f s.

Create HintDb frame.

(** One syntax-directed step through a command *)
Ltac frame_step :=
  lazymatch goal with
  | |- preserves _ (bind _ _) => apply preserves_bind
  | |- preserves _ (for_each _ _) => apply preserves_for_each
  | |- preserves _ (ret _) => apply preserves_ret
  | |- preserves _ (raise _) => apply preserves_raise
  | |- preserves _ get => apply preserves_get
  | |- preserves _ (lift_opt _ _) => apply preserves_lift_opt
  | |- preserves _ (modify _) => apply preserves_modify; intros; simpl
  | |- preserves _ (match ?x with _ => _ end) => destruct x
  | |- forall _, _ => intros ?
  end.

Ltac frame :=
  unfold ignores_node, ignores_adj, ignores_edata, ignores_num, ignores_area,
    ignores_max_id, ignores_items, ignores_heap in *;
  repeat frame_step; eauto with frame.

Section Frame.
Context {X : Type} (f : St -> X).

Lemma preserves_node_attrs n : preserves f (node_attrs n).
Proof. intros s. unfold node_attrs. by repeat case_match. Qed.

Lemma preserves_neighbors n : preserves f (neighbors n).
Proof. intros s. unfold neighbors. by repeat case_match. Qed.

Lemma preserves_edge_ref u v : preserves f (edge_ref u v).
Proof.
  intros s. unfold edge_ref. case_match; [|done]. apply preserves_lift_opt.
Qed.

Lemma preserves_edge_data r : preserves f (edge_data r).
Proof. intros s. unfold edge_data. apply preserves_lift_opt. Qed.

Lemma preserves_get_item h : preserves f (get_item h).
Proof. intros s. unfold get_item. apply preserves_lift_opt. Qed.

Lemma preserves_graph_num_ge_mmu : preserves f graph_num_ge_mmu.
Proof. intros s. unfold graph_num_ge_mmu. apply preserves_lift_opt. Qed.

Lemma preserves_graph_area_lt_mmu : preserves f graph_area_lt_mmu.
Proof. intros s. unfold graph_area_lt_mmu. apply preserves_lift_opt. Qed.

Lemma preserves_next_id : preserves f next_id.
Proof. done. Qed.

Local Hint Resolve preserves_node_attrs preserves_neighbors preserves_edge_ref
  preserves_edge_data preserves_get_item preserves_graph_num_ge_mmu
  preserves_graph_area_lt_mmu preserves_next_id : frame.

Lemma preserves_set_node_attrs n d :
  ignores_node f -> preserves f (set_node_attrs n d).
Proof. intros H s. apply H. Qed.

Lemma preserves_invalidate_item h :
  ignores_items f -> preserves f (invalidate_item h).
Proof. intros H. unfold invalidate_item. frame. Qed.

Local Hint Resolve preserves_set_node_attrs preserves_invalidate_item : frame.

Lemma preserves_invalidate_edge n1 n2 :
  ignores_items f -> preserves f (invalidate_edge n1 n2).
Proof. intros H. unfold invalidate_edge. frame. Qed.

Lemma preserves_add_node_silent n :
  ignores_node f -> ignores_adj f -> preserves f (add_node_silent n).
Proof.
  intros Hn Ha s. unfold add_node_silent, modify. simpl.
  case_match; [done|]. by rewrite Hn, Ha.
Qed.

Lemma preserves_adj_set u v r : ignores_adj f -> preserves f (adj_set u v r).
Proof. intros H s. unfold adj_set. case_match; [apply H|done]. Qed.

Lemma preserves_adj_del u v : ignores_adj f -> preserves f (adj_del u v).
Proof. intros H s. unfold adj_del. repeat case_match; try done. apply H. Qed.

Local Hint Resolve preserves_invalidate_edge preserves_add_node_silent
  preserves_adj_set preserves_adj_del : frame.

Lemma preserves_add_edge u v w :
  ignores_node f -> ignores_adj f -> ignores_edata f -> ignores_max_id f ->
  preserves f (add_edge u v w).
Proof. intros Hn Ha He Hm. unfold add_edge. frame. Qed.

Lemma preserves_remove_node n :
  ignores_node f -> ignores_adj f -> preserves f (remove_node n).
Proof. intros Hn Ha. unfold remove_node. frame. Qed.

Lemma preserves_weight_scrm src dst n : preserves f (weight_scrm src dst n).
Proof. unfold weight_scrm. frame. Qed.

Lemma preserves_merge_scrm src dst mmu :
  ignores_node f -> ignores_num f -> ignores_area f ->
  preserves f (merge_scrm src dst mmu).
Proof. intros Hn Hc Ha. unfold merge_scrm. frame. Qed.

Local Hint Resolve preserves_add_edge preserves_remove_node : frame.

Lemma preserves_merge_nodes src dst (wf : Z -> Z -> Z -> Cmd W) :
  (forall a b c, preserves f (wf a b c)) ->
  ignores_node f -> ignores_adj f -> ignores_edata f -> ignores_max_id f ->
  preserves f (merge_nodes src dst wf).
Proof. intros Hw Hn Ha He Hm. unfold merge_nodes. frame. Qed.

Lemma preserves_rename_node node_id copy_id :
  ignores_node f -> ignores_adj f -> ignores_edata f -> ignores_max_id f ->
  preserves f (rename_node node_id copy_id).
Proof. intros Hn Ha He Hm. unfold rename_node. frame. Qed.

Lemma preserves_new_item wt n1 n2 :
  ignores_items f -> preserves f (new_item wt n1 n2).
Proof. intros H s. apply H. Qed.

Lemma preserves_set_heap_item r h :
  ignores_edata f -> preserves f (set_heap_item r h).
Proof. intros H. unfold set_heap_item. frame. Qed.

Lemma preserves_push_item h : ignores_heap f -> preserves f (push_item h).
Proof. intros H s. apply H. Qed.

Local Hint Resolve preserves_merge_nodes preserves_rename_node
  preserves_new_item preserves_set_heap_item preserves_push_item : frame.

Lemma preserves_revalidate_node_edges node :
  ignores_items f -> ignores_edata f -> ignores_heap f ->
  preserves f (revalidate_node_edges node).
Proof. intros Hi He Hh. unfold revalidate_node_edges. frame. Qed.

Local Hint Resolve preserves_revalidate_node_edges : frame.

Lemma preserves_merge_pair mmu ipm (mf : Z -> Z -> Z -> Cmd unit)
    (wf : Z -> Z -> Z -> Cmd W) n1 n2 :
  (forall a b c, preserves f (mf a b c)) ->
  (forall a b c, preserves f (wf a b c)) ->
  ignores_node f -> ignores_adj f -> ignores_edata f -> ignores_max_id f ->
  ignores_items f -> ignores_heap f ->
  preserves f (merge_pair mmu ipm mf wf n1 n2).
Proof. intros Hmf Hwf Hn Ha He Hm Hi Hh. unfold merge_pair. frame. Qed.
End Frame.

(** ** Turns that discard the popped entry *)

(** The latch after its re-evaluation at line 116 *)
Definition latch_after (dms exp_final_num : Z) (s : St) : bool :=
  match g_num_ge_mmu s, g_area_lt_mmu s with
  | Some num, Some area =>
      (partial_stop s || below_expected num area dms exp_final_num)%bool
  | _, _ => partial_stop s
  end.

(** The popped entry [it] is not accepted: it is stale, or the size checks
    reject it. *)
Definition not_accepted (mas mmu : Z) (stop : bool) (s : St) (it : HeapItem)
    : Prop :=
  hi_valid it = false \/
  exists d1 d2,
    dget (hi_n1 it) (g_node s) = Some (Some d1) /\
    dget (hi_n2 it) (g_node s) = Some (Some d2) /\
    size_checks mas mmu stop (pixel_count d1) (pixel_count d2) = false.

Lemma loop_body_discard dms mas mmu exp ipm mf wf s h heap' it :
  heappop (ref_lt (items s)) (edge_heap s) = Some (h, heap') ->
  items s !! h = Some it ->
  is_Some (g_num_ge_mmu s) -> is_Some (g_area_lt_mmu s) -> dms <> 0 ->
  not_accepted mas mmu (latch_after dms exp s) s it ->
  loop_body dms mas mmu exp ipm mf wf s
  = Ok tt (set_partial_stop (latch_after dms exp s) (set_edge_heap heap' s)).
Proof.
  intros Hpop Hit [num Hnum] [area Harea] Hdms Hrej.
  apply Z.eqb_neq in Hdms.
  unfold latch_after in *. rewrite Hnum, Harea in *.
  unfold loop_body, pop_and_check, bind, get, modify, get_item,
    graph_num_ge_mmu, graph_area_lt_mmu, lift_opt, ret, raise, node_attrs.
  rewrite Hpop. simpl. rewrite Hit. simpl. rewrite Hnum. simpl.
  rewrite Harea. simpl. rewrite Hdms. simpl.
  destruct Hrej as [Hv|(d1 & d2 & H1 & H2 & Hsz)].
  - rewrite Hv.
    destruct (below_expected num area dms exp), (partial_stop s) eqn:Hps;
      simpl; unfold set_partial_stop, set_edge_heap; simpl; by rewrite ?Hps.
  - destruct (below_expected num area dms exp), (partial_stop s) eqn:Hps;
      simpl in *; destruct (hi_valid it); simpl; rewrite ?H1; simpl;
      rewrite ?H2; simpl; rewrite ?Hps, ?Hsz;
      unfold set_partial_stop, set_edge_heap; simpl; by rewrite ?Hps.
Qed.

(** C2.  Oversized blocking: at any turn of the loop, in whatever state it
    starts and whatever the weight or the place in the heap of the entry
    that [heappop] returns, if the two regions of that entry both have more
    than [mas] pixels then the turn ends with the entry dropped from the
    heap, the latch re-evaluated, and nothing else changed: the two regions
    are not merged. *)
Theorem oversized_pair_never_merged dms mas mmu exp ipm mf wf s h heap' it
    d1 d2 :
  heappop (ref_lt (items s)) (edge_heap s) = Some (h, heap') ->
  items s !! h = Some it ->
  is_Some (g_num_ge_mmu s) -> is_Some (g_area_lt_mmu s) -> dms <> 0 ->
  dget (hi_n1 it) (g_node s) = Some (Some d1) ->
  dget (hi_n2 it) (g_node s) = Some (Some d2) ->
  mas < pixel_count d1 -> mas < pixel_count d2 ->
  loop_body dms mas mmu exp ipm mf wf s
  = Ok tt (set_partial_stop (latch_after dms exp s) (set_edge_heap heap' s)).
Proof.
  intros Hpop Hit Hnum Harea Hdms H1 H2 Ha1 Ha2.
  apply (loop_body_discard _ _ _ _ _ _ _ _ h heap' it); try done.
  right. exists d1, d2. repeat split; try done.
  by apply size_checks_both_above_mas.
Qed.

(** C10.  Frame of a discarded entry: when the popped entry is stale or is
    rejected by the size checks, the turn returns the state it started from
    with the entry removed from the heap and the latch re-evaluated; the
    region store, the adjacency, the edge and heap-item stores and the two
    counters are those of the start, the heap has lost exactly the popped
    entry, and a latch that was set stays set. *)
Theorem discarded_entry_frame dms mas mmu exp ipm mf wf s h heap' it :
  heappop (ref_lt (items s)) (edge_heap s) = Some (h, heap') ->
  items s !! h = Some it ->
  is_Some (g_num_ge_mmu s) -> is_Some (g_area_lt_mmu s) -> dms <> 0 ->
  not_accepted mas mmu (latch_after dms exp s) s it ->
  exists s',
    loop_body dms mas mmu exp ipm mf wf s = Ok tt s' /\
    same_graph s s' /\
    edge_heap s ≡ₚ h :: edge_heap s' /\
    (partial_stop s = true -> partial_stop s' = true) /\
    (partial_stop s' = false -> partial_stop s = false).
Proof.
  intros Hpop Hit Hnum Harea Hdms Hrej.
  eexists. split; [by eapply loop_body_discard|].
  split; [done|]. simpl. split; [by eapply heappop_perm|].
  unfold latch_after. destruct Hnum as [? ->], Harea as [? ->].
  split; [by intros ->|]. intros H. by apply orb_false_elim in H as [-> _].
Qed.

(** ** The stop latch *)

Lemma bind_ok_inv {S A B} (m : M S A) (k : A -> M S B) s b s' :
  bind m k s = Ok b s' -> exists a s1, m s = Ok a s1 /\ k a s1 = Ok b s'.
Proof. unfold bind. destruct (m s) as [a s1|e s1]; [eauto|done]. Qed.

Lemma bind_ok {S A B} (m : M S A) (k : A -> M S B) s a s1 :
  m s = Ok a s1 -> bind m k s = k a s1.
Proof. unfold bind. by intros ->. Qed.

Lemma initialise_latch dms mmu s exp s1 :
  initialise dms mmu s = Ok exp s1 -> partial_stop s1 = false.
Proof.
  unfold initialise. intros H.
  repeat (apply bind_ok_inv in H as (? & ? & ? & H)).
  unfold modify, ret in *. by simplify_eq/=.
Qed.

Lemma pop_and_check_latch dms mas mmu exp s :
  partial_stop s = true ->
  partial_stop (res_state (pop_and_check dms mas mmu exp s)) = true.
Proof.
  intros Hps.
  unfold pop_and_check, bind, get, modify, get_item, graph_num_ge_mmu,
    graph_area_lt_mmu, lift_opt, ret, raise, node_attrs.
  destruct (heappop _ _) as [[h heap']|]; [|done]. simpl.
  destruct (items s !! h) as [it|]; [|done]. simpl.
  destruct (g_num_ge_mmu s); [|done]. simpl.
  destruct (g_area_lt_mmu s); [|done]. simpl.
  destruct (dms =? 0); [done|]. simpl.
  rewrite Hps, andb_false_r. simpl.
  destruct (hi_valid it); [|done].
  repeat case_match; simplify_eq/=; done.
Qed.

Lemma loop_body_latch dms mas mmu exp ipm
    (mf : Z -> Z -> Z -> Cmd unit) (wf : Z -> Z -> Z -> Cmd W) s :
  (forall a b c, preserves partial_stop (mf a b c)) ->
  (forall a b c, preserves partial_stop (wf a b c)) ->
  partial_stop s = true ->
  partial_stop (res_state (loop_body dms mas mmu exp ipm mf wf s)) = true.
Proof.
  intros Hmf Hwf Hps.
  pose proof (pop_and_check_latch dms mas mmu exp s Hps) as Hpc.
  unfold loop_body, bind.
  destruct (pop_and_check dms mas mmu exp s) as [[[n1 n2] valid] s1|e s1];
    simpl in *; [|done].
  destruct valid; [|done].
  rewrite preserves_merge_pair; done.
Qed.

(** C3.  Latch monotonicity: the latch is false when the loop is entered,
    and in a run of [scrm] or of [merge_size_constrained] with the
    callbacks of [scrm.py], in either merge mode, once the latch is true at
    the head of a turn it is true at the end of that turn (whether the turn
    returns or raises) and at the head of every later turn. *)
Theorem latch_monotone dms mas mmu exp ipm s0 s1 :
  initialise dms mmu s0 = Ok exp s1 ->
  partial_stop s1 = false /\
  forall s s',
    turns (loop_body dms mas mmu exp ipm merge_scrm weight_scrm) s s' ->
    partial_stop s = true ->
    partial_stop s' = true /\
    partial_stop
      (res_state (loop_body dms mas mmu exp ipm merge_scrm weight_scrm s'))
    = true.
Proof.
  intros Hinit. split; [by eapply initialise_latch|].
  assert (forall s,
    partial_stop s = true ->
    partial_stop
      (res_state (loop_body dms mas mmu exp ipm merge_scrm weight_scrm s))
    = true) as Hstep.
  { intros s Hs. apply loop_body_latch; [| |done].
    - intros. by apply preserves_merge_scrm.
    - intros. apply preserves_weight_scrm. }
  intros s s' Hturns. induction Hturns as [s|s sa sb Hne Hbody _ IH].
  - auto.
  - intros Hs. apply IH. specialize (Hstep s Hs). by rewrite Hbody in Hstep.
Qed.

(** ** Facts about the dictionaries *)

Section DictFacts.
Context {V : Type}.
Implicit Types (d : list (Z * V)) (k : Z) (v : V).

Lemma dget_Some_elem d k v : dget k d = Some v -> (k, v) ∈ d.
Proof.
  induction d as [|[k' v'] d IH]; simpl; [done|].
  destruct (Z.eqb_spec k k') as [->|Hne].
  - intros [= ->]. left.
  - intros H. right. auto.
Qed.

Lemma dget_is_Some d k : is_Some (dget k d) <-> k ∈ dkeys d.
Proof.
  induction d as [|[k' v'] d IH]; simpl.
  - split; [by intros [? ?]|by intros ?%elem_of_nil].
  - destruct (Z.eqb_spec k k') as [->|Hne].
    + split; [intros _; left|eauto].
    + rewrite IH. unfold dkeys. simpl. rewrite elem_of_cons. naive_solver.
Qed.

Lemma dget_None d k : dget k d = None <-> k ∉ dkeys d.
Proof.
  rewrite <- dget_is_Some, <- eq_None_not_Some. done.
Qed.

Lemma dmem_true d k : dmem k d = true <-> k ∈ dkeys d.
Proof.
  rewrite <- dget_is_Some. unfold dmem.
  destruct (dget k d); split; done.
Qed.

Lemma dmem_false d k : dmem k d = false <-> k ∉ dkeys d.
Proof.
  rewrite <- dmem_true. destruct (dmem k d); split; done.
Qed.

Lemma dget_dset_eq d k v : dget k (dset k v d) = Some v.
Proof.
  induction d as [|[k' v'] d IH]; simpl.
  - by rewrite Z.eqb_refl.
  - destruct (Z.eqb_spec k k') as [->|Hne]; simpl.
    + by rewrite Z.eqb_refl.
    + by destruct (Z.eqb_spec k k').
Qed.

Lemma dget_dset_ne d k k' v : k <> k' -> dget k' (dset k v d) = dget k' d.
Proof.
  intros Hne. induction d as [|[k0 v0] d IH]; simpl.
  - by destruct (Z.eqb_spec k' k).
  - destruct (Z.eqb_spec k k0) as [->|Hne0]; simpl.
    + by destruct (Z.eqb_spec k' k0).
    + by rewrite IH.
Qed.

Lemma dget_dset d k k' v :
  dget k' (dset k v d) = if decide (k = k') then Some v else dget k' d.
Proof.
  case_decide as H; [subst; apply dget_dset_eq|by apply dget_dset_ne].
Qed.

Lemma dkeys_dset_in d k v : k ∈ dkeys d -> dkeys (dset k v d) = dkeys d.
Proof.
  induction d as [|[k' v'] d IH]; simpl; [by intros ?%elem_of_nil|].
  destruct (Z.eqb_spec k k') as [->|Hne]; [done|].
  unfold dkeys in *. simpl. rewrite elem_of_cons. intros [?|?]; [done|].
  by rewrite IH.
Qed.

Lemma dkeys_dset_notin d k v : k ∉ dkeys d -> dkeys (dset k v d) = dkeys d ++ [k].
Proof.
  induction d as [|[k' v'] d IH]; simpl; [done|].
  unfold dkeys in *. simpl. rewrite not_elem_of_cons. intros [Hne Hnin].
  destruct (Z.eqb_spec k k'); [done|]. simpl. by rewrite IH.
Qed.

Lemma elem_of_dkeys_dset d k k' v :
  k' ∈ dkeys (dset k v d) <-> k' = k \/ k' ∈ dkeys d.
Proof.
  rewrite <- !dget_is_Some, dget_dset. case_decide; subst.
  - split; [by left|eauto].
  - split; [by right|]. intros [?|?]; [by subst|done].
Qed.

Lemma NoDup_dkeys_dset d k v : NoDup (dkeys d) -> NoDup (dkeys (dset k v d)).
Proof.
  intros Hnd. destruct (decide (k ∈ dkeys d)) as [Hin|Hnin].
  - by rewrite dkeys_dset_in.
  - rewrite dkeys_dset_notin by done. apply NoDup_app.
    split; [done|]. split; [|apply NoDup_singleton].
    intros x Hx ->%list_elem_of_singleton. done.
Qed.

Lemma length_dset_in d k v : k ∈ dkeys d -> length (dset k v d) = length d.
Proof.
  intros H. pose proof (dkeys_dset_in d k v H) as Hk.
  apply (f_equal length) in Hk. unfold dkeys in Hk.
  by rewrite !length_map in Hk.
Qed.

Lemma dget_ddel_ne d k k' : k <> k' -> dget k' (ddel k d) = dget k' d.
Proof.
  intros Hne. induction d as [|[k0 v0] d IH]; simpl; [done|].
  destruct (Z.eqb_spec k k0) as [->|Hne0]; simpl.
  - by destruct (Z.eqb_spec k' k0).
  - by rewrite IH.
Qed.

Lemma dget_ddel_eq d k : NoDup (dkeys d) -> dget k (ddel k d) = None.
Proof.
  induction d as [|[k0 v0] d IH]; simpl; [done|].
  unfold dkeys in *. simpl. rewrite NoDup_cons. intros [Hnin Hnd].
  destruct (Z.eqb_spec k k0) as [->|Hne0]; simpl.
  - by apply dget_None.
  - destruct (Z.eqb_spec k k0); [done|]. auto.
Qed.

Lemma dget_ddel d k k' :
  NoDup (dkeys d) ->
  dget k' (ddel k d) = if decide (k = k') then None else dget k' d.
Proof.
  intros Hnd. case_decide; [subst; by apply dget_ddel_eq|by apply dget_ddel_ne].
Qed.

Lemma dkeys_ddel_sublist d k : dkeys (ddel k d) `sublist_of` dkeys d.
Proof.
  induction d as [|[k0 v0] d IH]; simpl; [done|].
  unfold dkeys in *. simpl.
  destruct (Z.eqb_spec k k0); simpl; by constructor.
Qed.

Lemma NoDup_dkeys_ddel d k : NoDup (dkeys d) -> NoDup (dkeys (ddel k d)).
Proof. intros H. eapply sublist_NoDup; [done|apply dkeys_ddel_sublist]. Qed.

Lemma elem_of_dkeys_ddel d k k' :
  NoDup (dkeys d) -> k' ∈ dkeys (ddel k d) <-> k' <> k /\ k' ∈ dkeys d.
Proof.
  intros Hnd. rewrite <- !dget_is_Some, dget_ddel by done.
  case_decide; subst; [|naive_solver].
  split; [by intros [? ?]|naive_solver].
Qed.

Lemma length_ddel d k : k ∈ dkeys d -> S (length (ddel k d)) = length d.
Proof.
  induction d as [|[k0 v0] d IH]; simpl; [by intros ?%elem_of_nil|].
  unfold dkeys in *. simpl. rewrite elem_of_cons.
  destruct (Z.eqb_spec k k0) as [->|Hne]; simpl; [done|].
  intros [?|?]; [done|]. by rewrite IH.
Qed.
End DictFacts.

Lemma node_sum_dset g nodes k (d d' : NodeData) :
  dget k nodes = Some (Some d) ->
  node_sum g (dset k (Some d') nodes) = node_sum g nodes - g d + g d'.
Proof.
  induction nodes as [|[k0 o] nodes IH]; simpl; [done|].
  destruct (Z.eqb_spec k k0) as [->|Hne]; simpl.
  - intros [= ->]. lia.
  - intros H. rewrite IH by done. destruct o; lia.
Qed.

Lemma node_sum_ddel g nodes k (d : NodeData) :
  dget k nodes = Some (Some d) ->
  node_sum g (ddel k nodes) = node_sum g nodes - g d.
Proof.
  induction nodes as [|[k0 o] nodes IH]; simpl; [done|].
  destruct (Z.eqb_spec k k0) as [->|Hne]; simpl.
  - intros [= ->]. lia.
  - intros H. rewrite IH by done. destruct o; lia.
Qed.

Lemma node_sum_dset_new g nodes k (d' : NodeData) :
  k ∉ dkeys nodes ->
  node_sum g (dset k (Some d') nodes) = node_sum g nodes + g d'.
Proof.
  induction nodes as [|[k0 o] nodes IH]; simpl; [intros; lia|].
  unfold dkeys in *. simpl. rewrite not_elem_of_cons. intros [Hne Hnin].
  destruct (Z.eqb_spec k k0); [done|]. simpl. rewrite IH by done.
  destruct o; lia.
Qed.

Lemma dset_dset {V} (d : list (Z * V)) k v v' :
  dset k v (dset k v' d) = dset k v d.
Proof.
  induction d as [|[k0 v0] d IH]; simpl.
  - by rewrite Z.eqb_refl.
  - destruct (Z.eqb_spec k k0) as [->|Hne]; simpl.
    + by rewrite Z.eqb_refl.
    + destruct (Z.eqb_spec k k0); [done|]. by rewrite IH.
Qed.

(** ** [merge_scrm] *)

(** The attributes [merge_scrm] leaves at [dst] *)
Definition merged_attrs (sd dd : NodeData) : NodeData :=
  mkNode (labels dd) (pixel_count dd + pixel_count sd)
         (cadd (total_color dd) (total_color sd))
         (cdiv (cadd (total_color dd) (total_color sd))
               (pixel_count dd + pixel_count sd)).

(** The two counters after [merge_scrm] *)
Definition merged_num (mmu : Z) (sd dd : NodeData) (num : Z) : Z :=
  num + (b2z (mmu <=? pixel_count dd + pixel_count sd)
         - b2z (mmu <=? pixel_count sd) - b2z (mmu <=? pixel_count dd)).
Definition merged_area (mmu : Z) (sd dd : NodeData) (area : Z) : Z :=
  area + (b2z (pixel_count dd + pixel_count sd <? mmu)
            * (pixel_count dd + pixel_count sd)
          - b2z (pixel_count sd <? mmu) * pixel_count sd
          - b2z (pixel_count dd <? mmu) * pixel_count dd).

Lemma merge_scrm_run src dst mmu s sd dd num area :
  dget src (g_node s) = Some (Some sd) ->
  dget dst (g_node s) = Some (Some dd) ->
  g_num_ge_mmu s = Some num -> g_area_lt_mmu s = Some area ->
  merge_scrm src dst mmu s
  = Ok tt (set_area_lt_mmu (Some (merged_area mmu sd dd area))
            (set_num_ge_mmu (Some (merged_num mmu sd dd num))
               (set_node (dset dst (Some (merged_attrs sd dd)) (g_node s)) s))).
Proof.
  intros Hs Hd Hnum Harea.
  unfold merge_scrm, bind, node_attrs, set_node_attrs, modify,
    graph_num_ge_mmu, graph_area_lt_mmu, lift_opt, ret.
  destruct (decide (src = dst)) as [->|Hne].
  - assert (sd = dd) as -> by congruence.
    repeat progress (rewrite ?Hd, ?dget_dset_eq, ?Hnum, ?Harea; simpl).
    by rewrite !dset_dset.
  - repeat progress
      (rewrite ?dget_dset_eq, ?Hnum, ?Harea, ?dget_dset_ne by done;
       rewrite ?Hs, ?Hd; simpl).
    by rewrite !dset_dset.
Qed.

(** C5.  When [merge_scrm] combines the regions [src] and [dst], it
    succeeds, and the surviving region [dst] has as pixel count the sum of
    the two pixel counts, as total colour the float64 sum of the two total
    colours, channel by channel, and as mean colour the float64 quotient
    of the new total colour by the new pixel count. *)
Theorem merge_scrm_attributes src dst mmu s sd dd :
  dget src (g_node s) = Some (Some sd) ->
  dget dst (g_node s) = Some (Some dd) ->
  is_Some (g_num_ge_mmu s) -> is_Some (g_area_lt_mmu s) ->
  exists s' nd,
    merge_scrm src dst mmu s = Ok tt s' /\
    dget dst (g_node s') = Some (Some nd) /\
    pixel_count nd = pixel_count dd + pixel_count sd /\
    total_color nd = cadd (total_color dd) (total_color sd) /\
    mean_color nd = cdiv (total_color nd) (pixel_count nd) /\
    mean_color nd
    = cdiv (cadd (total_color dd) (total_color sd))
           (pixel_count dd + pixel_count sd).
Proof.
  intros Hs Hd [num Hnum] [area Harea].
  eexists _, (merged_attrs sd dd).
  split; [by eapply merge_scrm_run|].
  simpl. by rewrite dget_dset_eq.
Qed.

(** ** Well-formed region adjacency graphs *)

(** [rag[u][v]] as a reference, when the edge exists *)
Definition adj_ref (s : St) (u v : Z) : option nat :=
  match dget u (g_adj s) with
  | Some a => dget v a
  | None => None
  end.

(** [rag[u][v]['heap item']], when the edge exists and has been queued *)
Definition edge_item (s : St) (u v : Z) : option nat :=
  match adj_ref s u v with
  | Some r => match edata s !! r with
              | Some ed => ed_heap_item ed
              | None => None
              end
  | None => None
  end.

(** What [networkx] guarantees of an undirected graph without self-loops:
    dictionaries have no duplicate key, [_adj] and [_node] have the same
    keys, both directions of an edge hold the same attribute dictionary, and
    two different edges hold different ones. *)
Record graph_ok (s : St) : Prop := mk_graph_ok {
  gk_nodes : NoDup (dkeys (g_node s));
  gk_adj : NoDup (dkeys (g_adj s));
  gk_keys : forall n, n ∈ dkeys (g_adj s) <-> n ∈ dkeys (g_node s);
  gk_rows : forall u a, dget u (g_adj s) = Some a -> NoDup (dkeys a);
  gk_sym : forall u v r, adj_ref s u v = Some r -> adj_ref s v u = Some r;
  gk_loop : forall u, adj_ref s u u = None;
  gk_range : forall u v r,
    adj_ref s u v = Some r -> (r < length (edata s))%nat;
  gk_inj : forall u v u' v' r,
    adj_ref s u v = Some r -> adj_ref s u' v' = Some r ->
    (u = u' /\ v = v') \/ (u = v' /\ v = u') }.

(** Every node carries its attributes. *)
Definition attrs_ok (s : St) : Prop :=
  forall n, n ∈ dkeys (g_node s) -> exists d, dget n (g_node s) = Some (Some d).

(** [max_id] bounds the node ids, so that [next_id] is fresh. *)
Definition max_id_ok (s : St) : Prop :=
  forall n, n ∈ dkeys (g_node s) -> n <= max_id s.

(** Heap-item references stored in the edges and in the heap exist. *)
Definition items_in_range (s : St) : Prop :=
  forall r ed h,
    edata s !! r = Some ed -> ed_heap_item ed = Some h ->
    (h < length (items s))%nat.

Definition heap_in_range (s : St) : Prop :=
  forall h, h ∈ edge_heap s -> (h < length (items s))%nat.

(** A heap item still flagged valid is the heap item of the edge between
    its two regions. *)
Definition valid_items_ok (s : St) : Prop :=
  forall h it,
    items s !! h = Some it -> hi_valid it = true ->
    edge_item s (hi_n1 it) (hi_n2 it) = Some h.

(** Every edge that does not touch a region in [X] has a heap item. *)
Definition edges_queued (X : Z -> Prop) (s : St) : Prop :=
  forall u v, is_Some (adj_ref s u v) -> ~ X u -> ~ X v ->
    is_Some (edge_item s u v).

(** No heap item still flagged valid mentions a region in [A]. *)
Definition valid_avoid (A : Z -> Prop) (s : St) : Prop :=
  forall h it,
    items s !! h = Some it -> hi_valid it = true ->
    ~ A (hi_n1 it) /\ ~ A (hi_n2 it).

(** What holds of the graph and the queue in the middle of a merge: [A]
    are the regions being merged, whose heap items have been cleared, and
    [X] the region whose new edges wait to be queued. *)
Record mid_inv (A X : Z -> Prop) (s : St) : Prop := mk_mid_inv {
  mi_graph : graph_ok s;
  mi_attrs : attrs_ok s;
  mi_items : items_in_range s;
  mi_heap : heap_in_range s;
  mi_valid : valid_items_ok s;
  mi_queued : edges_queued X s;
  mi_avoid : valid_avoid A s }.

Definition nobody : Z -> Prop := fun _ => False.

(** The invariant of the [while] loop; [T] is the area of the image. *)
Record loop_inv (mmu T : Z) (s : St) : Prop := mk_loop_inv {
  li_mid : mid_inv nobody nobody s;
  li_max_id : max_id_ok s;
  li_counters : counters_ok mmu s;
  li_area : total_pixels (g_node s) = T }.

(** The measure that decreases at every turn *)
Definition measure (s : St) : nat :=
  (length (edge_heap s) + length (g_node s) * length (g_node s))%nat.

(** ** Running commands to completion *)

Lemma for_each_ok {A} (I : list A -> St -> Prop) (l : list A)
    (f : A -> Cmd unit) (s : St) :
  I [] s ->
  (forall done x rest s,
     l = done ++ x :: rest -> I done s ->
     exists s', f x s = Ok tt s' /\ I (done ++ [x]) s') ->
  exists s', for_each l f s = Ok tt s' /\ I l s'.
Proof.
  intros H0 Hstep.
  assert (forall rest done s,
    l = done ++ rest -> I done s ->
    exists s', for_each rest f s = Ok tt s' /\ I l s') as Hgen.
  { induction rest as [|x rest IH]; intros done s1 Hl Hd; simpl.
    - rewrite app_nil_r in Hl. subst. eauto.
    - destruct (Hstep done x rest s1 Hl Hd) as (s2 & Hf & Hd').
      unfold bind. rewrite Hf.
      apply (IH (done ++ [x])); [|done]. by rewrite <- app_assoc. }
  by apply (Hgen l []).
Qed.

Lemma adj_ref_Some s u v r :
  adj_ref s u v = Some r <->
  exists a, dget u (g_adj s) = Some a /\ dget v a = Some r.
Proof.
  unfold adj_ref. destruct (dget u (g_adj s)); naive_solver.
Qed.

Lemma adj_ref_row s u a v : dget u (g_adj s) = Some a -> adj_ref s u v = dget v a.
Proof. unfold adj_ref. by intros ->. Qed.

Lemma neighbors_run s n a :
  dget n (g_adj s) = Some a -> neighbors n s = Ok (dkeys a) s.
Proof. unfold neighbors. by intros ->. Qed.

Lemma edge_ref_run s u v r : adj_ref s u v = Some r -> edge_ref u v s = Ok r s.
Proof.
  unfold adj_ref, edge_ref. destruct (dget u (g_adj s)); [|done]. by intros ->.
Qed.

Lemma node_attrs_run s n d :
  dget n (g_node s) = Some (Some d) -> node_attrs n s = Ok d s.
Proof. unfold node_attrs. by intros ->. Qed.

(** The heap item with its flag cleared *)
Definition cleared (it : HeapItem) : HeapItem :=
  mkItem (hi_wt it) (hi_n1 it) (hi_n2 it) false.

Lemma invalidate_item_run s h it :
  items s !! h = Some it ->
  invalidate_item h s = Ok tt (set_items (<[h := cleared it]> (items s)) s).
Proof.
  intros H. unfold invalidate_item, bind, get_item, lift_opt. by rewrite H.
Qed.

Lemma invalidate_edge_run s u v h it :
  edge_item s u v = Some h -> items s !! h = Some it ->
  invalidate_edge u v s = Ok tt (set_items (<[h := cleared it]> (items s)) s).
Proof.
  unfold edge_item. intros He Hit.
  destruct (adj_ref s u v) as [r|] eqn:Hr; [|done].
  destruct (edata s !! r) as [ed|] eqn:Hed; [|done].
  unfold invalidate_edge.
  rewrite (bind_ok _ _ _ _ _ (edge_ref_run _ _ _ _ Hr)).
  unfold bind at 1, edge_data, lift_opt. rewrite Hed. simpl.
  unfold bind at 1. rewrite He. simpl. by apply invalidate_item_run.
Qed.

(** ** [add_edge] between two nodes of the graph *)

(** The state [add_edge u v w] leaves, [r] being the edge's attribute
    dictionary and [ed'] the edge store *)
Definition with_edge (u v : Z) (r : nat) (a_u a_v : list (Z * nat))
    (ed' : list EdgeData) (s : St) : St :=
  set_max_id (Z.max (Z.max u v) (max_id s))
    (set_adj (dset v (dset u r a_v) (dset u (dset v r a_u) (g_adj s)))
       (set_edata ed' s)).

Lemma add_edge_existing s u v w a_u a_v r ed :
  u <> v -> u ∈ dkeys (g_node s) -> v ∈ dkeys (g_node s) ->
  dget u (g_adj s) = Some a_u -> dget v (g_adj s) = Some a_v ->
  dget v a_u = Some r -> edata s !! r = Some ed ->
  add_edge u v w s
  = Ok tt (with_edge u v r a_u a_v
             (<[r := mkEdge w (ed_heap_item ed)]> (edata s)) s).
Proof.
  intros Hne Hu%dmem_true Hv%dmem_true Hau Hav Hr Hed.
  unfold add_edge, bind, add_node_silent, modify, get, adj_set, edge_data,
    lift_opt, ret, raise.
  rewrite Hu, Hv, Hau, Hr, Hed. simpl. rewrite Hau. simpl.
  rewrite dget_dset_ne by done. by rewrite Hav.
Qed.

Lemma add_edge_new s u v w a_u a_v :
  u <> v -> u ∈ dkeys (g_node s) -> v ∈ dkeys (g_node s) ->
  dget u (g_adj s) = Some a_u -> dget v (g_adj s) = Some a_v ->
  dget v a_u = None ->
  add_edge u v w s
  = Ok tt (with_edge u v (length (edata s)) a_u a_v
             (edata s ++ [mkEdge w None]) s).
Proof.
  intros Hne Hu%dmem_true Hv%dmem_true Hau Hav Hr.
  unfold add_edge, bind, add_node_silent, modify, get, adj_set, edge_data,
    lift_opt, ret, raise.
  rewrite Hu, Hv, Hau, Hr. simpl. rewrite Hau. simpl.
  rewrite dget_dset_ne by done. by rewrite Hav.
Qed.

Lemma adj_ref_with_edge s u v r a_u a_v ed' x y :
  u <> v ->
  dget u (g_adj s) = Some a_u -> dget v (g_adj s) = Some a_v ->
  adj_ref (with_edge u v r a_u a_v ed' s) x y
  = if decide ((x = u /\ y = v) \/ (x = v /\ y = u)) then Some r
    else adj_ref s x y.
Proof.
  intros Hne Hau Hav. unfold adj_ref, with_edge. simpl.
  rewrite !dget_dset.
  repeat case_decide; simplify_eq/=; rewrite ?dget_dset, ?Hau, ?Hav;
    repeat case_decide; simplify_eq/=; try done; exfalso; lia.
Qed.

Lemma graph_ok_with_edge s u v r a_u a_v ed' :
  graph_ok s ->
  u <> v ->
  dget u (g_adj s) = Some a_u -> dget v (g_adj s) = Some a_v ->
  (length (edata s) <= length ed')%nat -> (r < length ed')%nat ->
  (adj_ref s u v = Some r \/
   adj_ref s u v = None /\ r = length (edata s)) ->
  graph_ok (with_edge u v r a_u a_v ed' s).
Proof.
  intros Hg Hne Hau Hav Hlen Hr Hcase.
  assert (Hview := fun x y => adj_ref_with_edge s u v r a_u a_v ed' x y
                                Hne Hau Hav).
  assert (u ∈ dkeys (g_adj s)) as Hu by (apply dget_is_Some; eauto).
  assert (v ∈ dkeys (g_adj s)) as Hv by (apply dget_is_Some; eauto).
  assert (dkeys (dset v (dset u r a_v) (dset u (dset v r a_u) (g_adj s)))
          = dkeys (g_adj s)) as Hkeys.
  { rewrite dkeys_dset_in; [by apply dkeys_dset_in|].
    by rewrite dkeys_dset_in. }
  assert (forall x y r', adj_ref s x y = Some r' ->
            adj_ref (with_edge u v r a_u a_v ed' s) x y = Some r' \/
            ((x = u /\ y = v) \/ (x = v /\ y = u))) as Hold.
  { intros x y r' H. rewrite Hview. case_decide; auto. }
  split.
  - apply Hg.
  - simpl. rewrite Hkeys. apply Hg.
  - intros n. simpl. rewrite Hkeys. apply Hg.
  - intros x a. simpl. rewrite !dget_dset.
    repeat case_decide; intros; simplify_eq/=;
      try apply NoDup_dkeys_dset; by eapply gk_rows.
  - intros x y r'. rewrite !Hview.
    repeat case_decide; try done; try (exfalso; lia). by apply gk_sym.
  - intros x. rewrite Hview. case_decide; [lia|by apply gk_loop].
  - intros x y r'. rewrite Hview. case_decide.
    + by intros [= <-].
    + intros Hrr%(gk_range _ Hg). simpl. lia.
  - intros x y x' y' r'. rewrite !Hview.
    assert (forall a b, adj_ref s a b = Some r ->
              (a = u /\ b = v) \/ (a = v /\ b = u)) as Hr'.
    { intros a b Hab. destruct Hcase as [Huv|[_ ->]].
      - destruct (gk_inj _ Hg _ _ _ _ _ Hab Huv); lia.
      - apply (gk_range _ Hg) in Hab. lia. }
    repeat case_decide.
    + lia.
    + intros [= <-] H'. apply Hr' in H'. lia.
    + intros H' [= <-]. apply Hr' in H'. lia.
    + apply (gk_inj _ Hg).
Qed.

(** ** [remove_node] *)

Lemma ddel_notin {V} (d : list (Z * V)) k : k ∉ dkeys d -> ddel k d = d.
Proof.
  induction d as [|[k0 v0] d IH]; simpl; [done|].
  unfold dkeys in *. simpl. rewrite not_elem_of_cons. intros [Hne Hnin].
  destruct (Z.eqb_spec k k0); [done|]. by rewrite IH.
Qed.

Lemma adj_del_run s u v a :
  dget u (g_adj s) = Some a -> v ∈ dkeys a ->
  adj_del u v s = Ok tt (set_adj (dset u (ddel v a) (g_adj s)) s).
Proof.
  intros Ha Hv%dmem_true. unfold adj_del. by rewrite Ha, Hv.
Qed.

(** The adjacency once node [n] and its edges are gone *)
Definition adj_without (n : Z) (A A' : list (Z * list (Z * nat))) : Prop :=
  NoDup (dkeys A') /\
  (forall x, x ∈ dkeys A' <-> x <> n /\ x ∈ dkeys A) /\
  (forall x, dget x A'
             = if decide (x = n) then None else ddel n <$> dget x A).

Lemma remove_node_run s n :
  graph_ok s -> n ∈ dkeys (g_node s) ->
  exists A',
    remove_node n s = Ok tt (set_adj A' (set_node (ddel n (g_node s)) s)) /\
    adj_without n (g_adj s) A'.
Proof.
  intros Hg Hn.
  assert (n ∈ dkeys (g_adj s)) as Hn' by by apply Hg.
  apply dget_is_Some in Hn' as [a Ha].
  unfold remove_node, bind at 1, get. rewrite Ha.
  apply dmem_true in Hn as Hmem. rewrite Hmem.
  unfold bind at 1, modify at 1.
  set (s1 := set_node (ddel n (g_node s)) s).
  pose (I := fun (done : list Z) (s' : St) =>
    exists A, s' = set_adj A s1 /\ dkeys A = dkeys (g_adj s) /\
      forall x, dget x A = if decide (x ∈ done)
                           then ddel n <$> dget x (g_adj s)
                           else dget x (g_adj s)).
  destruct (for_each_ok I (dkeys a) (fun u => adj_del u n) s1)
    as (s2 & Hrun & A & -> & Hkeys & HA).
  { exists (g_adj s). split; [done|]. split; [done|].
    intros x. case_decide as H; [by apply elem_of_nil in H|done]. }
  { intros done x rest s' Hl (A & -> & Hkeys & HA).
    assert (NoDup (dkeys a)) as Hnd by by eapply gk_rows.
    rewrite Hl in Hnd. apply NoDup_app in Hnd as (_ & Hnd & _).
    assert (x ∉ done) as Hx.
    { intros Hin. apply (Hnd x Hin). left. }
    assert (x ∈ dkeys a) as Hxa.
    { rewrite Hl. apply elem_of_app. right. left. }
    apply dget_is_Some in Hxa as [r Hr].
    assert (adj_ref s n x = Some r) as Hnx.
    { apply adj_ref_Some. eauto. }
    apply (gk_sym _ Hg) in Hnx. apply adj_ref_Some in Hnx as (ax & Hax & Hrx).
    assert (dget x A = Some ax) as HxA.
    { rewrite HA. by case_decide. }
    eexists. split.
    { apply (adj_del_run (set_adj A s1) x n ax); [done|].
      apply dget_is_Some. eauto. }
    eexists. split; [done|]. split.
    { rewrite dkeys_dset_in; [done|]. apply dget_is_Some. eauto. }
    intros y. rewrite dget_dset, HA.
    destruct (decide (x = y)) as [<-|Hxy].
    { rewrite decide_True by (apply elem_of_app; right; left).
      by rewrite Hax. }
    destruct (decide (y ∈ done)) as [Hy|Hy].
    - by rewrite decide_True by (apply elem_of_app; by left).
    - rewrite decide_False; [done|].
      by intros [?|?%list_elem_of_singleton]%elem_of_app. }
  unfold bind. rewrite Hrun. unfold modify. simpl.
  exists (ddel n A). split; [done|].
  assert (NoDup (dkeys A)) as HndA by (rewrite Hkeys; apply Hg).
  split; [by apply NoDup_dkeys_ddel|]. split.
  { intros x. rewrite elem_of_dkeys_ddel by done. by rewrite Hkeys. }
  intros x. rewrite dget_ddel by done.
  case_decide as Hxn; [subst; by rewrite decide_True|].
  rewrite decide_False by done. rewrite HA. case_decide as Hx; [done|].
  destruct (dget x (g_adj s)) as [ax|] eqn:Hax; [|done]. simpl.
  rewrite ddel_notin; [done|]. intros Hin. apply Hx.
  apply dget_is_Some in Hin as [r Hr].
  assert (adj_ref s x n = Some r) as Hxn' by (apply adj_ref_Some; eauto).
  apply (gk_sym _ Hg) in Hxn'. apply adj_ref_Some in Hxn' as (a' & Ha' & Hr').
  assert (a' = a) as -> by congruence.
  apply dget_is_Some. eauto.
Qed.

Lemma adj_ref_without s n A' x y :
  graph_ok s -> adj_without n (g_adj s) A' ->
  adj_ref (set_adj A' (set_node (ddel n (g_node s)) s)) x y
  = if decide (x = n \/ y = n) then None else adj_ref s x y.
Proof.
  intros Hg (_ & _ & HA). unfold adj_ref. simpl. rewrite HA.
  case_decide as Hx; [subst; by rewrite decide_True by auto|].
  destruct (dget x (g_adj s)) as [a|] eqn:Ha; simpl;
    [|by case_decide].
  rewrite dget_ddel by by eapply gk_rows.
  repeat case_decide; try done; exfalso; lia.
Qed.

Lemma graph_ok_without s n A' :
  graph_ok s -> adj_without n (g_adj s) A' ->
  graph_ok (set_adj A' (set_node (ddel n (g_node s)) s)).
Proof.
  intros Hg HA.
  assert (Hview := fun x y => adj_ref_without s n A' x y Hg HA).
  destruct HA as (Hnd & Hkeys & HA).
  split; simpl.
  - apply NoDup_dkeys_ddel, Hg.
  - done.
  - intros x. rewrite Hkeys, elem_of_dkeys_ddel by apply Hg.
    by rewrite (gk_keys _ Hg).
  - intros x a. rewrite HA. case_decide; [done|].
    destruct (dget x (g_adj s)) as [ax|] eqn:Hax; [|done]. simpl.
    intros [= <-]. apply NoDup_dkeys_ddel. by eapply gk_rows.
  - intros x y r. rewrite !Hview.
    repeat case_decide; try done; try (exfalso; lia). apply (gk_sym _ Hg).
  - intros x. rewrite Hview. case_decide; [done|apply (gk_loop _ Hg)].
  - intros x y r. rewrite Hview. case_decide; [done|apply (gk_range _ Hg)].
  - intros x y x' y' r. rewrite !Hview.
    repeat case_decide; try done. apply (gk_inj _ Hg).
Qed.

(** ** The graph as the queue sees it *)

Lemma adj_ref_ext s s' u v : g_adj s' = g_adj s -> adj_ref s' u v = adj_ref s u v.
Proof. unfold adj_ref. by intros ->. Qed.

Lemma edge_item_ext s s' u v :
  g_adj s' = g_adj s -> edata s' = edata s ->
  edge_item s' u v = edge_item s u v.
Proof. unfold edge_item, adj_ref. by intros -> ->. Qed.

Lemma graph_ok_ext s s' :
  dkeys (g_node s') = dkeys (g_node s) -> g_adj s' = g_adj s ->
  length (edata s') = length (edata s) ->
  graph_ok s -> graph_ok s'.
Proof.
  intros Hn Ha He Hg.
  assert (forall u v, adj_ref s' u v = adj_ref s u v) as Hr
    by (intros; by apply adj_ref_ext).
  split; rewrite ?Hn, ?Ha; try apply Hg.
  - intros u v r. rewrite !Hr. apply Hg.
  - intros u. rewrite Hr. apply Hg.
  - intros u v r. rewrite Hr, He. apply Hg.
  - intros u v u' v' r. rewrite !Hr. apply Hg.
Qed.

Lemma adj_ref_sym s u v : graph_ok s -> adj_ref s u v = adj_ref s v u.
Proof.
  intros Hg.
  destruct (adj_ref s u v) as [r|] eqn:Huv.
  - symmetry. by apply (gk_sym _ Hg).
  - destruct (adj_ref s v u) as [r|] eqn:Hvu; [|done].
    apply (gk_sym _ Hg) in Hvu. congruence.
Qed.

Lemma edge_item_sym s u v : graph_ok s -> edge_item s u v = edge_item s v u.
Proof. intros Hg. unfold edge_item. by rewrite (adj_ref_sym s u v). Qed.

Lemma edge_item_adj s u v h :
  edge_item s u v = Some h -> is_Some (adj_ref s u v).
Proof. unfold edge_item. destruct (adj_ref s u v); [eauto|done]. Qed.

Lemma adj_ref_nodes s u v :
  graph_ok s -> is_Some (adj_ref s u v) ->
  u ∈ dkeys (g_node s) /\ v ∈ dkeys (g_node s) /\ u <> v.
Proof.
  intros Hg [r Hr].
  assert (forall x y r, adj_ref s x y = Some r -> x ∈ dkeys (g_node s)) as Hk.
  { intros x y r' (a & Ha & _)%adj_ref_Some.
    apply (gk_keys _ Hg), dget_is_Some. eauto. }
  split; [by eapply Hk|]. split; [eapply Hk; by apply (gk_sym _ Hg)|].
  intros ->. by rewrite (gk_loop _ Hg) in Hr.
Qed.

Lemma node_row s n :
  graph_ok s -> n ∈ dkeys (g_node s) -> exists a, dget n (g_adj s) = Some a.
Proof. intros Hg Hn. by apply (gk_keys _ Hg), dget_is_Some in Hn. Qed.

(** ** Clearing the heap items of the edges of a node *)

(** [it'] is [it], possibly with its flag cleared *)
Definition dims (it it' : HeapItem) : Prop := it' = it \/ it' = cleared it.

Lemma dims_refl its : Forall2 dims its its.
Proof. apply Forall2_same_length_lookup. split; [done|]. intros. left. congruence. Qed.

Lemma dims_insert its h it :
  its !! h = Some it -> Forall2 dims its (<[h := cleared it]> its).
Proof.
  intros H. rewrite <- (list_insert_id its h it) at 1 by done.
  apply Forall2_insert; [apply dims_refl|by right].
Qed.

Lemma dims_trans a b c :
  Forall2 dims a b -> Forall2 dims b c -> Forall2 dims a c.
Proof.
  intros H. revert c.
  induction H as [|x y a b Hxy _ IH]; intros c Hc; inversion Hc; subst;
    constructor; [|by apply IH].
  destruct Hxy as [->| ->]; [done|].
  match goal with H : dims _ _ |- _ => destruct H as [->| ->] end;
    by right.
Qed.

Lemma dims_valid its its' h it' :
  Forall2 dims its its' -> its' !! h = Some it' -> hi_valid it' = true ->
  its !! h = Some it'.
Proof.
  intros H Hh Hv. destruct (Forall2_lookup_r _ _ _ _ _ H Hh) as (it & Hit & [->| ->]);
    [done|]. done.
Qed.

Lemma dims_invalid its its' h it :
  Forall2 dims its its' -> its !! h = Some it -> hi_valid it = false ->
  exists it', its' !! h = Some it' /\ hi_valid it' = false.
Proof.
  intros H Hh Hv. destruct (Forall2_lookup_l _ _ _ _ _ H Hh) as (it' & Hit & [->| ->]);
    eauto.
Qed.

Lemma invalidate_node_edges s n a A :
  mid_inv A nobody s -> dget n (g_adj s) = Some a ->
  exists its,
    for_each (dkeys a) (fun nbr => invalidate_edge n nbr) s
    = Ok tt (set_items its s) /\
    Forall2 dims (items s) its /\
    (forall v h, v ∈ dkeys a -> edge_item s n v = Some h ->
       exists it, its !! h = Some it /\ hi_valid it = false).
Proof.
  intros Hm Ha.
  pose (I := fun (done : list Z) (s' : St) =>
    exists its, s' = set_items its s /\ Forall2 dims (items s) its /\
      forall v h, v ∈ done -> edge_item s n v = Some h ->
        exists it, its !! h = Some it /\ hi_valid it = false).
  destruct (for_each_ok I (dkeys a) (fun nbr => invalidate_edge n nbr) s)
    as (s' & Hrun & its & -> & Hd & Hc).
  { exists (items s). split; [by destruct s|]. split; [apply dims_refl|].
    intros v h Hv. by apply elem_of_nil in Hv. }
  { intros done x rest s' Hl (its & -> & Hd & Hc).
    assert (x ∈ dkeys a) as Hx.
    { rewrite Hl. apply elem_of_app. right. left. }
    apply dget_is_Some in Hx as [r Hr].
    assert (adj_ref s n x = Some r) as Hnx by (apply adj_ref_Some; eauto).
    destruct (mi_queued _ _ _ Hm n x) as [h Hh]; [eauto|by intros []..|].
    assert (h < length its)%nat as Hlt.
    { rewrite <- (Forall2_length _ _ _ Hd).
      unfold edge_item in Hh. rewrite Hnx in Hh.
      destruct (edata s !! r) as [ed|] eqn:Hed; [|done].
      by eapply (mi_items _ _ _ Hm). }
    apply lookup_lt_is_Some in Hlt as [it Hit].
    exists (set_items (<[h := cleared it]> its) s). split.
    { by apply (invalidate_edge_run (set_items its s) n x h it). }
    eexists. split; [done|]. split.
    { eapply dims_trans; [done|]. by apply dims_insert. }
    intros v h' [Hv| ->%list_elem_of_singleton]%elem_of_app He'.
    - destruct (Hc v h' Hv He') as (it' & Hit' & Hv').
      eapply dims_invalid; [|done..]. by apply dims_insert.
    - assert (h' = h) as -> by congruence.
      exists (cleared it). split; [|done].
      rewrite list_lookup_insert_eq; [done|]. by eapply lookup_lt_Some. }
  eauto.
Qed.

Lemma mid_inv_cleared s n its A :
  mid_inv A nobody s -> Forall2 dims (items s) its ->
  (forall v h, edge_item s n v = Some h ->
     exists it, its !! h = Some it /\ hi_valid it = false) ->
  mid_inv (fun x => A x \/ x = n) nobody (set_items its s).
Proof.
  intros Hm Hd Hc. destruct Hm as [Hg Hat Hit Hhp Hv Hq Hav].
  pose proof (Forall2_length _ _ _ Hd) as Hlen.
  split.
  - by apply (graph_ok_ext s).
  - done.
  - intros r ed h. simpl. rewrite <- Hlen. apply Hit.
  - intros h. simpl. rewrite <- Hlen. apply Hhp.
  - intros h it Hh Hval. simpl in Hh.
    apply (Hv h it); [|done]. by eapply dims_valid.
  - done.
  - intros h it Hh Hval. simpl in Hh.
    pose proof (dims_valid _ _ _ _ Hd Hh Hval) as Hh0.
    destruct (Hav h it Hh0 Hval) as [H1 H2].
    pose proof (Hv h it Hh0 Hval) as He.
    assert (forall v, edge_item s n v = Some h -> False) as Hno.
    { intros v Hv'. destruct (Hc v h Hv') as (it' & Hit' & Hv'').
      congruence. }
    split; intros [?|Heq]; try done.
    + rewrite Heq in He. by eapply Hno.
    + rewrite Heq, edge_item_sym in He by done. by eapply Hno.
Qed.

(** ** Steps that keep the invariant of a merge *)

Lemma mid_inv_ext s s' A X :
  mid_inv A X s ->
  dkeys (g_node s') = dkeys (g_node s) -> attrs_ok s' ->
  g_adj s' = g_adj s -> edata s' = edata s -> items s' = items s ->
  (forall h, h ∈ edge_heap s' -> h ∈ edge_heap s) ->
  mid_inv A X s'.
Proof.
  intros [Hg Hat Hit Hhp Hv Hq Hav] Hn Hat' Ha He Hi Hh.
  assert (forall u v, adj_ref s' u v = adj_ref s u v) as Hr
    by (intros; by apply adj_ref_ext).
  assert (forall u v, edge_item s' u v = edge_item s u v) as Hei
    by (intros; by apply edge_item_ext).
  split.
  - apply (graph_ok_ext s); try done. by rewrite He.
  - done.
  - intros r ed h. rewrite He, Hi. apply Hit.
  - intros h H%Hh. rewrite Hi. by apply Hhp.
  - intros h it. rewrite Hi, Hei. apply Hv.
  - intros u v. rewrite Hr, Hei. apply Hq.
  - intros h it. rewrite Hi. apply Hav.
Qed.

(** The edge store [E'] has kept the heap items of [E] and added none. *)
Definition keeps_items (E E' : list EdgeData) : Prop :=
  (length E <= length E')%nat /\
  (forall r ed, E !! r = Some ed ->
     exists ed', E' !! r = Some ed' /\ ed_heap_item ed' = ed_heap_item ed) /\
  (forall r ed' h, E' !! r = Some ed' -> ed_heap_item ed' = Some h ->
     exists ed, E !! r = Some ed /\ ed_heap_item ed = Some h).

Lemma keeps_items_insert E r ed w :
  E !! r = Some ed -> keeps_items E (<[r := mkEdge w (ed_heap_item ed)]> E).
Proof.
  intros Hr. split; [by rewrite length_insert|].
  pose proof (lookup_lt_Some _ _ _ Hr) as Hlt.
  split.
  - intros r' ed' H'. destruct (decide (r' = r)) as [->|Hne].
    + rewrite list_lookup_insert_eq by done.
      eexists. split; [done|]. simpl. congruence.
    + rewrite list_lookup_insert_ne by done. eauto.
  - intros r' ed' h. destruct (decide (r' = r)) as [->|Hne].
    + rewrite list_lookup_insert_eq by done. intros [= <-]. simpl. eauto.
    + rewrite list_lookup_insert_ne by done. eauto.
Qed.

Lemma keeps_items_app E w : keeps_items E (E ++ [mkEdge w None]).
Proof.
  split; [rewrite length_app; lia|]. split.
  - intros r ed Hr. exists ed. split; [|done].
    by apply lookup_app_l_Some.
  - intros r ed' h Hr Hh. apply lookup_app_Some in Hr as [Hr|[_ Hr]]; [eauto|].
    apply list_lookup_singleton_Some in Hr as [_ <-]. done.
Qed.

Lemma mid_inv_with_edge s u v r a_u a_v E' A X :
  mid_inv A X s ->
  u <> v ->
  dget u (g_adj s) = Some a_u -> dget v (g_adj s) = Some a_v ->
  keeps_items (edata s) E' -> (r < length E')%nat ->
  (adj_ref s u v = Some r \/
   adj_ref s u v = None /\ r = length (edata s)) ->
  X u \/ X v ->
  mid_inv A X (with_edge u v r a_u a_v E' s).
Proof.
  intros [Hg Hat Hit Hhp Hv Hq Hav] Hne Hau Hav' (Hlen & Hk1 & Hk2) Hr
    Hcase HX.
  assert (Hview := fun x y => adj_ref_with_edge s u v r a_u a_v E' x y
                                Hne Hau Hav').
  assert (forall x y h, edge_item s x y = Some h ->
            edge_item (with_edge u v r a_u a_v E' s) x y = Some h) as Hmono.
  { intros x y h. unfold edge_item at 2. rewrite Hview. unfold edge_item.
    destruct (adj_ref s x y) as [r0|] eqn:Hr0; [|done].
    destruct (edata s !! r0) as [ed0|] eqn:Hed0; [|done].
    intros Hh. destruct (Hk1 r0 ed0 Hed0) as (ed' & Hed' & Heq).
    assert (edata (with_edge u v r a_u a_v E' s) !! r0 = Some ed') as Hed''
      by done.
    case_decide as Hc.
    - assert (adj_ref s u v = Some r0) as Huv.
      { destruct Hc as [[-> ->]|[-> ->]]; [done|]. by apply (gk_sym _ Hg). }
      destruct Hcase as [Hc'|[Hc' _]]; [|congruence].
      assert (r = r0) as -> by congruence.
      rewrite Hed''. congruence.
    - rewrite Hed''. congruence. }
  split.
  - by apply graph_ok_with_edge.
  - done.
  - intros r' ed' h Hr' Hh. simpl in *.
    destruct (Hk2 r' ed' h Hr' Hh) as (ed & Hed & Hh'). by eapply Hit.
  - done.
  - intros h it Hh Hval. apply Hmono. by apply Hv.
  - intros x y Hxy Hx Hy. rewrite Hview in Hxy. case_decide as Hc.
    + exfalso. destruct HX, Hc as [[-> ->]|[-> ->]]; done.
    + destruct (Hq x y Hxy Hx Hy) as [h Hh]. exists h. by apply Hmono.
  - done.
Qed.

Lemma add_edge_mid s u v w A X :
  mid_inv A X s ->
  u <> v -> u ∈ dkeys (g_node s) -> v ∈ dkeys (g_node s) -> X u \/ X v ->
  exists s',
    add_edge u v w s = Ok tt s' /\ mid_inv A X s' /\ g_node s' = g_node s /\
    max_id s' = Z.max (Z.max u v) (max_id s) /\
    (forall x y, x <> v -> y <> v -> adj_ref s' x y = adj_ref s x y).
Proof.
  intros Hm Hne Hu Hv HX.
  pose proof (mi_graph _ _ _ Hm) as Hg.
  destruct (node_row s u Hg Hu) as [a_u Hau].
  destruct (node_row s v Hg Hv) as [a_v Hav].
  assert (forall r E' x y, x <> v -> y <> v ->
    adj_ref (with_edge u v r a_u a_v E' s) x y = adj_ref s x y) as Hview.
  { intros r E' x y Hx Hy. rewrite adj_ref_with_edge by done.
    by rewrite decide_False by lia. }
  destruct (dget v a_u) as [r|] eqn:Hr.
  - assert (adj_ref s u v = Some r) as Huv by (apply adj_ref_Some; eauto).
    pose proof (gk_range _ Hg _ _ _ Huv) as Hlt.
    apply lookup_lt_is_Some in Hlt as Hed. destruct Hed as [ed Hed].
    eexists. split; [by eapply add_edge_existing|].
    split; [|split; [done|split; [done|apply Hview]]].
    apply mid_inv_with_edge; try done.
    + by apply keeps_items_insert.
    + by rewrite length_insert.
    + by left.
  - assert (adj_ref s u v = None) as Huv.
    { unfold adj_ref. by rewrite Hau. }
    eexists. split; [by eapply add_edge_new|].
    split; [|split; [done|split; [done|apply Hview]]].
    apply mid_inv_with_edge; try done.
    + apply keeps_items_app.
    + rewrite length_app. simpl. lia.
    + by right.
Qed.

Lemma mid_inv_without s n A' A X :
  mid_inv A X s -> A n -> adj_without n (g_adj s) A' ->
  mid_inv A X (set_adj A' (set_node (ddel n (g_node s)) s)).
Proof.
  intros [Hg Hat Hit Hhp Hv Hq Hav] HA Hw.
  assert (Hview := fun x y => adj_ref_without s n A' x y Hg Hw).
  assert (forall x y, x <> n -> y <> n ->
    edge_item (set_adj A' (set_node (ddel n (g_node s)) s)) x y
    = edge_item s x y) as Hei.
  { intros x y Hx Hy. unfold edge_item. rewrite Hview.
    by rewrite decide_False by lia. }
  split.
  - by apply graph_ok_without.
  - intros k. simpl. rewrite elem_of_dkeys_ddel by apply Hg.
    intros [Hne Hk]. rewrite dget_ddel_ne by done. by apply Hat.
  - done.
  - done.
  - intros h it Hh Hval. destruct (Hav h it Hh Hval) as [H1 H2].
    rewrite Hei; [by apply Hv|by intros Heq; rewrite Heq in *..].
  - intros x y Hxy Hx Hy. rewrite Hview in Hxy.
    case_decide as Hc; [by destruct Hxy|].
    rewrite Hei by lia. by apply Hq.
  - done.
Qed.

Lemma weight_scrm_run s src dst n dd nd :
  dget dst (g_node s) = Some (Some dd) ->
  dget n (g_node s) = Some (Some nd) ->
  weight_scrm src dst n s
  = Ok (norm (csub (mean_color dd) (mean_color nd))) s.
Proof.
  intros Hd Hn. unfold weight_scrm, bind, node_attrs. by rewrite Hd, Hn.
Qed.

Lemma merged_neighbors_spec src dst l1 l2 x :
  x ∈ merged_neighbors src dst l1 l2
  <-> (x ∈ l1 \/ x ∈ l2) /\ x <> src /\ x <> dst.
Proof.
  unfold merged_neighbors.
  rewrite list_elem_of_filter, elem_of_remove_dups, elem_of_app. tauto.
Qed.

(** The attributes [merge_nodes] leaves at the merged node *)
Definition relabelled (sd dd : NodeData) : NodeData :=
  mkNode (labels sd ++ labels dd) (pixel_count dd) (total_color dd)
         (mean_color dd).

Lemma merge_nodes_mid s src dst A X :
  mid_inv A X s ->
  src <> dst -> src ∈ dkeys (g_node s) -> dst ∈ dkeys (g_node s) ->
  A src -> X dst ->
  exists s' sd dd,
    merge_nodes src dst weight_scrm s = Ok dst s' /\
    dget src (g_node s) = Some (Some sd) /\
    dget dst (g_node s) = Some (Some dd) /\
    g_node s' = ddel src (dset dst (Some (relabelled sd dd)) (g_node s)) /\
    mid_inv A X s' /\ max_id s <= max_id s'.
Proof.
  intros Hm Hne Hsrc Hdst HA HX.
  pose proof (mi_graph _ _ _ Hm) as Hg.
  destruct (node_row s src Hg Hsrc) as [a_s Has].
  destruct (node_row s dst Hg Hdst) as [a_d Had].
  destruct (mi_attrs _ _ _ Hm src Hsrc) as [sd Hsd].
  destruct (mi_attrs _ _ _ Hm dst Hdst) as [dd Hdd].
  unfold merge_nodes.
  rewrite (bind_ok _ _ _ _ _ (neighbors_run _ _ _ Has)).
  rewrite (bind_ok _ _ _ _ _ (neighbors_run _ _ _ Had)).
  set (N := merged_neighbors src dst (dkeys a_s) (dkeys a_d)).
  assert (forall x, x ∈ N -> x ∈ dkeys (g_node s) /\ x <> src /\ x <> dst)
    as HN.
  { intros x [Hx Hxne]%merged_neighbors_spec. split; [|done].
    destruct Hx as [Hx|Hx]; apply dget_is_Some in Hx as [r Hr].
    - apply (adj_ref_nodes s src x Hg). exists r. apply adj_ref_Some. eauto.
    - apply (adj_ref_nodes s dst x Hg). exists r. apply adj_ref_Some. eauto. }
  pose (I := fun (_ : list Z) (s' : St) =>
    mid_inv A X s' /\ g_node s' = g_node s /\ max_id s <= max_id s').
  destruct (for_each_ok I N
              (fun neighbor => w <~ weight_scrm src dst neighbor ;;
                               add_edge neighbor dst w) s)
    as (s1 & Hrun & Hm1 & Hn1 & Hmx1); [by split; [|split; [|lia]]| |].
  { intros done x rest s' Hl (Hm' & Hn' & Hmx').
    assert (x ∈ N) as Hx by (rewrite Hl; apply elem_of_app; right; left).
    destruct (HN x Hx) as (Hxn & Hxs & Hxd).
    destruct (mi_attrs _ _ _ Hm x Hxn) as [xd Hxd'].
    rewrite <- Hn' in Hxd', Hdd, Hxn, Hdst.
    rewrite (bind_ok _ _ _ _ _ (weight_scrm_run _ src dst x _ _ Hdd Hxd')).
    destruct (add_edge_mid s' x dst
                (norm (csub (mean_color dd) (mean_color xd))) A X)
      as (s'' & Hrun & Hm'' & Hn'' & Hmx'' & _); auto.
    exists s''. split; [done|]. split; [done|]. split; [congruence|lia]. }
  rewrite (bind_ok _ _ _ _ _ Hrun).
  rewrite <- Hn1 in Hsd, Hdd.
  rewrite (bind_ok _ _ _ _ _ (node_attrs_run _ _ _ Hsd)).
  rewrite (bind_ok _ _ _ _ _ (node_attrs_run _ _ _ Hdd)).
  unfold bind at 1, set_node_attrs, modify.
  set (s2 := set_node (dset dst (Some (relabelled sd dd)) (g_node s1)) s1).
  assert (dkeys (g_node s2) = dkeys (g_node s1)) as Hk2.
  { apply dkeys_dset_in. by rewrite Hn1. }
  assert (mid_inv A X s2) as Hm2.
  { assert (attrs_ok s2) as Hat2.
    { intros k Hk. rewrite Hk2 in Hk. simpl. rewrite dget_dset.
      case_decide; [eauto|]. by apply (mi_attrs _ _ _ Hm1). }
    apply (mid_inv_ext s1 s2 A X Hm1 Hk2 Hat2); auto. }
  destruct (remove_node_run s2 src) as (A' & Hrm & Hw).
  { apply Hm2. }
  { rewrite Hk2, Hn1. done. }
  rewrite (bind_ok _ _ _ _ _ Hrm). unfold ret.
  eexists _, sd, dd. split; [done|].
  rewrite Hn1 in Hsd, Hdd. do 2 (split; [done|]).
  split; [simpl; by rewrite Hn1|].
  split; [by apply mid_inv_without|done].
Qed.

(** ** [_revalidate_node_edges] *)

(** One turn of the loop of [_revalidate_node_edges] *)
Definition revalidate_edge (node nbr : Z) : Cmd unit :=
  r <~ edge_ref node nbr ;;
  data <~ edge_data r ;;
  match ed_heap_item data with
  | Some h => invalidate_item h ;;; invalidate_edge node nbr
  | None => ret tt
  end ;;;
  data <~ edge_data r ;;
  h <~ new_item (ed_weight data) node nbr ;;
  set_heap_item r h ;;;
  push_item h.

Lemma revalidate_node_edges_unfold node s a :
  dget node (g_adj s) = Some a ->
  revalidate_node_edges node s = for_each (dkeys a) (revalidate_edge node) s.
Proof.
  intros Ha. unfold revalidate_node_edges.
  by rewrite (bind_ok _ _ _ _ _ (neighbors_run _ _ _ Ha)).
Qed.

Lemma cleared_cleared it : cleared (cleared it) = cleared it.
Proof. done. Qed.

Lemma revalidate_edge_run s node nbr r data :
  adj_ref s node nbr = Some r -> edata s !! r = Some data ->
  (forall h, ed_heap_item data = Some h -> (h < length (items s))%nat) ->
  exists I2,
    Forall2 dims (items s) I2 /\
    revalidate_edge node nbr s
    = Ok tt (set_edge_heap
               (heappush
                  (ref_lt (I2 ++ [mkItem (ed_weight data) node nbr true]))
                  (edge_heap s) (length I2))
               (set_edata
                  (<[r := mkEdge (ed_weight data) (Some (length I2))]>
                     (edata s))
                  (set_items (I2 ++ [mkItem (ed_weight data) node nbr true])
                     s))).
Proof.
  intros Hr Hed Hrange. unfold revalidate_edge.
  rewrite (bind_ok _ _ _ _ _ (edge_ref_run _ _ _ _ Hr)).
  unfold bind at 1, edge_data at 1, lift_opt. rewrite Hed. simpl.
  assert (forall I2 (s2 : St),
    s2 = set_items I2 s ->
    (data0 <~ edge_data r ;;
     h <~ new_item (ed_weight data0) node nbr ;;
     set_heap_item r h ;;; push_item h) s2
    = Ok tt (set_edge_heap
               (heappush
                  (ref_lt (I2 ++ [mkItem (ed_weight data) node nbr true]))
                  (edge_heap s) (length I2))
               (set_edata
                  (<[r := mkEdge (ed_weight data) (Some (length I2))]>
                     (edata s))
                  (set_items (I2 ++ [mkItem (ed_weight data) node nbr true])
                     s)))) as Htail.
  { intros I2 s2 ->.
    unfold set_heap_item, push_item, new_item, edge_data, lift_opt, modify,
      bind. simpl. rewrite Hed. simpl. by rewrite Hed. }
  destruct (ed_heap_item data) as [h|] eqn:Hh.
  - destruct (lookup_lt_is_Some_2 (items s) h (Hrange h eq_refl)) as [it Hit].
    unfold bind at 1. unfold bind at 1.
    rewrite (invalidate_item_run _ _ _ Hit).
    rewrite (invalidate_edge_run _ node nbr h (cleared it)).
    + eexists. split; [|by apply Htail].
      eapply dims_trans; [by apply dims_insert|].
      apply dims_insert. simpl.
      apply list_lookup_insert_eq. by eapply lookup_lt_Some.
    + unfold edge_item. simpl.
      replace (adj_ref (set_items (<[h:=cleared it]> (items s)) s) node nbr)
        with (adj_ref s node nbr) by done.
      by rewrite Hr, Hed.
    + simpl. apply list_lookup_insert_eq. by eapply lookup_lt_Some.
  - unfold bind at 1, ret. exists (items s). split; [apply dims_refl|].
    apply Htail. by destruct s.
Qed.

(** What holds after the edges from [dst] to the neighbours in [done] have
    been queued again, [s] being the state before the first *)
Definition reval_inv (s : St) (dst : Z) (done : list Z) (s' : St) : Prop :=
  g_node s' = g_node s /\ g_adj s' = g_adj s /\ max_id s' = max_id s /\
  length (edata s') = length (edata s) /\
  items_in_range s' /\ heap_in_range s' /\ valid_items_ok s' /\
  (forall u v, is_Some (adj_ref s u v) -> u <> dst -> v <> dst ->
     is_Some (edge_item s' u v)) /\
  (forall v, v ∈ done -> is_Some (edge_item s' dst v)) /\
  (forall h it, items s' !! h = Some it -> hi_valid it = true ->
     (hi_n1 it <> dst /\ hi_n2 it <> dst) \/
     (hi_n1 it = dst /\ hi_n2 it ∈ done)) /\
  length (edge_heap s') = (length (edge_heap s) + length done)%nat.

Lemma reval_inv_step s dst done x s' :
  graph_ok s -> is_Some (adj_ref s dst x) -> x ∉ done ->
  reval_inv s dst done s' ->
  exists s'', revalidate_edge dst x s' = Ok tt s'' /\
              reval_inv s dst (done ++ [x]) s''.
Proof.
  intros Hg [r Hr] Hx (Hn & Ha & Hmx & Hlen & Hit & Hhp & Hv & Hq & Hd & Hav & Hl).
  assert (forall u v, adj_ref s' u v = adj_ref s u v) as Hrf
    by (intros; by apply adj_ref_ext).
  pose proof (gk_range _ Hg _ _ _ Hr) as Hlt. rewrite <- Hlen in Hlt.
  apply lookup_lt_is_Some in Hlt as [data Hdata].
  destruct (revalidate_edge_run s' dst x r data) as (I2 & Hdim & Hrun).
  { by rewrite Hrf. }
  { done. }
  { intros h Hh. by eapply Hit. }
  pose proof (Forall2_length _ _ _ Hdim) as HlenI.
  eexists. split; [exact Hrun|].
  set (new := mkItem (ed_weight data) dst x true) in *.
  set (s'' := set_edge_heap _ _).
  assert (x <> dst) as Hxd.
  { intros ->. by rewrite (gk_loop _ Hg) in Hr. }
  assert (forall u v r0, adj_ref s u v = Some r0 -> r0 <> r ->
            edge_item s'' u v = edge_item s' u v) as Hsame.
  { intros u v r0 Huv Hne. unfold edge_item.
    replace (adj_ref s'' u v) with (adj_ref s' u v) by done.
    rewrite Hrf, Huv. subst s''. simpl.
    by rewrite list_lookup_insert_ne. }
  assert (edge_item s'' dst x = Some (length I2)) as Hnew.
  { unfold edge_item.
    replace (adj_ref s'' dst x) with (adj_ref s' dst x) by done.
    rewrite Hrf, Hr. subst s''. simpl.
    rewrite list_lookup_insert_eq; [done|]. by eapply lookup_lt_Some. }
  assert (forall h it, items s'' !! h = Some it -> hi_valid it = true ->
            (h = length I2 /\ it = new) \/
            (items s' !! h = Some it)) as Hitems.
  { intros h it Hh Hval. subst s''. simpl in Hh.
    apply lookup_app_Some in Hh as [Hh|[Hge Hh]].
    - right. by eapply dims_valid.
    - left. apply list_lookup_singleton_Some in Hh as [Hz <-].
      split; [lia|done]. }
  repeat split; try done.
  - subst s''. simpl. by rewrite length_insert.
  - intros r' ed' h. subst s''. simpl. rewrite length_app. simpl.
    destruct (decide (r' = r)) as [->|Hne].
    + rewrite list_lookup_insert_eq by by eapply lookup_lt_Some.
      intros [= <-]. simpl. intros [= <-]. lia.
    + rewrite list_lookup_insert_ne by done. intros H1 H2.
      pose proof (Hit _ _ _ H1 H2). lia.
  - intros h. subst s''. simpl. rewrite heappush_perm, length_app. simpl.
    intros [->|Hh]%elem_of_cons; [lia|].
    apply Hhp in Hh. lia.
  - intros h it Hh Hval.
    destruct (Hitems h it Hh Hval) as [[-> ->]|Hold]; [done|].
    pose proof (Hv h it Hold Hval) as He.
    destruct (edge_item_adj _ _ _ _ He) as [r0 Hr0]. rewrite Hrf in Hr0.
    rewrite (Hsame _ _ r0); [done|done|].
    intros ->.
    destruct (gk_inj _ Hg _ _ _ _ _ Hr0 Hr) as [[H1 H2]|[H1 H2]],
      (Hav h it Hold Hval) as [[H3 H4]|[H3 H4]]; try congruence.
  - intros u v [r0 Hr0] Hu Hv'.
    rewrite (Hsame u v r0); [eauto|done|].
    intros ->. destruct (gk_inj _ Hg _ _ _ _ _ Hr0 Hr) as [[H1 H2]|[H1 H2]];
      congruence.
  - intros v [Hv'| ->%list_elem_of_singleton]%elem_of_app; [|eauto].
    destruct (Hd v Hv') as [h Hh].
    destruct (edge_item_adj _ _ _ _ Hh) as [r0 Hr0]. rewrite Hrf in Hr0.
    rewrite (Hsame dst v r0); [eauto|done|].
    intros ->. destruct (gk_inj _ Hg _ _ _ _ _ Hr0 Hr) as [[H1 H2]|[H1 H2]];
      congruence.
  - intros h it Hh Hval.
    destruct (Hitems h it Hh Hval) as [[-> ->]|Hold].
    + right. split; [done|]. simpl. apply elem_of_app. right. left.
    + destruct (Hav h it Hold Hval) as [?|[? ?]]; [by left|right].
      split; [done|]. apply elem_of_app. by left.
  - subst s''. simpl. rewrite heappush_perm. simpl.
    rewrite length_app. simpl. lia.
Qed.

Lemma revalidate_mid s dst A X :
  mid_inv A X s -> dst ∈ dkeys (g_node s) -> A dst ->
  (forall x, X x -> x = dst) ->
  exists s' a,
    revalidate_node_edges dst s = Ok tt s' /\
    dget dst (g_adj s) = Some a /\
    mid_inv nobody nobody s' /\
    g_node s' = g_node s /\ max_id s' = max_id s /\
    length (edge_heap s') = (length (edge_heap s) + length a)%nat.
Proof.
  intros [Hg Hat Hit Hhp Hv Hq Hav] Hdst HA HX.
  destruct (node_row s dst Hg Hdst) as [a Ha].
  rewrite (revalidate_node_edges_unfold _ _ _ Ha).
  destruct (for_each_ok (reval_inv s dst) (dkeys a) (revalidate_edge dst) s)
    as (s' & Hrun & Hn & Ha' & Hmx & Hlen & Hit' & Hhp' & Hv' & Hq' & Hd'
        & Hav' & Hl').
  { repeat split; try done.
    - intros u v Huv Hu Hv0. apply Hq; [done|..]; by intros ?%HX.
    - by intros v ?%elem_of_nil.
    - intros h it Hh Hval. left. destruct (Hav h it Hh Hval) as [H1 H2].
      split; intros Heq; by rewrite Heq in *. }
  { intros done x rest s' Hl Hinv.
    pose proof (gk_rows _ Hg _ _ Ha) as Hnd. rewrite Hl in Hnd.
    apply NoDup_app in Hnd as (_ & Hnd & _).
    apply reval_inv_step; [done| |by intros Hin; apply (Hnd x Hin); left|done].
    rewrite (adj_ref_row _ _ _ _ Ha). apply dget_is_Some.
    rewrite Hl. apply elem_of_app. right. left. }
  exists s', a. split; [done|]. split; [done|].
  assert (graph_ok s') as Hg'.
  { apply (graph_ok_ext s); try done. by rewrite Hn. }
  assert (forall u v, adj_ref s' u v = adj_ref s u v) as Hrf
    by (intros; by apply adj_ref_ext).
  split; [|split; [done|split; [done|]]].
  - split; try done.
    + intros n. rewrite Hn. apply Hat.
    + intros u v Huv _ _. rewrite Hrf in Huv.
      destruct (decide (u = dst)) as [->|Hu].
      { apply Hd'. rewrite (adj_ref_row _ _ _ _ Ha) in Huv.
        by apply dget_is_Some. }
      destruct (decide (v = dst)) as [->|Hv0]; [|by apply Hq'].
      rewrite edge_item_sym by done. apply Hd'.
      rewrite adj_ref_sym, (adj_ref_row _ _ _ _ Ha) in Huv by done.
      by apply dget_is_Some.
    + intros h it _ _. split; intros [].
  - rewrite Hl'. unfold dkeys. by rewrite length_map.
Qed.

(** ** An accepted merge, in place *)

Lemma mid_inv_weaken s A X X' :
  mid_inv A X s -> (forall x, X x -> X' x) -> mid_inv A X' s.
Proof.
  intros [Hg Hat Hit Hhp Hv Hq Hav] HX. split; try done.
  intros u v Huv Hu Hv'. apply Hq; auto.
Qed.

Lemma degree_bound s n a :
  graph_ok s -> dget n (g_adj s) = Some a ->
  (length a < length (g_node s))%nat.
Proof.
  intros Hg Ha.
  assert (NoDup (n :: dkeys a)) as Hnd.
  { apply NoDup_cons. split; [|by eapply gk_rows].
    intros [r Hr]%dget_is_Some.
    assert (adj_ref s n n = Some r) as Hnn by (apply adj_ref_Some; eauto).
    by rewrite (gk_loop _ Hg) in Hnn. }
  assert (n :: dkeys a ⊆+ dkeys (g_node s)) as Hsub.
  { apply NoDup_submseteq; [done|]. intros x [->|Hx]%elem_of_cons.
    - apply (gk_keys _ Hg), dget_is_Some. eauto.
    - apply dget_is_Some in Hx as [r Hr].
      apply (adj_ref_nodes s n x Hg). exists r. apply adj_ref_Some. eauto. }
  apply submseteq_length in Hsub. unfold dkeys in Hsub.
  rewrite !length_cons, !length_map in Hsub. lia.
Qed.

Lemma merge_nodes_frame src dst s r s' :
  merge_nodes src dst weight_scrm s = Ok r s' ->
  g_num_ge_mmu s' = g_num_ge_mmu s /\ g_area_lt_mmu s' = g_area_lt_mmu s /\
  items s' = items s /\ edge_heap s' = edge_heap s /\
  partial_stop s' = partial_stop s.
Proof.
  intros Hrun.
  assert (forall {Y} (f : St -> Y),
    ignores_node f -> ignores_adj f -> ignores_edata f -> ignores_max_id f ->
    f s' = f s) as Hf.
  { intros Y f H1 H2 H3 H4.
    pose proof (preserves_merge_nodes f src dst weight_scrm
                  (preserves_weight_scrm f) H1 H2 H3 H4 s) as H.
    by rewrite Hrun in H. }
  repeat split; by apply Hf.
Qed.

Lemma revalidate_frame node s s' :
  revalidate_node_edges node s = Ok tt s' ->
  g_num_ge_mmu s' = g_num_ge_mmu s /\ g_area_lt_mmu s' = g_area_lt_mmu s /\
  partial_stop s' = partial_stop s.
Proof.
  intros Hrun.
  assert (forall {Y} (f : St -> Y),
    ignores_items f -> ignores_edata f -> ignores_heap f -> f s' = f s) as Hf.
  { intros Y f H1 H2 H3.
    pose proof (preserves_revalidate_node_edges f node H1 H2 H3 s) as H.
    by rewrite Hrun in H. }
  repeat split; by apply Hf.
Qed.

(** The node dictionary after [src] has been merged into [dst] *)
Definition merged_nodes (src dst : Z) (sd dd : NodeData)
    (nodes : list (Z * option NodeData)) : list (Z * option NodeData) :=
  ddel src
    (dset dst (Some (relabelled sd (merged_attrs sd dd))) nodes).

Lemma merged_nodes_sum g src dst sd dd nodes :
  src <> dst ->
  dget src nodes = Some (Some sd) -> dget dst nodes = Some (Some dd) ->
  node_sum g (merged_nodes src dst sd dd nodes)
  = node_sum g nodes - g sd - g dd + g (relabelled sd (merged_attrs sd dd)).
Proof.
  intros Hne Hs Hd. unfold merged_nodes.
  rewrite (node_sum_ddel _ _ _ sd) by by rewrite dget_dset_ne.
  rewrite (node_sum_dset _ _ _ dd) by done. lia.
Qed.

Lemma merged_nodes_length src dst sd dd nodes :
  src ∈ dkeys nodes -> dst ∈ dkeys nodes ->
  S (length (merged_nodes src dst sd dd nodes)) = length nodes.
Proof.
  intros Hs Hd. unfold merged_nodes.
  rewrite length_ddel; [by apply length_dset_in|].
  apply elem_of_dkeys_dset. by right.
Qed.

Lemma merged_nodes_counters mmu src dst sd dd nodes :
  src <> dst ->
  dget src nodes = Some (Some sd) -> dget dst nodes = Some (Some dd) ->
  count_ge_mmu mmu (merged_nodes src dst sd dd nodes)
  = merged_num mmu sd dd (count_ge_mmu mmu nodes) /\
  area_below_mmu mmu (merged_nodes src dst sd dd nodes)
  = merged_area mmu sd dd (area_below_mmu mmu nodes) /\
  total_pixels (merged_nodes src dst sd dd nodes) = total_pixels nodes.
Proof.
  intros Hne Hs Hd.
  unfold count_ge_mmu, area_below_mmu, total_pixels, merged_num, merged_area.
  rewrite !merged_nodes_sum by done. simpl. repeat split; lia.
Qed.

Lemma invalidate_stage s n A :
  mid_inv A nobody s -> n ∈ dkeys (g_node s) ->
  exists its,
    (nbrs <~ neighbors n ;;
     for_each nbrs (fun nbr => invalidate_edge n nbr)) s
    = Ok tt (set_items its s) /\
    mid_inv (fun x => A x \/ x = n) nobody (set_items its s).
Proof.
  intros Hm Hn.
  destruct (node_row s n (mi_graph _ _ _ Hm) Hn) as [a Ha].
  destruct (invalidate_node_edges s n a A Hm Ha) as (its & Hrun & Hd & Hc).
  exists its. split.
  - by rewrite (bind_ok _ _ _ _ _ (neighbors_run _ _ _ Ha)).
  - apply mid_inv_cleared; [done..|].
    intros v h Hh. apply (Hc v h); [|done].
    apply edge_item_adj in Hh. rewrite (adj_ref_row _ _ _ _ Ha) in Hh.
    by apply dget_is_Some.
Qed.

Lemma merge_tail mmu s src dst A sd dd num area :
  mid_inv A (fun x => x = dst) s -> src <> dst ->
  dget src (g_node s) = Some (Some sd) ->
  dget dst (g_node s) = Some (Some dd) ->
  A src -> A dst ->
  g_num_ge_mmu s = Some num -> g_area_lt_mmu s = Some area ->
  exists s',
    (merge_scrm src dst mmu ;;;
     new_id <~ merge_nodes src dst weight_scrm ;;
     revalidate_node_edges new_id) s = Ok tt s' /\
    mid_inv nobody nobody s' /\
    g_node s' = merged_nodes src dst sd dd (g_node s) /\
    g_num_ge_mmu s' = Some (merged_num mmu sd dd num) /\
    g_area_lt_mmu s' = Some (merged_area mmu sd dd area) /\
    max_id s <= max_id s' /\
    (length (edge_heap s') < length (edge_heap s) + length (g_node s'))%nat /\
    partial_stop s' = partial_stop s.
Proof.
  intros Hm Hne Hsd Hdd HAs HAd Hnum Harea.
  assert (src ∈ dkeys (g_node s)) as Hsrc by (apply dget_is_Some; eauto).
  assert (dst ∈ dkeys (g_node s)) as Hdst by (apply dget_is_Some; eauto).
  (* merge_scrm *)
  rewrite (bind_ok _ _ _ _ _
             (merge_scrm_run src dst mmu s sd dd _ _ Hsd Hdd Hnum Harea)).
  set (sc := set_area_lt_mmu _ _).
  assert (dkeys (g_node sc) = dkeys (g_node s)) as Hkc.
  { by apply dkeys_dset_in. }
  assert (mid_inv A (fun x => x = dst) sc) as Hmc.
  { assert (attrs_ok sc) as Hatc.
    { intros k Hk. rewrite Hkc in Hk. simpl. rewrite dget_dset.
      case_decide; [eauto|]. by apply (mi_attrs _ _ _ Hm). }
    apply (mid_inv_ext s sc A _ Hm Hkc Hatc); auto. }
  (* merge_nodes *)
  destruct (merge_nodes_mid sc src dst A (fun x => x = dst) Hmc Hne)
    as (sd' & sd1 & dd1 & Hrund & Hsd1 & Hdd1 & Hnd & Hmd & Hmxd);
    [by rewrite Hkc..|done|done|].
  rewrite (bind_ok _ _ _ _ _ Hrund).
  assert (g_node sd' = merged_nodes src dst sd dd (g_node s)) as Hnodes.
  { rewrite Hnd. simpl in Hsd1, Hdd1.
    rewrite dget_dset_ne in Hsd1 by done. rewrite dget_dset_eq in Hdd1.
    assert (sd1 = sd) as -> by congruence.
    assert (dd1 = merged_attrs sd dd) as -> by congruence.
    simpl. by rewrite dset_dset. }
  (* the edges of the merged node are queued *)
  assert (dst ∈ dkeys (g_node sd')) as Hn2d.
  { rewrite Hnodes. unfold merged_nodes.
    apply elem_of_dkeys_ddel; [apply NoDup_dkeys_dset, (mi_graph _ _ _ Hm)|].
    split; [done|]. apply elem_of_dkeys_dset. by left. }
  destruct (revalidate_mid sd' dst A (fun x => x = dst) Hmd Hn2d)
    as (sf & a & Hrunf & Ha & Hmf & Hnf & Hmxf & Hlf); [done|done|].
  exists sf. split; [done|].
  destruct (merge_nodes_frame _ _ _ _ _ Hrund) as (Hf1 & Hf2 & _ & Hf4 & Hf5).
  destruct (revalidate_frame _ _ _ Hrunf) as (Hf6 & Hf7 & Hf8).
  split; [done|]. split; [by rewrite Hnf|].
  split; [by rewrite Hf6, Hf1|]. split; [by rewrite Hf7, Hf2|].
  split; [rewrite Hmxf; simpl in Hmxd; lia|].
  split; [|by rewrite Hf8, Hf5].
  rewrite Hlf, Hf4, Hnf. simpl.
  pose proof (degree_bound sd' dst a (mi_graph _ _ _ Hmd) Ha). lia.
Qed.

Lemma merged_nodes_keys src dst sd dd nodes k :
  NoDup (dkeys nodes) -> dst ∈ dkeys nodes ->
  k ∈ dkeys (merged_nodes src dst sd dd nodes) -> k ∈ dkeys nodes.
Proof.
  intros Hnd Hdst. unfold merged_nodes.
  rewrite elem_of_dkeys_ddel by by apply NoDup_dkeys_dset.
  rewrite elem_of_dkeys_dset. by intros [_ [->|?]].
Qed.

Lemma invalidate_both s n1 n2 {B} (k : unit -> Cmd B) :
  mid_inv nobody nobody s ->
  n1 ∈ dkeys (g_node s) -> n2 ∈ dkeys (g_node s) ->
  exists its,
    (nbrs <~ neighbors n1 ;;
     for_each nbrs (fun nbr => invalidate_edge n1 nbr) ;;;
     nbrs <~ neighbors n2 ;;
     for_each nbrs (fun nbr => invalidate_edge n2 nbr) ;;;
     k tt) s = k tt (set_items its s) /\
    mid_inv (fun x => x = n1 \/ x = n2) nobody (set_items its s).
Proof.
  intros Hm Hn1 Hn2.
  destruct (invalidate_stage s n1 nobody Hm Hn1) as (its1 & Hrun1 & Hm1).
  destruct (invalidate_stage (set_items its1 s) n2 _ Hm1 Hn2)
    as (its2 & Hrun2 & Hm2).
  exists its2. split.
  - revert Hrun1 Hrun2. unfold bind.
    destruct (neighbors n1 s) as [l1 sx|]; [|done]. intros ->.
    destruct (neighbors n2 (set_items its1 s)) as [l2 sy|]; [|done].
    by intros ->.
  - destruct Hm2 as [Hg Hat Hit Hhp Hv Hq Hav]. split; try done.
    intros h it Hh Hval. destruct (Hav h it Hh Hval) as [H1 H2].
    split; intros [?|?]; [apply H1|apply H1|apply H2|apply H2]; auto.
Qed.


(** ** [_rename_node] to a fresh id *)

(** The graph once the fresh node [c] has received a copy [d] of the
    attributes *)
Definition with_copy (c : Z) (d : NodeData) (s : St) : St :=
  set_node (dset c (Some d) (g_node s)) (set_adj (dset c [] (g_adj s)) s).

Lemma adj_ref_with_copy s c d x y :
  adj_ref (with_copy c d s) x y
  = if decide (x = c) then None else adj_ref s x y.
Proof.
  unfold adj_ref, with_copy. simpl. rewrite dget_dset.
  repeat case_decide; simplify_eq/=; done.
Qed.

Lemma mid_inv_with_copy s c d A X :
  mid_inv A X s -> c ∉ dkeys (g_node s) ->
  mid_inv (fun x => A x \/ x = c) X (with_copy c d s).
Proof.
  intros [Hg Hat Hit Hhp Hv Hq Hav] Hc.
  assert (Hview := adj_ref_with_copy s c d).
  assert (forall x y, is_Some (adj_ref s x y) -> x <> c /\ y <> c) as Hnc.
  { intros x y (Hx & Hy & _)%adj_ref_nodes; [|done].
    split; by intros ->. }
  assert (forall x y, is_Some (adj_ref s x y) ->
            adj_ref (with_copy c d s) x y = adj_ref s x y) as Hv1.
  { intros x y [Hx _]%Hnc. rewrite Hview. by rewrite decide_False. }
  assert (forall x y, is_Some (adj_ref s x y) ->
            edge_item (with_copy c d s) x y = edge_item s x y) as Hei.
  { intros x y Hxy. unfold edge_item. by rewrite Hv1. }
  assert (forall x y, is_Some (adj_ref (with_copy c d s) x y) ->
            is_Some (adj_ref s x y)) as Hv2.
  { intros x y. rewrite Hview. case_decide; [by intros [? ?]|done]. }
  assert (forall x y r, adj_ref (with_copy c d s) x y = Some r ->
            adj_ref s x y = Some r) as Hv3.
  { intros x y r H. rewrite <- H. symmetry. apply Hv1, Hv2. by rewrite H. }
  split; [split|..]; simpl.
  - apply NoDup_dkeys_dset, Hg.
  - apply NoDup_dkeys_dset, Hg.
  - intros n. rewrite !elem_of_dkeys_dset, (gk_keys _ Hg). done.
  - intros x a. rewrite dget_dset. case_decide.
    + intros [= <-]. apply NoDup_nil_2.
    + apply (gk_rows _ Hg).
  - intros x y r Hxy%Hv3. rewrite Hv1; [by apply (gk_sym _ Hg)|].
    rewrite (adj_ref_sym s y x) by done. eauto.
  - intros x. rewrite Hview. case_decide; [done|apply (gk_loop _ Hg)].
  - intros x y r Hxy%Hv3. by apply (gk_range _ Hg) in Hxy.
  - intros x y x' y' r H1%Hv3 H2%Hv3. by eapply (gk_inj _ Hg).
  - intros k. simpl. rewrite elem_of_dkeys_dset, dget_dset.
    case_decide; [eauto|]. intros [?|?]; [done|]. by apply Hat.
  - done.
  - done.
  - intros h it Hh Hval. pose proof (Hv h it Hh Hval) as He.
    rewrite Hei; [done|]. by eapply edge_item_adj.
  - intros x y Hxy%Hv2 Hx Hy. rewrite Hei by done. by apply Hq.
  - intros h it Hh Hval. destruct (Hav h it Hh Hval) as [H1 H2].
    pose proof (Hv h it Hh Hval) as He%edge_item_adj.
    destruct (Hnc _ _ He). split; intros [?|?]; done.
Qed.

Lemma rename_node_head s n c d :
  c ∉ dkeys (g_node s) -> dget n (g_node s) = Some (Some d) ->
  rename_node n c s
  = (nbrs <~ neighbors n ;;
     for_each nbrs (fun nbr =>
       r <~ edge_ref n nbr ;;
       ed <~ edge_data r ;;
       add_edge nbr c (ed_weight ed)) ;;;
     remove_node n) (with_copy c d s).
Proof.
  intros Hc Hd.
  assert (n <> c) as Hne.
  { intros ->. apply Hc, dget_is_Some. eauto. }
  apply dmem_false in Hc.
  unfold rename_node. unfold bind at 1, add_node_silent, modify. rewrite Hc.
  unfold bind at 1, get. simpl.
  rewrite dget_dset_eq, dget_dset_ne, Hd by done.
  unfold bind at 1, set_node_attrs, modify. unfold with_copy. simpl.
  by rewrite dset_dset.
Qed.

Lemma rename_node_mid s n c A :
  mid_inv A nobody s -> n ∈ dkeys (g_node s) -> c ∉ dkeys (g_node s) ->
  A n -> (exists x, is_Some (adj_ref s n x)) ->
  exists s' d,
    rename_node n c s = Ok tt s' /\
    dget n (g_node s) = Some (Some d) /\
    g_node s' = ddel n (dset c (Some d) (g_node s)) /\
    mid_inv (fun x => A x \/ x = c) (fun x => x = c) s' /\
    max_id s <= max_id s' /\ c <= max_id s' /\
    g_num_ge_mmu s' = g_num_ge_mmu s /\ g_area_lt_mmu s' = g_area_lt_mmu s /\
    edge_heap s' = edge_heap s /\ partial_stop s' = partial_stop s.
Proof.
  intros Hm Hn Hc HA Hnbr.
  pose proof (mi_graph _ _ _ Hm) as Hg.
  destruct (mi_attrs _ _ _ Hm n Hn) as [d Hd].
  destruct (node_row s n Hg Hn) as [a Ha].
  assert (n <> c) as Hne by (by intros ->).
  set (A' := fun x => A x \/ x = c). set (X' := fun x : Z => x = c).
  set (s1 := with_copy c d s).
  assert (mid_inv A' X' s1) as Hm1.
  { apply (mid_inv_weaken s1 A' nobody); [|by intros ? []].
    by apply mid_inv_with_copy. }
  assert (dget n (g_adj s1) = Some a) as Ha1.
  { simpl. by rewrite dget_dset_ne. }
  pose (I := fun (done : list Z) (s' : St) =>
    mid_inv A' X' s' /\ g_node s' = g_node s1 /\
    (forall x y, x <> c -> y <> c -> adj_ref s' x y = adj_ref s x y) /\
    max_id s <= max_id s' /\ (done <> [] -> c <= max_id s') /\
    g_num_ge_mmu s' = g_num_ge_mmu s /\ g_area_lt_mmu s' = g_area_lt_mmu s /\
    edge_heap s' = edge_heap s /\ partial_stop s' = partial_stop s).
  destruct (for_each_ok I (dkeys a)
              (fun nbr => r <~ edge_ref n nbr ;;
                          ed <~ edge_data r ;;
                          add_edge nbr c (ed_weight ed)) s1)
    as (s2 & Hrun & Hm2 & Hn2 & Hv2 & Hmx2 & Hc2 & Hf1 & Hf2 & Hf3 & Hf4).
  { split; [done|]. split; [done|]. split.
    { intros x y Hx Hy. subst s1. rewrite adj_ref_with_copy.
      by rewrite decide_False. }
    split; [simpl; lia|]. done. }
  { intros done x rest s' Hl (Hm' & Hn' & Hv' & Hmx' & _ & Hg1 & Hg2 & Hg3 & Hg4).
    assert (x ∈ dkeys a) as Hx by (rewrite Hl; apply elem_of_app; right; left).
    apply dget_is_Some in Hx as [r Hr].
    assert (adj_ref s n x = Some r) as Hnx by (apply adj_ref_Some; eauto).
    destruct (adj_ref_nodes s n x Hg) as (_ & Hxn & Hxne); [eauto|].
    assert (x <> c) as Hxc by (by intros ->).
    assert (adj_ref s' n x = Some r) as Hnx' by (by rewrite Hv').
    rewrite (bind_ok _ _ _ _ _ (edge_ref_run _ _ _ _ Hnx')).
    pose proof (gk_range _ (mi_graph _ _ _ Hm') _ _ _ Hnx') as Hlt.
    apply lookup_lt_is_Some in Hlt as [ed Hed].
    unfold bind at 1, edge_data, lift_opt. rewrite Hed. simpl.
    destruct (add_edge_mid s' x c (ed_weight ed) A' X' Hm')
      as (s'' & Hrun & Hm'' & Hn'' & Hmx'' & Hv''); [done| | |by right|].
    { rewrite Hn'. simpl. apply elem_of_dkeys_dset. by right. }
    { rewrite Hn'. simpl. apply elem_of_dkeys_dset. by left. }
    exists s''. split; [done|].
    assert (forall {Y} (f : St -> Y),
      ignores_node f -> ignores_adj f -> ignores_edata f ->
      ignores_max_id f -> f s'' = f s') as Hf.
    { intros Y f H1 H2 H3 H4.
      pose proof (preserves_add_edge f x c (ed_weight ed) H1 H2 H3 H4 s')
        as H. by rewrite Hrun in H. }
    split; [done|]. split; [congruence|]. split.
    { intros u v Hu Hv0. rewrite Hv'' by done. by apply Hv'. }
    split; [lia|]. split; [intros _; lia|].
    rewrite <- Hg1, <- Hg2, <- Hg3, <- Hg4.
    repeat split; by apply Hf. }
  rewrite (rename_node_head s n c d Hc Hd).
  rewrite (bind_ok _ _ _ _ _ (neighbors_run _ _ _ Ha1)).
  rewrite (bind_ok _ _ _ _ _ Hrun).
  destruct (remove_node_run s2 n) as (Adj' & Hrm & Hw).
  { apply Hm2. }
  { rewrite Hn2. simpl. apply elem_of_dkeys_dset. by right. }
  eexists _, d. split; [exact Hrm|]. split; [done|].
  split; [simpl; by rewrite Hn2|].
  split; [apply mid_inv_without; [done|by left|done]|].
  split; [done|]. split; [|done].
  apply Hc2. destruct Hnbr as [x [r Hx]].
  rewrite (adj_ref_row _ _ _ _ Ha) in Hx.
  intros Hnil. assert (x ∈ dkeys a) as Hxa by (apply dget_is_Some; eauto).
  rewrite Hnil in Hxa. by apply elem_of_nil in Hxa.
Qed.

(** ** An accepted merge, in either mode *)

Lemma merge_pair_ok mmu T ipm s n1 n2 :
  loop_inv mmu T s -> is_Some (adj_ref s n1 n2) ->
  exists s',
    merge_pair mmu ipm merge_scrm weight_scrm n1 n2 s = Ok tt s' /\
    loop_inv mmu T s' /\
    S (length (g_node s')) = length (g_node s) /\
    (length (edge_heap s') < length (edge_heap s) + length (g_node s'))%nat /\
    partial_stop s' = partial_stop s.
Proof.
  intros [Hm Hmax [Hnum Harea] HT] Hedge.
  pose proof (mi_graph _ _ _ Hm) as Hg.
  destruct (adj_ref_nodes s n1 n2 Hg Hedge) as (Hn1 & Hn2 & Hne).
  destruct (mi_attrs _ _ _ Hm n1 Hn1) as [d1 Hd1].
  destruct (mi_attrs _ _ _ Hm n2 Hn2) as [d2 Hd2].
  unfold merge_pair.
  destruct (invalidate_both s n1 n2 (fun _ =>
    sd <~ (if negb ipm
           then nid <~ next_id ;; rename_node n2 nid ;;; ret (n1, nid)
           else ret (n1, n2)) ;;
    let '(src, dst) := sd in
    merge_scrm src dst mmu ;;;
    new_id <~ merge_nodes src dst weight_scrm ;;
    revalidate_node_edges new_id) Hm Hn1 Hn2) as (its & -> & Hmb).
  set (A := fun x : Z => x = n1 \/ x = n2) in *.
  set (sb := set_items its s) in *.
  destruct ipm; simpl negb; cbv iota.
  - (* in place *)
    unfold bind at 1, ret at 1.
    destruct (merge_tail mmu sb n1 n2 A d1 d2 (count_ge_mmu mmu (g_node s))
                (area_below_mmu mmu (g_node s)))
      as (sf & Hrun & Hmf & Hnf & Hc1 & Hc2 & Hmx & Hlen & Hps);
      [by apply (mid_inv_weaken sb A nobody); [|intros ? []]
      |done|done|done|by left|by right|done|done|].
    destruct (merged_nodes_counters mmu n1 n2 d1 d2 (g_node s) Hne Hd1 Hd2)
      as (Hs1 & Hs2 & Hs3).
    exists sf. split; [done|]. simpl in Hnf. rewrite <- Hnf in Hs1, Hs2, Hs3.
    split; [|split; [|done]].
    + split; [done| | |by rewrite Hs3].
      * intros n. rewrite Hnf. intros Hn%merged_nodes_keys; [|apply Hg|done].
        apply Hmax in Hn. simpl in Hmx. lia.
      * split; [by rewrite Hc1, Hs1|by rewrite Hc2, Hs2].
    + rewrite Hnf. by apply merged_nodes_length.
  - (* under a fresh id *)
    unfold bind at 1, bind at 1, next_id. simpl max_id.
    set (nid := max_id s + 1).
    assert (nid ∉ dkeys (g_node s)) as Hnid.
    { intros H%Hmax. subst nid. lia. }
    destruct (rename_node_mid sb n2 nid A Hmb Hn2 Hnid)
      as (sr & d & Hrunr & Hd & Hnr & Hmr & Hmx1 & Hmx2 & Hr1 & Hr2 & Hr3
          & Hr4); [by right| |].
    { exists n1. change (is_Some (adj_ref s n2 n1)).
      by rewrite adj_ref_sym. }
    assert (d = d2) as -> by (simpl in Hd; congruence).
    rewrite (bind_ok _ _ _ _ _ Hrunr). unfold ret at 1. cbv beta iota.
    assert (n1 <> nid) as Hn1n by (by intros ->).
    assert (n2 <> nid) as Hn2n by (by intros ->).
    simpl in Hnr.
    set (nodes_r := ddel n2 (dset nid (Some d2) (g_node s))) in *.
    assert (dget n1 nodes_r = Some (Some d1)) as Hd1r.
    { subst nodes_r. by rewrite dget_ddel_ne, dget_dset_ne. }
    assert (dget nid nodes_r = Some (Some d2)) as Hd2r.
    { subst nodes_r. by rewrite dget_ddel_ne, dget_dset_eq. }
    assert (forall g, node_sum g nodes_r = node_sum g (g_node s)) as Hsum.
    { intros g. subst nodes_r.
      rewrite (node_sum_ddel _ _ _ d2) by by rewrite dget_dset_ne.
      rewrite node_sum_dset_new by done. lia. }
    assert (length nodes_r = length (g_node s)) as Hlenr.
    { subst nodes_r.
      assert (n2 ∈ dkeys (dset nid (Some d2) (g_node s))) as Hin
        by (apply elem_of_dkeys_dset; by right).
      pose proof (length_ddel _ _ Hin) as Hl.
      pose proof (dkeys_dset_notin (g_node s) nid (Some d2) Hnid) as Hk.
      apply (f_equal length) in Hk. unfold dkeys in Hk.
      rewrite length_app, !length_map in Hk. simpl in Hk. lia. }
    destruct (merge_tail mmu sr n1 nid (fun x => A x \/ x = nid) d1 d2
                (count_ge_mmu mmu (g_node s))
                (area_below_mmu mmu (g_node s)))
      as (sf & Hrun & Hmf & Hnf & Hc1 & Hc2 & Hmx & Hlen & Hps);
      [done|done|by rewrite Hnr|by rewrite Hnr|by left; left|by right
      |by rewrite Hr1|by rewrite Hr2|].
    rewrite Hnr in Hnf.
    destruct (merged_nodes_counters mmu n1 nid d1 d2 nodes_r Hn1n Hd1r Hd2r)
      as (Hs1 & Hs2 & Hs3).
    unfold count_ge_mmu, area_below_mmu, total_pixels in Hs1, Hs2, Hs3.
    rewrite Hsum in Hs1, Hs2, Hs3.
    exists sf. split; [done|].
    split; [|split; [|split]].
    + split; [done| | |].
      * intros n. rewrite Hnf. intros Hn%merged_nodes_keys.
        -- subst nodes_r. apply elem_of_dkeys_ddel in Hn as [_ Hn];
             [|by apply NoDup_dkeys_dset, Hg].
           apply elem_of_dkeys_dset in Hn as [->|Hn]; [lia|].
           apply Hmax in Hn. simpl in Hmx1. lia.
        -- subst nodes_r. by apply NoDup_dkeys_ddel, NoDup_dkeys_dset, Hg.
        -- apply dget_is_Some. eauto.
      * split.
        -- rewrite Hc1, Hnf. unfold count_ge_mmu. by rewrite Hs1.
        -- rewrite Hc2, Hnf. unfold area_below_mmu. by rewrite Hs2.
      * rewrite Hnf. unfold total_pixels. by rewrite Hs3.
    + rewrite Hnf, <- Hlenr. apply merged_nodes_length; apply dget_is_Some; eauto.
    + rewrite Hr3 in Hlen. done.
    + by rewrite Hps, Hr4.
Qed.

(** ** One turn of the loop *)

Lemma loop_body_accept dms mas mmu exp ipm mf wf s h heap' it d1 d2 :
  heappop (ref_lt (items s)) (edge_heap s) = Some (h, heap') ->
  items s !! h = Some it ->
  is_Some (g_num_ge_mmu s) -> is_Some (g_area_lt_mmu s) -> dms <> 0 ->
  hi_valid it = true ->
  dget (hi_n1 it) (g_node s) = Some (Some d1) ->
  dget (hi_n2 it) (g_node s) = Some (Some d2) ->
  size_checks mas mmu (latch_after dms exp s)
    (pixel_count d1) (pixel_count d2) = true ->
  loop_body dms mas mmu exp ipm mf wf s
  = merge_pair mmu ipm mf wf (hi_n1 it) (hi_n2 it)
      (set_partial_stop (latch_after dms exp s) (set_edge_heap heap' s)).
Proof.
  intros Hpop Hit [num Hnum] [area Harea] Hdms Hv H1 H2 Hsz.
  apply Z.eqb_neq in Hdms.
  unfold latch_after in *. rewrite Hnum, Harea in *.
  unfold loop_body, pop_and_check, bind, get, modify, get_item,
    graph_num_ge_mmu, graph_area_lt_mmu, lift_opt, ret, raise, node_attrs.
  rewrite Hpop. simpl. rewrite Hit. simpl. rewrite Hnum. simpl.
  rewrite Harea. simpl. rewrite Hdms. simpl. rewrite Hv.
  destruct (below_expected num area dms exp), (partial_stop s) eqn:Hps;
    simpl in *; rewrite ?H1; simpl; rewrite ?H2; simpl; rewrite ?Hps, ?Hsz;
    unfold set_partial_stop, set_edge_heap; simpl; by rewrite ?Hps.
Qed.

(** A state that differs from one satisfying the invariant by a smaller
    heap and another latch satisfies it. *)
Lemma loop_inv_popped mmu T s heap' stop :
  loop_inv mmu T s -> (forall h, h ∈ heap' -> h ∈ edge_heap s) ->
  loop_inv mmu T (set_partial_stop stop (set_edge_heap heap' s)).
Proof.
  intros [Hm Hmax Hc HT] Hsub. split; try done.
  apply (mid_inv_ext s); try done. apply Hm.
Qed.

Lemma loop_turn dms mas mmu exp ipm T s :
  loop_inv mmu T s -> edge_heap s <> [] -> dms <> 0 ->
  exists s',
    loop_body dms mas mmu exp ipm merge_scrm weight_scrm s = Ok tt s' /\
    loop_inv mmu T s' /\
    (measure s' < measure s)%nat /\
    ((g_node s' = g_node s /\
      S (length (edge_heap s')) = length (edge_heap s)) \/
     S (length (g_node s')) = length (g_node s)).
Proof.
  intros Hinv Hne Hdms.
  destruct (heappop_nonempty (ref_lt (items s)) (edge_heap s) Hne)
    as (h & heap' & Hpop).
  pose proof (heappop_perm _ _ _ _ Hpop) as Hperm.
  pose proof (Permutation_length Hperm) as Hlen. simpl in Hlen.
  assert (h ∈ edge_heap s) as Hh by (rewrite Hperm; left).
  destruct Hinv as [Hm Hmax Hc HT].
  apply (mi_heap _ _ _ Hm), lookup_lt_is_Some in Hh as [it Hit].
  assert (is_Some (g_num_ge_mmu s)) as Hnum by (destruct Hc as [-> _]; eauto).
  assert (is_Some (g_area_lt_mmu s)) as Harea
    by (destruct Hc as [_ ->]; eauto).
  assert (forall x, x ∈ heap' -> x ∈ edge_heap s) as Hsub.
  { intros x Hx. rewrite Hperm. by right. }
  set (s1 := set_partial_stop (latch_after dms exp s) (set_edge_heap heap' s)).
  assert (loop_inv mmu T s1) as Hinv1 by (by apply loop_inv_popped).
  assert (not_accepted mas mmu (latch_after dms exp s) s it ->
    exists s',
      loop_body dms mas mmu exp ipm merge_scrm weight_scrm s = Ok tt s' /\
      loop_inv mmu T s' /\
      (measure s' < measure s)%nat /\
      ((g_node s' = g_node s /\
        S (length (edge_heap s')) = length (edge_heap s)) \/
       S (length (g_node s')) = length (g_node s))) as Hdiscard.
  { intros Hrej. exists s1. split; [by eapply loop_body_discard|].
    split; [done|]. unfold measure. simpl. split; [lia|]. left. auto. }
  destruct (hi_valid it) eqn:Hv; [|apply Hdiscard; by left].
  pose proof (mi_valid _ _ _ Hm h it Hit Hv) as He%edge_item_adj.
  destruct (adj_ref_nodes s _ _ (mi_graph _ _ _ Hm) He) as (Hn1 & Hn2 & _).
  destruct (mi_attrs _ _ _ Hm _ Hn1) as [d1 Hd1].
  destruct (mi_attrs _ _ _ Hm _ Hn2) as [d2 Hd2].
  destruct (size_checks mas mmu (latch_after dms exp s)
              (pixel_count d1) (pixel_count d2)) eqn:Hsz;
    [|apply Hdiscard; right; eauto].
  rewrite (loop_body_accept _ _ _ _ _ _ _ _ h heap' it d1 d2) by done.
  destruct (merge_pair_ok mmu T ipm s1 (hi_n1 it) (hi_n2 it) Hinv1 He)
    as (s' & Hrun & Hinv' & Hnodes & Hheap & _).
  exists s'. split; [done|]. split; [done|]. split; [|by right].
  unfold measure. simpl in *. rewrite <- Hnodes. nia.
Qed.


(** ** The loop runs to the end *)

Lemma turns_inv dms mas mmu exp ipm T s s' :
  dms <> 0 ->
  turns (loop_body dms mas mmu exp ipm merge_scrm weight_scrm) s s' ->
  loop_inv mmu T s -> loop_inv mmu T s'.
Proof.
  intros Hdms Ht. induction Ht as [s|s s1 s2 Hne Hbody _ IH]; [done|].
  intros Hinv. apply IH.
  destruct (loop_turn dms mas mmu exp ipm T s Hinv Hne Hdms)
    as (s1' & Hrun & Hinv' & _).
  congruence.
Qed.

Lemma turns_trans body s1 s2 s3 :
  turns body s1 s2 -> turns body s2 s3 -> turns body s1 s3.
Proof.
  induction 1 as [|s sa sb Hne Hb _ IH]; [done|].
  intros H. eapply turns_step; eauto.
Qed.

Lemma main_loop_ok dms mas mmu exp ipm T fuel s :
  dms <> 0 -> loop_inv mmu T s -> (measure s <= fuel)%nat ->
  exists s',
    main_loop fuel (loop_body dms mas mmu exp ipm merge_scrm weight_scrm) s
    = Some (Ok tt s') /\
    turns (loop_body dms mas mmu exp ipm merge_scrm weight_scrm) s s' /\
    edge_heap s' = [].
Proof.
  intros Hdms. revert s.
  induction fuel as [|fuel IH]; intros s Hinv Hm.
  - unfold measure in Hm. destruct (edge_heap s) eqn:Hh; simpl in Hm; [|lia].
    exists s. simpl. rewrite Hh. split; [done|]. split; [constructor|done].
  - destruct (edge_heap s) as [|h0 heap0] eqn:Hh.
    + exists s. simpl. rewrite Hh. split; [done|]. split; [constructor|done].
    + destruct (loop_turn dms mas mmu exp ipm T s Hinv) as
        (s1 & Hrun & Hinv1 & Hlt & _); [by rewrite Hh|done|].
      destruct (IH s1 Hinv1) as (s' & Hloop & Hturns & Hemp); [lia|].
      exists s'. simpl. rewrite Hh, Hrun. split; [done|]. split; [|done].
      eapply turns_step; [by rewrite Hh|done..].
Qed.

(** ** Initialisation *)

(** Sum of a quantity over the nodes named by a list of keys *)
Definition key_sum (g : NodeData -> Z) (nodes : list (Z * option NodeData))
    (ns : list Z) : Z :=
  foldr (fun n acc => match dget n nodes with
                      | Some (Some d) => g d + acc
                      | _ => acc
                      end) 0 ns.

Lemma key_sum_node_sum g nodes :
  NoDup (dkeys nodes) -> key_sum g nodes (dkeys nodes) = node_sum g nodes.
Proof.
  assert (forall pre post, NoDup (dkeys (pre ++ post)) ->
    key_sum g (pre ++ post) (dkeys post) = node_sum g post) as Hgen.
  { intros pre post. revert pre.
    induction post as [|[k o] post IH]; intros pre Hnd; [done|].
    simpl. specialize (IH (pre ++ [(k, o)])).
    rewrite <- app_assoc in IH. simpl in IH. rewrite IH by done.
    assert (dget k (pre ++ (k, o) :: post) = Some o) as ->; [|done].
    clear IH. induction pre as [|[k' o'] pre IH]; simpl.
    - by rewrite Z.eqb_refl.
    - unfold dkeys in Hnd. simpl in Hnd. apply NoDup_cons in Hnd as [Hk Hnd].
      destruct (Z.eqb_spec k k') as [->|Hne]; [|by apply IH].
      exfalso. apply Hk. rewrite fmap_app. apply elem_of_app. right. left. }
  apply (Hgen []).
Qed.

Lemma scan_areas_run ns mmu t s num area :
  g_num_ge_mmu s = Some num -> g_area_lt_mmu s = Some area ->
  (forall n, n ∈ ns -> exists d, dget n (g_node s) = Some (Some d)) ->
  scan_areas ns mmu t s
  = Ok (t + key_sum pixel_count (g_node s) ns)
       (set_area_lt_mmu
          (Some (area + key_sum (fun d => b2z (pixel_count d <? mmu)
                                          * pixel_count d) (g_node s) ns))
          (set_num_ge_mmu
             (Some (num + key_sum (fun d => b2z (mmu <=? pixel_count d))
                            (g_node s) ns)) s)).
Proof.
  revert t s num area.
  induction ns as [|n ns IH]; intros t s num area Hnum Harea Hat; simpl.
  - unfold ret. rewrite !Z.add_0_r, <- Hnum, <- Harea. by destruct s.
  - destruct (Hat n) as [d Hd]; [left|].
    rewrite (bind_ok _ _ _ _ _ (node_attrs_run _ _ _ Hd)). rewrite Hd.
    assert (forall x, x ∈ ns -> exists d, dget x (g_node s) = Some (Some d))
      as Hat' by (intros; apply Hat; by right).
    destruct (pixel_count d <? mmu) eqn:Hlt.
    + assert (mmu <=? pixel_count d = false) as -> by lia.
      unfold bind at 1, bind at 1, graph_area_lt_mmu, lift_opt, modify.
      rewrite Harea. simpl.
      rewrite (IH _ _ num (area + pixel_count d)); [|done..].
      simpl. unfold b2z. f_equal; [lia|].
      unfold set_area_lt_mmu, set_num_ge_mmu. simpl. do 2 f_equal; lia.
    + assert (mmu <=? pixel_count d = true) as -> by lia.
      unfold bind at 1, bind at 1, graph_num_ge_mmu, lift_opt, modify.
      rewrite Hnum. simpl.
      rewrite (IH _ _ (num + 1) area); [|done..].
      simpl. unfold b2z. f_equal; [lia|].
      unfold set_area_lt_mmu, set_num_ge_mmu. simpl. do 2 f_equal; lia.
Qed.

(** *** The edges that [rag.edges] enumerates *)

Lemma dget_mid {V} (pre post : list (Z * V)) k v :
  k ∉ dkeys pre -> dget k (pre ++ (k, v) :: post) = Some v.
Proof.
  induction pre as [|[k' v'] pre IH]; simpl.
  - by rewrite Z.eqb_refl.
  - unfold dkeys in *. simpl. rewrite not_elem_of_cons. intros [Hne Hk].
    destruct (Z.eqb_spec k k'); [done|]. by apply IH.
Qed.

Lemma dget_elem {V} (d : list (Z * V)) k v :
  NoDup (dkeys d) -> (k, v) ∈ d -> dget k d = Some v.
Proof.
  intros Hnd (pre & post & ->)%list_elem_of_split.
  apply dget_mid. unfold dkeys in Hnd. rewrite fmap_app in Hnd.
  apply NoDup_app in Hnd as (_ & Hnd & _). intros Hk. apply (Hnd k Hk). left.
Qed.

Lemma dget_split {V} (d : list (Z * V)) k v :
  dget k d = Some v ->
  exists pre post, d = pre ++ (k, v) :: post /\ k ∉ dkeys pre.
Proof.
  induction d as [|[k' v'] d IH]; simpl; [done|].
  destruct (Z.eqb_spec k k') as [->|Hne].
  - intros [= ->]. exists [], d. split; [done|]. apply not_elem_of_nil.
  - intros (pre & post & -> & Hk)%IH. exists ((k', v') :: pre), post.
    split; [done|]. unfold dkeys. simpl. by apply not_elem_of_cons.
Qed.

Lemma edges_from_elem seen adj n x r :
  (n, x, r) ∈ edges_from seen adj <->
  exists pre row post,
    adj = pre ++ (n, row) :: post /\ (x, r) ∈ row /\
    x ∉ seen /\ x ∉ dkeys pre.
Proof.
  revert seen. induction adj as [|[n0 row0] rest IH]; intros seen; simpl.
  - split; [by intros ?%elem_of_nil|].
    intros (pre & row & post & H & _). by destruct pre.
  - rewrite elem_of_app, IH, list_elem_of_fmap. split.
    + intros [([x' r'] & [= -> -> ->] & [Hs Hin]%list_elem_of_filter)
             |(pre & row & post & -> & Hin & Hs & Hp)].
      * exists [], row0, rest. simpl in *.
        split; [done|]. split; [done|]. split; [done|apply not_elem_of_nil].
      * exists ((n0, row0) :: pre), row, post.
        apply not_elem_of_cons in Hs as [Hs1 Hs2].
        split; [done|]. split; [done|]. split; [done|].
        unfold dkeys. simpl. by apply not_elem_of_cons.
    + intros (pre & row & post & Heq & Hin & Hs & Hp).
      destruct pre as [|[n1 row1] pre]; simpl in Heq; simplify_eq.
      * left. exists (x, r). split; [done|]. by apply list_elem_of_filter.
      * right. exists pre, row, post.
        unfold dkeys in Hp. simpl in Hp. apply not_elem_of_cons in Hp as [? ?].
        split; [done|]. split; [done|]. split; [|done].
        by apply not_elem_of_cons.
Qed.

Lemma edges_from_NoDup seen adj :
  NoDup (dkeys adj) ->
  (forall n row, (n, row) ∈ adj -> NoDup (dkeys row)) ->
  NoDup (edges_from seen adj).
Proof.
  revert seen. induction adj as [|[n0 row0] rest IH]; intros seen Hnd Hrows;
    simpl; [constructor|].
  unfold dkeys in Hnd. simpl in Hnd. apply NoDup_cons in Hnd as [Hn0 Hnd].
  apply NoDup_app. split; [|split].
  - apply NoDup_fmap_2.
    + intros [a b] [a' b'] [= -> ->]. done.
    + apply NoDup_filter. apply (NoDup_fmap_1 fst). apply (Hrows n0). left.
  - intros [[n x] r] ([x' r'] & [= -> -> ->] & _)%list_elem_of_fmap
      (pre & row & post & -> & _)%edges_from_elem.
    apply Hn0. rewrite fmap_app. apply elem_of_app. right. left.
  - apply IH; [done|]. intros n row Hin. apply (Hrows n row). by right.
Qed.

Section EdgesFrom.
Variable s : St.
Hypothesis Hg : graph_ok s.

Lemma edges_from_sound n1 n2 r :
  (n1, n2, r) ∈ edges_from [] (g_adj s) -> adj_ref s n1 n2 = Some r.
Proof.
  intros (pre & row & post & Heq & Hin & _ & _)%edges_from_elem.
  assert (dget n1 (g_adj s) = Some row) as Hrow.
  { apply dget_elem; [apply Hg|]. rewrite Heq. apply elem_of_app. right. left. }
  apply adj_ref_Some. exists row. split; [done|].
  apply dget_elem; [by eapply gk_rows|done].
Qed.

Lemma edges_from_complete u v r :
  adj_ref s u v = Some r ->
  (u, v, r) ∈ edges_from [] (g_adj s) \/ (v, u, r) ∈ edges_from [] (g_adj s).
Proof.
  intros Huv. pose proof (gk_sym _ Hg _ _ _ Huv) as Hvu.
  apply adj_ref_Some in Huv as (ru & Hru & Hv).
  apply adj_ref_Some in Hvu as (rv & Hrv & Hu).
  destruct (dget_split _ _ _ Hru) as (pre & post & Heq & Hpre).
  destruct (decide (v ∈ dkeys pre)) as [Hin|Hnin].
  - right. apply edges_from_elem.
    apply dget_is_Some in Hin as [rv' Hrv'].
    destruct (dget_split _ _ _ Hrv') as (pre1 & pre2 & Heq1 & Hpre1).
    exists pre1, rv', (pre2 ++ (u, ru) :: post).
    assert (g_adj s = pre1 ++ (v, rv') :: pre2 ++ (u, ru) :: post) as Hadj.
    { rewrite Heq, Heq1, <- app_assoc. done. }
    assert (rv' = rv) as ->.
    { rewrite Hadj, dget_mid in Hrv by done. congruence. }
    split; [done|]. split; [by apply dget_Some_elem|].
    split; [apply not_elem_of_nil|].
    intros Hu1. rewrite Heq1 in Hpre. apply Hpre.
    unfold dkeys. rewrite fmap_app. apply elem_of_app. by left.
  - left. apply edges_from_elem. exists pre, ru, post.
    split; [done|]. split; [by apply dget_Some_elem|].
    split; [apply not_elem_of_nil|done].
Qed.

Lemma edges_from_refs_NoDup : NoDup ((fun e => snd e) <$> edges_from [] (g_adj s)).
Proof.
  apply NoDup_fmap_2_strong.
  - intros [[u v] r] [[u' v'] r'] H1 H2. simpl. intros <-.
    pose proof (edges_from_sound _ _ _ H1) as Hr1.
    pose proof (edges_from_sound _ _ _ H2) as Hr2.
    destruct (gk_inj _ Hg _ _ _ _ _ Hr1 Hr2) as [[-> ->]|[-> ->]]; [done|].
    exfalso.
    assert (u' <> v') as Hne.
    { intros ->. by rewrite (gk_loop _ Hg) in Hr1. }
    apply edges_from_elem in H1 as (pre1 & row1 & post1 & Heq1 & _ & _ & Hp1).
    apply edges_from_elem in H2 as (pre2 & row2 & post2 & Heq2 & _ & _ & Hp2).
    assert (g_adj s !! length pre1 = Some (v', row1)) as Hl1.
    { rewrite Heq1. by rewrite list_lookup_middle. }
    assert (g_adj s !! length pre2 = Some (u', row2)) as Hl2.
    { rewrite Heq2. by rewrite list_lookup_middle. }
    destruct (Nat.lt_trichotomy (length pre1) (length pre2)) as [Hlt|[Heq|Hlt]].
    + rewrite Heq2, lookup_app_l in Hl1 by done.
      apply list_elem_of_lookup_2 in Hl1. apply Hp2.
      apply (list_elem_of_fmap_2 fst) in Hl1. done.
    + rewrite Heq in Hl1. congruence.
    + rewrite Heq1, lookup_app_l in Hl2 by done.
      apply list_elem_of_lookup_2 in Hl2. apply Hp1.
      apply (list_elem_of_fmap_2 fst) in Hl2. done.
  - apply edges_from_NoDup; [apply Hg|].
    intros n row Hin. apply (gk_rows _ Hg n). apply dget_elem; [apply Hg|done].
Qed.
End EdgesFrom.

(** *** From the caller's graph to the invariant of the loop *)

(** What [merge_size_constrained] expects of the graph it is given: a
    well-formed graph whose nodes carry their attributes and whose edges
    have not been queued yet, no heap item being allocated. *)
Record input_ok (s : St) : Prop := mk_input_ok {
  in_graph : graph_ok s;
  in_attrs : attrs_ok s;
  in_max_id : max_id_ok s;
  in_items : items s = [];
  in_fresh : forall r ed, edata s !! r = Some ed -> ed_heap_item ed = None }.

(** Lines 103 to 108 for one edge *)
Definition queue_edge (e : Z * Z * nat) : Cmd unit :=
  let '(n1, n2, r) := e in
  data <~ edge_data r ;;
  h <~ new_item (ed_weight data) n1 n2 ;;
  push_item h ;;;
  set_heap_item r h.

Lemma queue_edge_run s n1 n2 r data :
  edata s !! r = Some data ->
  queue_edge (n1, n2, r) s
  = Ok tt (set_edata
             (<[r := mkEdge (ed_weight data) (Some (length (items s)))]>
                (edata s))
             (set_edge_heap
                (heappush
                   (ref_lt (items s ++ [mkItem (ed_weight data) n1 n2 true]))
                   (edge_heap s) (length (items s)))
                (set_items (items s ++ [mkItem (ed_weight data) n1 n2 true])
                   s))).
Proof.
  intros Hed.
  unfold queue_edge, set_heap_item, push_item, new_item, edge_data, lift_opt,
    modify, bind. simpl. rewrite Hed. simpl. by rewrite Hed.
Qed.

(** What holds once the edges in [done] have been queued *)
Definition init_inv (s : St) (done : list (Z * Z * nat)) (s' : St) : Prop :=
  g_node s' = g_node s /\ g_adj s' = g_adj s /\ max_id s' = max_id s /\
  g_num_ge_mmu s' = g_num_ge_mmu s /\ g_area_lt_mmu s' = g_area_lt_mmu s /\
  length (edata s') = length (edata s) /\
  items_in_range s' /\ heap_in_range s' /\
  (forall h it, items s' !! h = Some it ->
     exists r ed, (hi_n1 it, hi_n2 it, r) ∈ done /\
                  edata s' !! r = Some ed /\ ed_heap_item ed = Some h) /\
  (forall e, e ∈ done ->
     exists ed h, edata s' !! (snd e) = Some ed /\ ed_heap_item ed = Some h).

Lemma init_inv_step s done n1 n2 r s' :
  (r < length (edata s))%nat ->
  r ∉ (fun e => snd e) <$> done ->
  init_inv s done s' ->
  exists s'', queue_edge (n1, n2, r) s' = Ok tt s'' /\
              init_inv s (done ++ [(n1, n2, r)]) s''.
Proof.
  intros Hlt Hr (Hn & Ha & Hmx & Hc1 & Hc2 & Hlen & Hit & Hhp & Hitems & Hq).
  rewrite <- Hlen in Hlt. apply lookup_lt_is_Some in Hlt as Hd.
  destruct Hd as [data Hdata].
  eexists. split; [by apply queue_edge_run|].
  set (new := mkItem (ed_weight data) n1 n2 true).
  assert (forall r0, r0 ∈ (fun e => snd e) <$> done -> r0 <> r) as Hne
    by (by intros r0 H0 ->).
  repeat split; try done; simpl.
  - by rewrite length_insert.
  - intros r' ed' h. simpl. rewrite length_app. simpl.
    destruct (decide (r' = r)) as [->|Hr'].
    + rewrite list_lookup_insert_eq by done. intros [= <-]. simpl.
      intros [= <-]. lia.
    + rewrite list_lookup_insert_ne by done. intros H1 H2.
      pose proof (Hit _ _ _ H1 H2). lia.
  - intros h. simpl. rewrite heappush_perm, length_app. simpl.
    intros [->|Hh]%elem_of_cons; [lia|]. apply Hhp in Hh. lia.
  - intros h it Hh. apply lookup_app_Some in Hh as [Hh|[Hge Hh]].
    + destruct (Hitems h it Hh) as (r0 & ed & Hin & Hed & Hi).
      exists r0, ed. split; [apply elem_of_app; by left|].
      split; [|done]. rewrite list_lookup_insert_ne; [done|].
      intros <-. eapply Hne; [|done].
      by apply (list_elem_of_fmap_2 (fun e => snd e)) in Hin.
    + apply list_lookup_singleton_Some in Hh as [Hz <-].
      exists r, (mkEdge (ed_weight data) (Some (length (items s')))).
      split; [apply elem_of_app; right; left|].
      split; [by apply list_lookup_insert_eq|]. simpl. f_equal. lia.
  - intros e [He| ->%list_elem_of_singleton]%elem_of_app.
    + destruct (Hq e He) as (ed & h & Hed & Hh). exists ed, h.
      split; [|done]. rewrite list_lookup_insert_ne; [done|].
      intros Heq. apply (Hne (snd e)); [|done].
      by apply (list_elem_of_fmap_2 (fun e => snd e)) in He.
    + simpl. eexists _, _. split; [by apply list_lookup_insert_eq|done].
Qed.

Lemma queue_edges_ok s :
  graph_ok s -> items s = [] ->
  (forall r ed, edata s !! r = Some ed -> ed_heap_item ed = None) ->
  edge_heap s = [] ->
  exists s',
    for_each (edges_from [] (g_adj s)) queue_edge s = Ok tt s' /\
    init_inv s (edges_from [] (g_adj s)) s'.
Proof.
  intros Hg Hitems Hfresh Hheap.
  apply (for_each_ok (init_inv s)).
  - repeat split; try done.
    + intros r ed h Hed Hh. rewrite (Hfresh _ _ Hed) in Hh. done.
    + intros h. rewrite Hheap. by intros ?%elem_of_nil.
    + intros h it. rewrite Hitems. done.
    + by intros e ?%elem_of_nil.
  - intros done [[n1 n2] r] rest s' Hl Hinv.
    pose proof (edges_from_refs_NoDup s Hg) as Hnd.
    rewrite Hl, fmap_app in Hnd. apply NoDup_app in Hnd as (_ & Hnd & _).
    apply init_inv_step; [| |done].
    + apply (gk_range _ Hg n1 n2), edges_from_sound; [done|].
      rewrite Hl. apply elem_of_app. right. left.
    + intros Hin. apply (Hnd r Hin). simpl. left.
Qed.

Lemma initialise_ok dms mmu s :
  input_ok s -> dms <> 0 ->
  exists s',
    initialise dms mmu s = Ok (total_pixels (g_node s) / dms) s' /\
    loop_inv mmu (total_pixels (g_node s)) s' /\
    g_node s' = g_node s /\ g_adj s' = g_adj s /\
    partial_stop s' = false.
Proof.
  intros [Hg Hat Hmax Hitems Hfresh] Hdms.
  unfold initialise.
  unfold bind at 1, modify at 1. unfold bind at 1, modify at 1.
  unfold bind at 1, modify at 1. unfold bind at 1, get at 1.
  set (sa := set_area_lt_mmu (Some 0)
               (set_num_ge_mmu (Some 0) (set_edge_heap [] s))).
  rewrite (bind_ok _ _ _ _ _
    (scan_areas_run (dkeys (g_node sa)) mmu 0 sa 0 0 eq_refl eq_refl Hat)).
  simpl g_node. rewrite !key_sum_node_sum by apply Hg. rewrite !Z.add_0_l.
  apply Z.eqb_neq in Hdms. rewrite Hdms.
  unfold bind at 1, ret at 1. unfold bind at 1, get at 1.
  set (sb := set_area_lt_mmu _ _).
  destruct (queue_edges_ok sb) as (sc & Hrun & Hinv); try done.
  { by apply (graph_ok_ext s). }
  change (g_adj sb) with (g_adj s) in *.
  change (for_each (edges_from [] (g_adj s))
            (fun e => let '(n1, n2, r) := e in
                      data <~ edge_data r ;;
                      h <~ new_item (ed_weight data) n1 n2 ;;
                      push_item h ;;; set_heap_item r h))
    with (for_each (edges_from [] (g_adj s)) queue_edge).
  rewrite (bind_ok _ _ _ _ _ Hrun).
  unfold bind, modify, ret.
  destruct Hinv as (Hn & Ha & Hmx & Hc1 & Hc2 & Hlen & Hit & Hhp & Hitm & Hq).
  eexists. split; [done|].
  subst sb sa. simpl in Hn, Ha, Hmx, Hc1, Hc2, Hlen.
  assert (graph_ok sc) as Hgc.
  { apply (graph_ok_ext s); [by rewrite Hn|done..]. }
  assert (forall u v, adj_ref sc u v = adj_ref s u v) as Hrf
    by (intros; by apply adj_ref_ext).
  split; [|by simpl].
  split; simpl.
  - apply (mid_inv_ext sc); try done;
      [|intros n; simpl; rewrite Hn; apply Hat].
    split; try done.
    + intros n. rewrite Hn. apply Hat.
    + intros h it Hh _. destruct (Hitm h it Hh) as (r & ed & Hin & Hed & Hi).
      apply (edges_from_sound s Hg) in Hin.
      unfold edge_item. by rewrite Hrf, Hin, Hed.
    + intros u v [r Hr] _ _. rewrite Hrf in Hr.
      assert (exists e, e ∈ edges_from [] (g_adj s) /\ snd e = r) as (e & He & <-).
      { destruct (edges_from_complete s Hg u v r Hr); eauto. }
      destruct (Hq e He) as (ed & h & Hed & Hh).
      unfold edge_item. rewrite Hrf, Hr, Hed. eauto.
    + intros h it _ _. split; intros [].
  - intros n. simpl. rewrite Hn, Hmx. apply Hmax.
  - split; simpl; [by rewrite Hc1, Hn|by rewrite Hc2, Hn].
  - by rewrite Hn.
Qed.

(** ** The invariants of a run *)

(** C1.  Aggregate consistency: on a well-formed graph and with [dms]
    different from zero, the initialisation returns, and in every state at
    the head of the loop (after any number of complete turns, the end of
    the loop included) the counter [num_ge_mmu] is the number of live
    regions with at least [mmu] pixels and the counter [area_lt_mmu] is the
    area of the live regions with fewer than [mmu] pixels, both counted
    afresh; from every such state with a non-empty heap the next turn
    returns. *)
Theorem aggregates_consistent dms mas mmu ipm s0 :
  input_ok s0 -> dms <> 0 ->
  exists exp s1,
    initialise dms mmu s0 = Ok exp s1 /\
    forall s,
      turns (loop_body dms mas mmu exp ipm merge_scrm weight_scrm) s1 s ->
      g_num_ge_mmu s = Some (count_ge_mmu mmu (g_node s)) /\
      g_area_lt_mmu s = Some (area_below_mmu mmu (g_node s)) /\
      (edge_heap s <> [] ->
       exists s',
         loop_body dms mas mmu exp ipm merge_scrm weight_scrm s = Ok tt s').
Proof.
  intros Hin Hdms.
  destruct (initialise_ok dms mmu s0 Hin Hdms) as (s1 & Hrun & Hinv & _).
  eexists _, s1. split; [done|]. intros s Hturns.
  pose proof (turns_inv _ _ _ _ _ _ _ _ Hdms Hturns Hinv) as Hs.
  destruct (li_counters _ _ _ Hs) as [H1 H2].
  split; [done|]. split; [done|]. intros Hne.
  destruct (loop_turn dms mas mmu (total_pixels (g_node s0) / dms) ipm _ s
              Hs Hne Hdms) as (s' & Hs' & _).
  eauto.
Qed.

(** C6.  Area conservation: the initialisation computes [total_area] as
    the sum of the pixel counts of the regions it is given (it returns
    [total_area // dms]), and in every state at the head of the loop, after
    any number of complete turns, the pixel counts of the live regions
    still sum to it. *)
Theorem area_conserved dms mas mmu ipm s0 :
  input_ok s0 -> dms <> 0 ->
  exists s1,
    initialise dms mmu s0 = Ok (total_pixels (g_node s0) / dms) s1 /\
    total_pixels (g_node s1) = total_pixels (g_node s0) /\
    forall s,
      turns (loop_body dms mas mmu (total_pixels (g_node s0) / dms) ipm
               merge_scrm weight_scrm) s1 s ->
      total_pixels (g_node s) = total_pixels (g_node s0).
Proof.
  intros Hin Hdms.
  destruct (initialise_ok dms mmu s0 Hin Hdms) as (s1 & Hrun & Hinv & _).
  exists s1. split; [done|]. split; [apply Hinv|]. intros s Hturns.
  apply (turns_inv _ _ _ _ _ _ _ _ Hdms Hturns Hinv).
Qed.


(** ** The relabelled array *)

Lemma relabel_state arr s regions s' : relabel arr s = Ok regions s' -> s' = s.
Proof.
  unfold relabel, lift_opt, ret, raise. repeat case_match; congruence.
Qed.

Lemma write_labels_spec ix ls lm lm' :
  write_labels ix ls lm = inr lm' ->
  length lm' = length lm /\
  (forall p v, lm' !! p = Some v -> v = ix \/ lm !! p = Some v) /\
  (forall y p, y ∈ ls -> np_index (length lm) y = Some p ->
     lm' !! p = Some ix).
Proof.
  revert lm. induction ls as [|y ls IH]; intros lm; simpl.
  - intros [= <-]. split; [done|]. split; [auto|].
    by intros y p ?%elem_of_nil.
  - destruct (np_index (length lm) y) as [i|] eqn:Hi; [|done].
    intros (Hlen & Hold & Hnew)%IH. rewrite length_insert in Hlen, Hnew.
    assert (i < length lm)%nat as Hlt.
    { unfold np_index in Hi. repeat case_match; simplify_eq; lia. }
    split; [done|]. split.
    + intros p v Hp. destruct (Hold p v Hp) as [->|Hp']; [by left|].
      destruct (decide (p = i)) as [->|Hne].
      * rewrite list_lookup_insert_eq in Hp' by done. left. congruence.
      * rewrite list_lookup_insert_ne in Hp' by done. by right.
    + intros y' p [->|Hy']%elem_of_cons Hp; [|by eapply Hnew].
      assert (p = i) as -> by congruence.
      assert (is_Some (lm' !! i)) as [v Hv]
        by (apply lookup_lt_is_Some; lia).
      destruct (Hold i v Hv) as [->|Hv']; [done|].
      rewrite list_lookup_insert_eq in Hv' by done. congruence.
Qed.

Lemma build_label_map_spec ix nodes lm lm' :
  build_label_map ix nodes lm = inr lm' ->
  length lm' = length lm /\
  (forall p v, lm' !! p = Some v ->
     ix <= v < ix + Z.of_nat (length nodes) \/ lm !! p = Some v) /\
  (forall k d y p, (k, Some d) ∈ nodes -> y ∈ labels d ->
     np_index (length lm) y = Some p ->
     exists v, lm' !! p = Some v /\ ix <= v < ix + Z.of_nat (length nodes)).
Proof.
  revert ix lm. induction nodes as [|[k0 [d0|]] nodes IH]; intros ix lm; simpl;
    [|  |done].
  - intros [= <-]. split; [done|]. split; [auto|].
    by intros k d y p ?%elem_of_nil.
  - destruct (write_labels ix (labels d0) lm) as [e|lm1] eqn:Hw; [done|].
    apply write_labels_spec in Hw as (Hlen1 & Hold1 & Hnew1).
    intros (Hlen & Hold & Hnew)%IH. rewrite Hlen1 in Hlen, Hnew.
    split; [done|]. split.
    + intros p v Hp. destruct (Hold p v Hp) as [?|Hp']; [left; lia|].
      destruct (Hold1 p v Hp') as [->|?]; [left; lia|by right].
    + intros k d y p [[= -> ->]|Hin]%elem_of_cons Hy Hp.
      * pose proof (Hnew1 y p Hy Hp) as Hp1.
        assert (is_Some (lm' !! p)) as [v Hv].
        { apply lookup_lt_is_Some. rewrite Hlen, <- Hlen1.
          by eapply lookup_lt_Some. }
        exists v. split; [done|].
        destruct (Hold p v Hv) as [?|Hv']; [lia|].
        assert (v = ix) as -> by congruence. lia.
      * destruct (Hnew k d y p Hin Hy Hp) as (v & Hv & ?).
        exists v. split; [done|lia].
Qed.

(** Label [x] belongs to one of the regions. *)
Definition label_covered (nodes : list (Z * option NodeData)) (x : Z) : bool :=
  existsb (fun p => match snd p with
                    | Some d => bool_decide (x ∈ labels d)
                    | None => false
                    end) nodes.

Definition all_covered (nodes : list (Z * option NodeData))
    (arr : list (list Z)) : bool :=
  forallb (forallb (label_covered nodes)) arr.

Lemma relabel_ids arr s regions s' :
  relabel arr s = Ok regions s' ->
  all_covered (g_node s) arr = true ->
  Forall (Forall (fun x => 0 <= x < Z.of_nat (length (g_node s)))) regions.
Proof.
  unfold relabel. destruct (array_max arr) as [m|]; [|done].
  destruct (build_label_map 0 (g_node s) (seqZ 0 (m + 1))) as [e|lm] eqn:Hb;
    [done|].
  apply build_label_map_spec in Hb as (Hlen & _ & Hnew).
  unfold take_labels, lift_opt.
  destruct (mapM _ arr) as [out|] eqn:Hout; [|done].
  intros [= <- <-] Hcov. unfold all_covered in Hcov.
  rewrite forallb_forall in Hcov.
  apply mapM_Some_1 in Hout.
  induction Hout as [|row orow arr' out' Hrow _ IH]; [constructor|].
  constructor.
  - assert (forallb (label_covered (g_node s)) row = true) as Hr
      by (apply Hcov; by left).
    rewrite forallb_forall in Hr. apply mapM_Some_1 in Hrow.
    clear IH Hcov.
    induction Hrow as [|x y row' orow' Hxy _ IH']; constructor.
    + assert (label_covered (g_node s) x = true) as Hx
        by (apply Hr; by left).
      unfold label_covered in Hx. apply existsb_exists in Hx as ([k o] & Hin & Ho).
      simpl in Ho. destruct o as [d|]; [|done].
      apply bool_decide_eq_true in Ho. apply list_elem_of_In in Hin.
      destruct (np_index (length lm) x) as [p|] eqn:Hp; [|done]. simpl in Hxy.
      rewrite Hlen in Hp.
      destruct (Hnew k d x p Hin Ho Hp) as (v & Hv & Hrange).
      assert (y = v) as -> by congruence. lia.
    + apply IH'. intros z Hz. apply Hr. by right.
  - apply IH. intros z Hz. apply Hcov. by right.
Qed.

Lemma astype_int16_small x : 0 <= x <= 32767 -> astype_int16 x = x.
Proof. intros H. unfold astype_int16. rewrite Z.mod_small; lia. Qed.

Lemma astype_int16_fixed regions :
  Forall (Forall (fun x => 0 <= x <= 32767)) regions ->
  map (map astype_int16) regions = regions.
Proof.
  induction 1 as [|row regions Hrow _ IH]; [done|]. simpl. f_equal; [|done].
  induction Hrow as [|x row Hx _ IH']; [done|]. simpl.
  f_equal; [by apply astype_int16_small|done].
Qed.

(** ** Degenerate and invalid inputs *)

Lemma array_max_const arr l :
  concat arr <> [] -> Forall (Forall (eq l)) arr -> array_max arr = Some l.
Proof.
  intros Hne Hall. unfold array_max.
  assert (Forall (eq l) (concat arr)) as Hc by by apply Forall_concat.
  destruct (concat arr) as [|x xs]; [done|].
  apply Forall_cons in Hc as [<- Hxs]. f_equal. clear Hne.
  induction Hxs as [|y ys <- _ IH]; simpl; [done|]. rewrite IH. lia.
Qed.

Lemma take_labels_const lm arr l p (v : Z) :
  np_index (length lm) l = Some p -> lm !! p = Some v ->
  Forall (Forall (eq l)) arr ->
  take_labels lm arr = Some (map (map (fun _ => v)) arr).
Proof.
  intros Hp Hv Hall. unfold take_labels.
  apply mapM_Some_2. apply Forall2_fmap_r, Forall_Forall2_diag.
  eapply Forall_impl; [exact Hall|]. intros row Hrow. simpl.
  apply mapM_Some_2. apply Forall2_fmap_r, Forall_Forall2_diag.
  eapply Forall_impl; [exact Hrow|]. intros x <-. simpl.
  rewrite Hp. done.
Qed.

(** The state in which a run with [dms = 0] stops: the heap list is empty
    and the two counters have been written. *)
Definition counted (mmu : Z) (s : St) : St :=
  set_area_lt_mmu (Some (area_below_mmu mmu (g_node s)))
    (set_num_ge_mmu (Some (count_ge_mmu mmu (g_node s)))
       (set_edge_heap [] s)).



(** C8.  A single region: when the graph handed to
    [merge_size_constrained] has one node [l] without edges, whose label
    list is [[l]], and every element of the (non-empty) label array is
    [l], the run returns, for any bound on the number of turns (zero
    included: the heap is empty after the initialisation, no turn is made
    and no merge), the node is left as it was, and the output is the label
    array with every [l] replaced by [0]. *)
Theorem single_region l d E c1 c2 m its hp ps arr dms mas mmu rag_copy ipm
    fuel :
  labels d = [l] -> 0 <= l -> dms <> 0 ->
  concat arr <> [] -> Forall (Forall (eq l)) arr ->
  exists s',
    merge_size_constrained fuel arr dms mas mmu rag_copy ipm
      merge_scrm weight_scrm
      (mkSt [(l, Some d)] [(l, [])] E c1 c2 m its hp ps)
    = Some (Ok (map (map (fun _ => 0)) arr) s') /\
    g_node s' = [(l, Some d)] /\ g_adj s' = [(l, [])] /\
    edata s' = E /\ items s' = its /\ edge_heap s' = [].
Proof.
  intros Hlab Hl Hdms Hne Hall.
  apply Z.eqb_neq in Hdms.
  assert (forall s1 : St,
    g_node s1 = [(l, Some d)] -> edge_heap s1 = [] ->
    forall b,
    match main_loop fuel
            (loop_body dms mas mmu (pixel_count d / dms) b
               merge_scrm weight_scrm) s1 with
    | None => None
    | Some (Err e s2) => Some (Err e s2)
    | Some (Ok _ s2) => Some (relabel arr s2)
    end = Some (Ok (map (map (fun _ => 0)) arr) s1)) as Htail.
  { intros s1 Hn Hh b.
    assert (main_loop fuel
              (loop_body dms mas mmu (pixel_count d / dms) b
                 merge_scrm weight_scrm) s1 = Some (Ok tt s1)) as ->.
    { destruct fuel; simpl; by rewrite Hh. }
    unfold relabel. rewrite (array_max_const arr l) by done. rewrite Hn.
    simpl. rewrite Hlab. simpl.
    assert (np_index (length (seqZ 0 (l + 1))) l = Some (Z.to_nat l)) as Hp.
    { unfold np_index. rewrite length_seqZ.
      assert ((0 <=? l) && (l <? Z.of_nat (Z.to_nat (l + 1))) = true) as ->;
        [|done].
      apply andb_true_iff. split; [apply Z.leb_le|apply Z.ltb_lt]; lia. }
    rewrite Hp.
    rewrite (take_labels_const _ arr l (Z.to_nat l) 0); [done| |  |done].
    - by rewrite length_insert.
    - apply list_lookup_insert_eq. rewrite length_seqZ. lia. }
  set (s_end := mkSt [(l, Some d)] [(l, [])] E
                  (Some (b2z (mmu <=? pixel_count d)))
                  (Some (b2z (pixel_count d <? mmu) * pixel_count d))
                  m its [] false).
  assert (forall rc b,
    merge_size_constrained fuel arr dms mas mmu rc b merge_scrm weight_scrm
      (mkSt [(l, Some d)] [(l, [])] E c1 c2 m its hp ps)
    = Some (Ok (map (map (fun _ => 0)) arr) s_end)) as Hrun.
  { intros rc b. unfold merge_size_constrained, initialise.
    unfold bind, modify, get. simpl.
    unfold bind, modify, node_attrs, graph_area_lt_mmu, graph_num_ge_mmu,
      lift_opt, ret, raise. simpl.
    rewrite Z.eqb_refl. subst s_end.
    destruct (pixel_count d <? mmu) eqn:Hlt; simpl; rewrite Hdms; simpl.
    - assert (mmu <=? pixel_count d = false) as -> by lia.
      rewrite Htail by done. unfold b2z. by rewrite Z.mul_1_l.
    - assert (mmu <=? pixel_count d = true) as -> by lia.
      rewrite Htail by done. done. }
  exists s_end. split; [apply Hrun|done].
Qed.

Lemma merge_size_constrained_relabel fuel arr dms mas mmu rc ipm mf wf s
    regions s' :
  merge_size_constrained fuel arr dms mas mmu rc ipm mf wf s
  = Some (Ok regions s') ->
  relabel arr s' = Ok regions s'.
Proof.
  unfold merge_size_constrained. intros H.
  repeat case_match; simplify_eq.
  match goal with H : relabel _ _ = Ok _ _ |- _ =>
    pose proof (relabel_state _ _ _ _ H) as ->; exact H end.
Qed.

(** ** Runs in which every region is larger than [mas] *)

Lemma oversized_run dms mas mmu exp ipm T s :
  loop_inv mmu T s -> dms <> 0 ->
  (forall k d, dget k (g_node s) = Some (Some d) -> mas < pixel_count d) ->
  forall fuel, (length (edge_heap s) <= fuel)%nat ->
  exists s',
    main_loop fuel (loop_body dms mas mmu exp ipm merge_scrm weight_scrm) s
    = Some (Ok tt s') /\
    g_node s' = g_node s /\ g_adj s' = g_adj s /\ edge_heap s' = [].
Proof.
  intros Hinv Hdms Hbig fuel. revert s Hinv Hbig.
  induction fuel as [|fuel IH]; intros s Hinv Hbig Hfuel.
  - destruct (edge_heap s) eqn:Hh; simpl in Hfuel; [|lia].
    exists s. simpl. by rewrite Hh.
  - destruct (edge_heap s) as [|h0 heap0] eqn:Hh.
    { exists s. simpl. by rewrite Hh. }
    assert (edge_heap s <> []) as Hne by (by rewrite Hh).
    destruct (heappop_nonempty (ref_lt (items s)) (edge_heap s) Hne)
      as (h & heap' & Hpop).
    pose proof (heappop_perm _ _ _ _ Hpop) as Hperm.
    pose proof (Permutation_length Hperm) as Hlen. simpl in Hlen.
    assert (h ∈ edge_heap s) as Hin by (rewrite Hperm; left).
    destruct Hinv as [Hm Hmax Hc HT].
    apply (mi_heap _ _ _ Hm), lookup_lt_is_Some in Hin as [it Hit].
    assert (is_Some (g_num_ge_mmu s)) as Hnum
      by (destruct Hc as [-> _]; eauto).
    assert (is_Some (g_area_lt_mmu s)) as Harea
      by (destruct Hc as [_ ->]; eauto).
    assert (not_accepted mas mmu (latch_after dms exp s) s it) as Hrej.
    { destruct (hi_valid it) eqn:Hv; [right|by left].
      pose proof (mi_valid _ _ _ Hm h it Hit Hv) as He%edge_item_adj.
      destruct (adj_ref_nodes s _ _ (mi_graph _ _ _ Hm) He) as (Hn1 & Hn2 & _).
      destruct (mi_attrs _ _ _ Hm _ Hn1) as [d1 Hd1].
      destruct (mi_attrs _ _ _ Hm _ Hn2) as [d2 Hd2].
      exists d1, d2. split; [done|]. split; [done|].
      apply size_checks_both_above_mas; eauto. }
    pose proof (loop_body_discard dms mas mmu exp ipm merge_scrm weight_scrm
                  s h heap' it Hpop Hit Hnum Harea Hdms Hrej) as Hbody.
    set (s1 := set_partial_stop (latch_after dms exp s)
                 (set_edge_heap heap' s)) in *.
    destruct (IH s1) as (s' & Hloop & Hn & Ha & He).
    + apply loop_inv_popped; [done|]. intros x Hx. rewrite Hperm. by right.
    + done.
    + simpl. rewrite Hh in Hlen. simpl in *. lia.
    + exists s'. simpl. rewrite Hh, Hbody. done.
Qed.

(** ** The graph of a strip of regions in a row *)

(** Region [i] touches the regions [i - 1] and [i + 1]; the edge between
    [i] and [i + 1] has the attribute dictionary number [i]. *)
Definition path_row (n i : Z) : list (Z * nat) :=
  (if 0 <? i then [(i - 1, Z.to_nat (i - 1))] else [])
  ++ (if i <? n - 1 then [(i + 1, Z.to_nat i)] else []).

Definition path_graph (n : Z) (attrs : Z -> NodeData) (wt : Z -> W) : St :=
  mkSt (map (fun i => (i, Some (attrs i))) (seqZ 0 n))
       (map (fun i => (i, path_row n i)) (seqZ 0 n))
       (map (fun i => mkEdge (wt i) None) (seqZ 0 (n - 1)))
       None None (n - 1) [] [] false.

Lemma dkeys_tabulate {V} (f : Z -> V) (l : list Z) :
  dkeys (map (fun i => (i, f i)) l) = l.
Proof.
  unfold dkeys. induction l as [|x l IH]; simpl; [done|]. by rewrite IH.
Qed.

Lemma dget_tabulate {V} (f : Z -> V) (a n k : Z) :
  dget k (map (fun i => (i, f i)) (seqZ a n))
  = if decide (a <= k < a + n) then Some (f k) else None.
Proof.
  case_decide as Hk.
  - apply dget_elem; [rewrite dkeys_tabulate; apply NoDup_seqZ|].
    apply (list_elem_of_fmap_2 (fun i => (i, f i))). by apply elem_of_seqZ.
  - apply dget_None. rewrite dkeys_tabulate. by rewrite elem_of_seqZ.
Qed.

Lemma path_adj_ref n attrs wt u v r :
  adj_ref (path_graph n attrs wt) u v = Some r <->
  0 <= u < n /\ 0 <= v < n /\
  ((v = u + 1 /\ r = Z.to_nat u) \/ (u = v + 1 /\ r = Z.to_nat v)).
Proof.
  unfold adj_ref, path_graph. simpl. rewrite dget_tabulate.
  case_decide as Hu; [|split; [done|lia]].
  unfold path_row.
  destruct (Z.ltb_spec 0 u), (Z.ltb_spec u (n - 1)); simpl;
    try destruct (Z.eqb_spec v (u - 1)); try destruct (Z.eqb_spec v (u + 1));
    (split; [intros ?; simplify_eq; lia|intros ?; try f_equal; lia]).
Qed.

Lemma path_input_ok n attrs wt : input_ok (path_graph n attrs wt).
Proof.
  assert (Hadj := path_adj_ref n attrs wt).
  split; [split|..].
  - simpl. rewrite dkeys_tabulate. apply NoDup_seqZ.
  - simpl. rewrite dkeys_tabulate. apply NoDup_seqZ.
  - intros k. simpl. by rewrite !dkeys_tabulate.
  - intros u a. simpl. rewrite dget_tabulate. case_decide; [|done].
    intros [= <-]. unfold path_row, dkeys.
    destruct (0 <? u), (u <? n - 1); simpl; repeat constructor;
      rewrite ?elem_of_cons, ?elem_of_nil; lia.
  - intros u v r. rewrite !Hadj. lia.
  - intros u. destruct (adj_ref (path_graph n attrs wt) u u) as [r|] eqn:Hr;
      [|done].
    apply Hadj in Hr. lia.
  - intros u v r Hr%Hadj. simpl. rewrite length_map, length_seqZ. lia.
  - intros u v u' v' r H1%Hadj H2%Hadj. lia.
  - intros k. simpl. rewrite dkeys_tabulate, elem_of_seqZ, dget_tabulate.
    intros Hk. rewrite decide_True by done. eauto.
  - intros k. simpl. rewrite dkeys_tabulate, elem_of_seqZ. lia.
  - done.
  - intros r ed. simpl. rewrite list_lookup_fmap.
    destruct (seqZ 0 (n - 1) !! r); simpl; [|done]. by intros [= <-].
Qed.

(** *** The label map of a strip whose region [i] has the one label [i] *)

Lemma build_label_map_strip attrs n k a :
  (forall i, labels (attrs i) = [i]) ->
  0 <= a -> a + Z.of_nat k <= n ->
  build_label_map a
    (map (fun i => (i, Some (attrs i))) (seqZ a (Z.of_nat k)))
    (seqZ 0 n)
  = inr (seqZ 0 n).
Proof.
  intros Hlab. revert a. induction k as [|k IH]; intros a Ha Hn; [done|].
  rewrite seqZ_cons by lia. simpl. rewrite Hlab. simpl.
  assert (np_index (length (seqZ 0 n)) a = Some (Z.to_nat a)) as ->.
  { unfold np_index. rewrite length_seqZ.
    assert ((0 <=? a) && (a <? Z.of_nat (Z.to_nat n)) = true) as ->; [|done].
    apply andb_true_iff. split; [apply Z.leb_le|apply Z.ltb_lt]; lia. }
  rewrite list_insert_id by (apply lookup_seqZ; lia).
  replace (Z.pred (Z.of_nat (S k))) with (Z.of_nat k) by lia.
  replace (Z.succ a) with (a + 1) by lia.
  apply IH; lia.
Qed.

Lemma take_labels_identity n arr :
  Forall (Forall (fun x => 0 <= x < n)) arr ->
  take_labels (seqZ 0 n) arr = Some arr.
Proof.
  intros Hall. unfold take_labels.
  apply mapM_Some_2, Forall_Forall2_diag.
  eapply Forall_impl; [exact Hall|]. intros row Hrow. simpl.
  apply mapM_Some_2, Forall_Forall2_diag.
  eapply Forall_impl; [exact Hrow|]. intros x Hx. simpl in *.
  unfold np_index. rewrite length_seqZ.
  assert ((0 <=? x) && (x <? Z.of_nat (Z.to_nat n)) = true) as ->.
  { apply andb_true_iff. split; [apply Z.leb_le|apply Z.ltb_lt]; lia. }
  simpl. apply lookup_seqZ. lia.
Qed.

Lemma foldr_max_spec x xs :
  foldr Z.max x xs ∈ x :: xs /\ Forall (fun y => y <= foldr Z.max x xs) (x :: xs).
Proof.
  induction xs as [|y ys [Hin Hall]]; simpl.
  - split; [left|]. constructor; [lia|constructor].
  - apply Forall_cons in Hall as [Hx Hys].
    destruct (Z.max_spec y (foldr Z.max x ys)) as [[Hlt ->]|[Hle ->]].
    + split.
      * rewrite !elem_of_cons in *. tauto.
      * constructor; [done|]. constructor; [lia|done].
    + split; [right; left|].
      constructor; [lia|]. constructor; [lia|].
      eapply Forall_impl; [exact Hys|]. intros z Hz. simpl in *. lia.
Qed.

Lemma array_max_spec arr m :
  m ∈ concat arr -> Forall (fun x => x <= m) (concat arr) ->
  array_max arr = Some m.
Proof.
  unfold array_max. destruct (concat arr) as [|x xs]; [by intros ?%elem_of_nil|].
  intros Hin Hall. f_equal.
  destruct (foldr_max_spec x xs) as [Hin' Hall'].
  rewrite Forall_forall in Hall, Hall'.
  apply Hall in Hin'. apply Hall' in Hin. lia.
Qed.

(** A strip of [n] regions, each larger than [mas] and each with its own
    label: nothing is merged and the label array comes back as it is. *)
Lemma strip_run n attrs wt arr dms mas mmu :
  0 < n -> dms <> 0 ->
  (forall i, labels (attrs i) = [i]) ->
  (forall i, mas < pixel_count (attrs i)) ->
  (n - 1) ∈ concat arr -> Forall (Forall (fun x => 0 <= x < n)) arr ->
  exists fuel s',
    merge_size_constrained fuel arr dms mas mmu false true
      merge_scrm weight_scrm (path_graph n attrs wt)
    = Some (Ok arr s') /\
    g_node s' = g_node (path_graph n attrs wt).
Proof.
  intros Hn Hdms Hlab Hbig Hmax Hall.
  destruct (initialise_ok dms mmu _ (path_input_ok n attrs wt) Hdms)
    as (s1 & Hinit & Hinv & Hn1 & _).
  destruct (oversized_run dms mas mmu
              (total_pixels (g_node (path_graph n attrs wt)) / dms) true _ s1
              Hinv Hdms) with (fuel := length (edge_heap s1))
    as (s2 & Hloop & Hn2 & _); [|done|].
  { intros k d. rewrite Hn1. simpl. rewrite dget_tabulate.
    case_decide; [|done]. intros [= <-]. apply Hbig. }
  exists (length (edge_heap s1)), s2.
  unfold merge_size_constrained. rewrite Hinit, Hloop.
  split; [|congruence].
  unfold relabel.
  rewrite (array_max_spec arr (n - 1)); [|done|].
  - rewrite Hn2, Hn1. simpl.
    replace (n - 1 + 1) with n by lia.
    pose proof (build_label_map_strip attrs n (Z.to_nat n) 0 Hlab) as Hb.
    rewrite Z2Nat.id in Hb by lia. rewrite Hb by lia.
    by rewrite take_labels_identity.
  - apply Forall_concat. eapply Forall_impl; [exact Hall|].
    intros row Hrow. simpl. eapply Forall_impl; [exact Hrow|].
    intros x Hx. simpl in Hx. lia.
Qed.

(** * Further properties of the code *)

(** ** The node dictionary after an accepted merge *)

(** The nodes once [n1] has been merged into [n2]: in place, or with
    [n2] first renamed to the fresh id [mx + 1] (lines 155 to 163). *)
Definition pair_merged (ipm : bool) (mx n1 n2 : Z) (d1 d2 : NodeData)
    (nodes : list (Z * option NodeData)) : list (Z * option NodeData) :=
  if ipm then merged_nodes n1 n2 d1 d2 nodes
  else merged_nodes n1 (mx + 1) d1 d2
         (ddel n2 (dset (mx + 1) (Some d2) nodes)).

Lemma merge_pair_nodes mmu T ipm s n1 n2 d1 d2 :
  loop_inv mmu T s -> is_Some (adj_ref s n1 n2) ->
  dget n1 (g_node s) = Some (Some d1) ->
  dget n2 (g_node s) = Some (Some d2) ->
  exists s',
    merge_pair mmu ipm merge_scrm weight_scrm n1 n2 s = Ok tt s' /\
    g_node s' = pair_merged ipm (max_id s) n1 n2 d1 d2 (g_node s).
Proof.
  intros [Hm Hmax [Hnum Harea] HT] Hedge Hd1 Hd2.
  pose proof (mi_graph _ _ _ Hm) as Hg.
  destruct (adj_ref_nodes s n1 n2 Hg Hedge) as (Hn1 & Hn2 & Hne).
  unfold merge_pair.
  destruct (invalidate_both s n1 n2 (fun _ =>
    sd <~ (if negb ipm
           then nid <~ next_id ;; rename_node n2 nid ;;; ret (n1, nid)
           else ret (n1, n2)) ;;
    let '(src, dst) := sd in
    merge_scrm src dst mmu ;;;
    new_id <~ merge_nodes src dst weight_scrm ;;
    revalidate_node_edges new_id) Hm Hn1 Hn2) as (its & -> & Hmb).
  set (A := fun x : Z => x = n1 \/ x = n2) in *.
  set (sb := set_items its s) in *.
  destruct ipm; simpl negb; cbv iota.
  - unfold bind at 1, ret at 1.
    destruct (merge_tail mmu sb n1 n2 A d1 d2 (count_ge_mmu mmu (g_node s))
                (area_below_mmu mmu (g_node s)))
      as (sf & Hrun & _ & Hnf & _);
      [by apply (mid_inv_weaken sb A nobody); [|intros ? []]
      |done|done|done|by left|by right|done|done|].
    exists sf. split; [done|]. by rewrite Hnf.
  - unfold bind at 1, bind at 1, next_id. simpl max_id.
    set (nid := max_id s + 1).
    assert (nid ∉ dkeys (g_node s)) as Hnid.
    { intros H%Hmax. subst nid. lia. }
    destruct (rename_node_mid sb n2 nid A Hmb Hn2 Hnid)
      as (sr & d & Hrunr & Hd & Hnr & Hmr & _ & _ & Hr1 & Hr2 & _);
      [by right| |].
    { exists n1. change (is_Some (adj_ref s n2 n1)).
      by rewrite adj_ref_sym. }
    assert (d = d2) as -> by (simpl in Hd; congruence).
    rewrite (bind_ok _ _ _ _ _ Hrunr). unfold ret at 1. cbv beta iota.
    assert (n1 <> nid) as Hn1n by (by intros ->).
    assert (n2 <> nid) as Hn2n by (by intros ->).
    simpl in Hnr.
    destruct (merge_tail mmu sr n1 nid (fun x => A x \/ x = nid) d1 d2
                (count_ge_mmu mmu (g_node s))
                (area_below_mmu mmu (g_node s)))
      as (sf & Hrun & _ & Hnf & _);
      [done|done
      |by rewrite Hnr, dget_ddel_ne, dget_dset_ne
      |by rewrite Hnr, dget_ddel_ne, dget_dset_eq
      |by left; left|by right
      |by rewrite Hr1|by rewrite Hr2|].
    exists sf. split; [done|]. by rewrite Hnf, Hnr.
Qed.

(** One turn from a state of the loop: the popped entry is either
    discarded, the state changing in the heap and the latch only, or its
    two regions are merged. *)
Lemma loop_turn_cases dms mas mmu exp ipm T s :
  loop_inv mmu T s -> edge_heap s <> [] -> dms <> 0 ->
  exists s' h heap' it,
    loop_body dms mas mmu exp ipm merge_scrm weight_scrm s = Ok tt s' /\
    loop_inv mmu T s' /\
    heappop (ref_lt (items s)) (edge_heap s) = Some (h, heap') /\
    items s !! h = Some it /\
    partial_stop s' = latch_after dms exp s /\
    ((not_accepted mas mmu (latch_after dms exp s) s it /\
      s' = set_partial_stop (latch_after dms exp s) (set_edge_heap heap' s)) \/
     (exists d1 d2,
        hi_valid it = true /\
        is_Some (adj_ref s (hi_n1 it) (hi_n2 it)) /\
        dget (hi_n1 it) (g_node s) = Some (Some d1) /\
        dget (hi_n2 it) (g_node s) = Some (Some d2) /\
        size_checks mas mmu (latch_after dms exp s)
          (pixel_count d1) (pixel_count d2) = true /\
        g_node s'
        = pair_merged ipm (max_id s) (hi_n1 it) (hi_n2 it) d1 d2 (g_node s))).
Proof.
  intros Hinv Hne Hdms.
  destruct (heappop_nonempty (ref_lt (items s)) (edge_heap s) Hne)
    as (h & heap' & Hpop).
  pose proof (heappop_perm _ _ _ _ Hpop) as Hperm.
  assert (h ∈ edge_heap s) as Hh by (rewrite Hperm; left).
  pose proof Hinv as [Hm Hmax Hc HT].
  apply (mi_heap _ _ _ Hm), lookup_lt_is_Some in Hh as [it Hit].
  assert (is_Some (g_num_ge_mmu s)) as Hnum by (destruct Hc as [-> _]; eauto).
  assert (is_Some (g_area_lt_mmu s)) as Harea
    by (destruct Hc as [_ ->]; eauto).
  assert (forall x, x ∈ heap' -> x ∈ edge_heap s) as Hsub.
  { intros x Hx. rewrite Hperm. by right. }
  set (s1 := set_partial_stop (latch_after dms exp s) (set_edge_heap heap' s)).
  assert (loop_inv mmu T s1) as Hinv1 by (by apply loop_inv_popped).
  assert (not_accepted mas mmu (latch_after dms exp s) s it ->
    exists s' h heap' it,
      loop_body dms mas mmu exp ipm merge_scrm weight_scrm s = Ok tt s' /\
      loop_inv mmu T s' /\
      heappop (ref_lt (items s)) (edge_heap s) = Some (h, heap') /\
      items s !! h = Some it /\
      partial_stop s' = latch_after dms exp s /\
      ((not_accepted mas mmu (latch_after dms exp s) s it /\
        s' = set_partial_stop (latch_after dms exp s) (set_edge_heap heap' s))
       \/
       (exists d1 d2,
          hi_valid it = true /\
          is_Some (adj_ref s (hi_n1 it) (hi_n2 it)) /\
          dget (hi_n1 it) (g_node s) = Some (Some d1) /\
          dget (hi_n2 it) (g_node s) = Some (Some d2) /\
          size_checks mas mmu (latch_after dms exp s)
            (pixel_count d1) (pixel_count d2) = true /\
          g_node s'
          = pair_merged ipm (max_id s) (hi_n1 it) (hi_n2 it) d1 d2
              (g_node s)))) as Hdiscard.
  { intros Hrej. exists s1, h, heap', it.
    split; [by eapply loop_body_discard|]. do 4 (split; [done|]).
    left. done. }
  destruct (hi_valid it) eqn:Hv; [|apply Hdiscard; by left].
  pose proof (mi_valid _ _ _ Hm h it Hit Hv) as He%edge_item_adj.
  destruct (adj_ref_nodes s _ _ (mi_graph _ _ _ Hm) He) as (Hn1 & Hn2 & _).
  destruct (mi_attrs _ _ _ Hm _ Hn1) as [d1 Hd1].
  destruct (mi_attrs _ _ _ Hm _ Hn2) as [d2 Hd2].
  destruct (size_checks mas mmu (latch_after dms exp s)
              (pixel_count d1) (pixel_count d2)) eqn:Hsz;
    [|apply Hdiscard; right; eauto].
  destruct (merge_pair_ok mmu T ipm s1 (hi_n1 it) (hi_n2 it) Hinv1 He)
    as (s' & Hrun & Hinv' & _ & _ & Hps).
  destruct (merge_pair_nodes mmu T ipm s1 (hi_n1 it) (hi_n2 it) d1 d2
              Hinv1 He Hd1 Hd2) as (s'' & Hrun' & Hnodes).
  assert (s'' = s') as -> by congruence.
  exists s', h, heap', it.
  split; [by rewrite (loop_body_accept _ _ _ _ _ _ _ _ h heap' it d1 d2)|].
  do 4 (split; [done|]). right. exists d1, d2. done.
Qed.

(** The states a run passes through at the head of the loop, from the
    caller's graph on. *)
Lemma reached_inv dms mas mmu ipm s0 exp s1 s :
  input_ok s0 -> dms <> 0 ->
  initialise dms mmu s0 = Ok exp s1 ->
  turns (loop_body dms mas mmu exp ipm merge_scrm weight_scrm) s1 s ->
  exp = total_pixels (g_node s0) / dms /\
  g_node s1 = g_node s0 /\ g_adj s1 = g_adj s0 /\ partial_stop s1 = false /\
  loop_inv mmu (total_pixels (g_node s0)) s1 /\
  loop_inv mmu (total_pixels (g_node s0)) s.
Proof.
  intros Hin Hdms Hinit Hturns.
  destruct (initialise_ok dms mmu s0 Hin Hdms)
    as (s1' & Hrun & Hinv & Hn & Ha & Hp).
  rewrite Hrun in Hinit. injection Hinit as <- <-.
  do 5 (split; [done|]). by eapply turns_inv.
Qed.

(** A property of the states at the head of the loop that every turn
    keeps holds after any number of turns. *)
Lemma turns_keep dms mas mmu exp ipm T (P : St -> Prop) s s' :
  dms <> 0 ->
  (forall s s',
     loop_inv mmu T s -> P s -> edge_heap s <> [] ->
     loop_body dms mas mmu exp ipm merge_scrm weight_scrm s = Ok tt s' ->
     P s') ->
  turns (loop_body dms mas mmu exp ipm merge_scrm weight_scrm) s s' ->
  loop_inv mmu T s -> P s -> P s'.
Proof.
  intros Hdms Hstep Ht.
  induction Ht as [s|s s1 s2 Hne Hbody Hrest IH]; [done|].
  intros Hinv HP. apply IH.
  - eapply turns_inv; [done| |done].
    eapply turns_step; [done..|constructor].
  - by eapply Hstep.
Qed.

(** ** Quantities that add up under a merge *)

Lemma pair_merged_sum g ipm mx n1 n2 d1 d2 nodes :
  (forall sd dd, g (relabelled sd (merged_attrs sd dd)) = g sd + g dd) ->
  n1 <> n2 -> (mx + 1) ∉ dkeys nodes ->
  dget n1 nodes = Some (Some d1) -> dget n2 nodes = Some (Some d2) ->
  node_sum g (pair_merged ipm mx n1 n2 d1 d2 nodes) = node_sum g nodes.
Proof.
  intros Hadd Hne Hfresh H1 H2. unfold pair_merged.
  assert (n1 <> mx + 1) as Hn1.
  { intros Heq. apply Hfresh. rewrite <- Heq. apply dget_is_Some. eauto. }
  assert (n2 <> mx + 1) as Hn2.
  { intros Heq. apply Hfresh. rewrite <- Heq. apply dget_is_Some. eauto. }
  destruct ipm.
  - rewrite merged_nodes_sum, Hadd by done. lia.
  - rewrite merged_nodes_sum, Hadd.
    + rewrite (node_sum_ddel _ _ _ d2) by by rewrite dget_dset_ne.
      rewrite node_sum_dset_new by done. lia.
    + done.
    + by rewrite dget_ddel_ne, dget_dset_ne.
    + by rewrite dget_ddel_ne, dget_dset_eq.
Qed.

Lemma turn_sum g dms mas mmu exp ipm T s s' :
  (forall sd dd, g (relabelled sd (merged_attrs sd dd)) = g sd + g dd) ->
  dms <> 0 -> loop_inv mmu T s -> edge_heap s <> [] ->
  loop_body dms mas mmu exp ipm merge_scrm weight_scrm s = Ok tt s' ->
  node_sum g (g_node s') = node_sum g (g_node s).
Proof.
  intros Hadd Hdms Hinv Hne Hrun.
  destruct (loop_turn_cases dms mas mmu exp ipm T s Hinv Hne Hdms)
    as (s'' & h & heap' & it & Hrun' & _ & _ & _ & _ & Hcase).
  assert (s'' = s') as -> by congruence.
  destruct Hcase as [[_ ->]|(d1 & d2 & _ & He & H1 & H2 & _ & ->)]; [done|].
  destruct (adj_ref_nodes s _ _ (mi_graph _ _ _ (li_mid _ _ _ Hinv)) He)
    as (_ & _ & Hn).
  apply pair_merged_sum; try done.
  intros Hin%(li_max_id _ _ _ Hinv). lia.
Qed.

(** The number of live regions that list the label [y], each as often
    as it lists it *)
Definition label_count (y : Z) (nodes : list (Z * option NodeData)) : Z :=
  node_sum (fun d => Z.of_nat (count_occ Z.eq_dec (labels d) y)) nodes.

Lemma label_count_covered y nodes :
  label_covered nodes y = bool_decide (0 < label_count y nodes).
Proof.
  unfold label_count.
  assert (forall l, 0 <= node_sum
            (fun d => Z.of_nat (count_occ Z.eq_dec (labels d) y)) l) as Hpos.
  { intros l. induction l as [|[k [d|]] l IH]; simpl; lia. }
  induction nodes as [|[k [d|]] nodes IH]; simpl; [done| |done].
  rewrite IH. specialize (Hpos nodes).
  destruct (decide (y ∈ labels d)) as [Hin|Hnin].
  - rewrite bool_decide_eq_true_2 by done. simpl. symmetry.
    apply bool_decide_eq_true_2.
    apply list_elem_of_In, (count_occ_In Z.eq_dec) in Hin. lia.
  - rewrite (bool_decide_eq_false_2 (y ∈ labels d)) by done. simpl.
    rewrite list_elem_of_In, (count_occ_not_In Z.eq_dec) in Hnin.
    by rewrite Hnin.
Qed.

(** ** Properties of the regions that a merge keeps *)

Definition all_nodes (P : NodeData -> Prop)
    (nodes : list (Z * option NodeData)) : Prop :=
  Forall (fun p => match snd p with Some d => P d | None => True end) nodes.

Lemma all_nodes_dget P nodes k d :
  all_nodes P nodes -> dget k nodes = Some (Some d) -> P d.
Proof.
  intros Hall Hd%dget_Some_elem.
  by apply (proj1 (Forall_forall _ _) Hall) in Hd.
Qed.

Lemma all_nodes_dset P nodes k d :
  P d -> all_nodes P nodes -> all_nodes P (dset k (Some d) nodes).
Proof.
  intros Hd. unfold all_nodes.
  induction nodes as [|[k0 o] nodes IH]; simpl.
  - intros _. by repeat constructor.
  - intros [Ho Hrest]%Forall_cons. destruct (Z.eqb_spec k k0).
    + by constructor.
    + constructor; [done|auto].
Qed.

Lemma all_nodes_ddel P nodes k :
  all_nodes P nodes -> all_nodes P (ddel k nodes).
Proof.
  unfold all_nodes. induction nodes as [|[k0 o] nodes IH]; simpl; [done|].
  intros [Ho Hrest]%Forall_cons. destruct (Z.eqb_spec k k0); [done|].
  constructor; [done|auto].
Qed.

Lemma pair_merged_all P ipm mx n1 n2 d1 d2 nodes :
  P (relabelled d1 (merged_attrs d1 d2)) -> P d2 ->
  all_nodes P nodes -> all_nodes P (pair_merged ipm mx n1 n2 d1 d2 nodes).
Proof.
  intros Hm H2 Hall. unfold pair_merged, merged_nodes.
  destruct ipm; repeat first [apply all_nodes_ddel|apply all_nodes_dset]; done.
Qed.

Lemma turn_all P dms mas mmu exp ipm T s s' :
  (forall sd dd, P sd -> P dd -> P (relabelled sd (merged_attrs sd dd))) ->
  dms <> 0 -> loop_inv mmu T s -> all_nodes P (g_node s) ->
  edge_heap s <> [] ->
  loop_body dms mas mmu exp ipm merge_scrm weight_scrm s = Ok tt s' ->
  all_nodes P (g_node s').
Proof.
  intros Hcl Hdms Hinv Hall Hne Hrun.
  destruct (loop_turn_cases dms mas mmu exp ipm T s Hinv Hne Hdms)
    as (s'' & h & heap' & it & Hrun' & _ & _ & _ & _ & Hcase).
  assert (s'' = s') as -> by congruence.
  destruct Hcase as [[_ ->]|(d1 & d2 & _ & He & H1 & H2 & _ & ->)]; [done|].
  pose proof (all_nodes_dget _ _ _ _ Hall H1).
  pose proof (all_nodes_dget _ _ _ _ Hall H2).
  apply pair_merged_all; auto.
Qed.

(** ** Labels *)

Lemma reached_label_count dms mas mmu ipm s0 exp s1 s y :
  input_ok s0 -> dms <> 0 ->
  initialise dms mmu s0 = Ok exp s1 ->
  turns (loop_body dms mas mmu exp ipm merge_scrm weight_scrm) s1 s ->
  label_count y (g_node s) = label_count y (g_node s0).
Proof.
  intros Hin Hdms Hinit Hturns.
  destruct (reached_inv _ _ _ _ _ _ _ _ Hin Hdms Hinit Hturns)
    as (_ & Hn & _ & _ & Hinv1 & _).
  apply (turns_keep dms mas mmu exp ipm (total_pixels (g_node s0))
           (fun s => label_count y (g_node s) = label_count y (g_node s0))
           s1 s); [done| |done|done|by rewrite Hn].
  intros sa sb Hinv HP Hne Hrun. rewrite <- HP. unfold label_count.
  apply (turn_sum _ dms mas mmu exp ipm (total_pixels (g_node s0)));
    try done.
  intros sd dd. simpl. rewrite count_occ_app. lia.
Qed.

(** X5.  Label conservation (lines 111 to 164; [merge_nodes] concatenates
    the label lists of the two regions, [_rename_node] copies them).  On a
    well-formed graph and with [dms] different from zero, in every state
    at the head of the loop a label is listed by the live regions exactly
    as often as it was listed by the regions of the caller's graph; so a
    label belongs to some live region exactly when it belonged to some
    region at the start. *)
Theorem labels_conserved dms mas mmu ipm s0 exp s1 s y :
  input_ok s0 -> dms <> 0 ->
  initialise dms mmu s0 = Ok exp s1 ->
  turns (loop_body dms mas mmu exp ipm merge_scrm weight_scrm) s1 s ->
  label_count y (g_node s) = label_count y (g_node s0) /\
  label_covered (g_node s) y = label_covered (g_node s0) y.
Proof.
  intros Hin Hdms Hinit Hturns.
  pose proof (reached_label_count _ _ _ _ _ _ _ _ y Hin Hdms Hinit Hturns)
    as Hc.
  split; [done|]. by rewrite !label_count_covered, Hc.
Qed.

(** ** The size checks *)

(** X2.  The size checks of lines 133 to 144 treat the two regions of an
    entry alike: whether the pair passes does not depend on which of the
    two the entry names first. *)
Theorem size_checks_sym mas mmu stop a b :
  size_checks mas mmu stop a b = size_checks mas mmu stop b a.
Proof.
  unfold size_checks.
  destruct (Z.ltb_spec mas a), (Z.ltb_spec mas b), (Z.ltb_spec mmu a),
    (Z.ltb_spec mmu b), (Z.leb_spec mmu a), (Z.leb_spec mmu b), stop;
    simpl; try reflexivity; lia.
Qed.

(** X3.  With [mmu <= mas], a pair with a region of fewer than [mmu]
    pixels passes the size checks of lines 133 to 144 whatever the size of
    the other region and whatever the latch: [mas] does not bound the size
    of a merged region. *)
Theorem small_region_passes mas mmu stop a b :
  mmu <= mas -> a < mmu \/ b < mmu ->
  size_checks mas mmu stop a b = true.
Proof.
  intros Hle Hsmall. unfold size_checks.
  destruct (Z.ltb_spec mas a), (Z.ltb_spec mas b), (Z.ltb_spec mmu a),
    (Z.ltb_spec mmu b), (Z.leb_spec mmu a), (Z.leb_spec mmu b), stop;
    simpl; try reflexivity; lia.
Qed.

(** ** The entries of the queue *)

(** X6.  In every state at the head of the loop, a heap item whose flag
    is still [True] names two distinct live regions that are adjacent, and
    it is the item the attribute dictionary of their edge refers to: the
    items of the edges of a merged region have all been flagged [False],
    and the lookups of lines 134 and 135 find their nodes. *)
Theorem valid_entry_is_edge dms mas mmu ipm s0 exp s1 s h it :
  input_ok s0 -> dms <> 0 ->
  initialise dms mmu s0 = Ok exp s1 ->
  turns (loop_body dms mas mmu exp ipm merge_scrm weight_scrm) s1 s ->
  items s !! h = Some it -> hi_valid it = true ->
  hi_n1 it <> hi_n2 it /\
  (exists d1, dget (hi_n1 it) (g_node s) = Some (Some d1)) /\
  (exists d2, dget (hi_n2 it) (g_node s) = Some (Some d2)) /\
  exists r ed,
    adj_ref s (hi_n1 it) (hi_n2 it) = Some r /\
    adj_ref s (hi_n2 it) (hi_n1 it) = Some r /\
    edata s !! r = Some ed /\ ed_heap_item ed = Some h.
Proof.
  intros Hin Hdms Hinit Hturns Hit Hv.
  destruct (reached_inv _ _ _ _ _ _ _ _ Hin Hdms Hinit Hturns)
    as (_ & _ & _ & _ & _ & [Hm _ _ _]).
  pose proof (mi_valid _ _ _ Hm h it Hit Hv) as He.
  pose proof (edge_item_adj _ _ _ _ He) as Hadj.
  destruct (adj_ref_nodes s _ _ (mi_graph _ _ _ Hm) Hadj) as (Hn1 & Hn2 & Hne).
  split; [done|].
  split; [by apply (mi_attrs _ _ _ Hm)|].
  split; [by apply (mi_attrs _ _ _ Hm)|].
  unfold edge_item in He.
  destruct (adj_ref s (hi_n1 it) (hi_n2 it)) as [r|] eqn:Hr; [|done].
  destruct (edata s !! r) as [ed|] eqn:Hed; [|done].
  exists r, ed. split; [done|].
  split; [by apply (gk_sym _ (mi_graph _ _ _ Hm))|done].
Qed.

(** ** Runs that merge nothing *)


(** ** The regions after an accepted merge *)




Lemma pair_merged_dst (ipm : bool) mx n1 n2 d1 d2 nodes :
  NoDup (dkeys nodes) -> n1 <> n2 -> n1 <> mx + 1 ->
  dget (if ipm then n2 else mx + 1) (pair_merged ipm mx n1 n2 d1 d2 nodes)
  = Some (Some (relabelled d1 (merged_attrs d1 d2))).
Proof.
  intros Hnd Hne Hn1. unfold pair_merged, merged_nodes.
  destruct ipm; by rewrite dget_ddel_ne, dget_dset_eq.
Qed.



(** ** The label map *)

(** The position, counted from [ix], of the last of [nodes] that lists
    the label [y] *)
Fixpoint region_from (ix : Z) (nodes : list (Z * option NodeData)) (y : Z)
    : option Z :=
  match nodes with
  | [] => None
  | (_, o) :: rest =>
      match region_from (ix + 1) rest y with
      | Some j => Some j
      | None =>
          match o with
          | Some d => if bool_decide (y ∈ labels d) then Some ix else None
          | None => None
          end
      end
  end.

(** The id of the region a label belongs to: its position in the node
    order; a label that no region lists stands for itself. *)
Definition region_id (nodes : list (Z * option NodeData)) (y : Z) : Z :=
  default y (region_from 0 nodes y).

Lemma np_index_in_range len y :
  0 <= y < Z.of_nat len -> np_index len y = Some (Z.to_nat y).
Proof.
  intros Hy. unfold np_index.
  assert ((0 <=? y) && (y <? Z.of_nat len) = true) as ->; [|done].
  apply andb_true_iff. split; [apply Z.leb_le|apply Z.ltb_lt]; lia.
Qed.

Lemma write_labels_exact ix ls lm :
  Forall (fun y => 0 <= y < Z.of_nat (length lm)) ls ->
  exists lm',
    write_labels ix ls lm = inr lm' /\ length lm' = length lm /\
    forall p v0, lm !! p = Some v0 ->
      lm' !! p = Some (if bool_decide (Z.of_nat p ∈ ls) then ix else v0).
Proof.
  revert lm. induction ls as [|y ls IH]; intros lm Hall; simpl.
  - exists lm. split; [done|]. split; [done|]. by intros p v0 Hp.
  - apply Forall_cons in Hall as [Hy Hall].
    rewrite np_index_in_range by done.
    destruct (IH (<[Z.to_nat y := ix]> lm)) as (lm' & Hrun & Hlen & Hget).
    { by rewrite length_insert. }
    exists lm'. split; [done|]. rewrite length_insert in Hlen.
    split; [done|]. intros p v0 Hp.
    destruct (decide (p = Z.to_nat y)) as [->|Hne].
    + rewrite (Hget (Z.to_nat y) ix).
      2:{ apply list_lookup_insert_eq. by eapply lookup_lt_Some. }
      rewrite (bool_decide_eq_true_2 (_ ∈ y :: ls)).
      2:{ rewrite Z2Nat.id by lia. left. }
      by destruct (bool_decide _).
    + rewrite (Hget p v0) by (by rewrite list_lookup_insert_ne).
      destruct (decide (Z.of_nat p ∈ ls)) as [Hin|Hnin].
      * rewrite !bool_decide_eq_true_2; [done|by right|done].
      * rewrite !bool_decide_eq_false_2; [done| |done].
        intros [Heq|?]%elem_of_cons; [|done]. lia.
Qed.

Lemma build_label_map_exact ix nodes lm :
  Forall (fun p => exists d,
            snd p = Some d /\
            Forall (fun y => 0 <= y < Z.of_nat (length lm)) (labels d))
         nodes ->
  exists lm',
    build_label_map ix nodes lm = inr lm' /\ length lm' = length lm /\
    forall p v0, lm !! p = Some v0 ->
      lm' !! p = Some (default v0 (region_from ix nodes (Z.of_nat p))).
Proof.
  revert ix lm. induction nodes as [|[k o] nodes IH]; intros ix lm Hall.
  - exists lm. simpl. eauto.
  - apply Forall_cons in Hall as [(d & Hd & Hls) Hall]. simpl in Hd.
    subst o. simpl.
    destruct (write_labels_exact ix (labels d) lm Hls)
      as (lm1 & Hrun1 & Hlen1 & Hget1).
    rewrite Hrun1.
    destruct (IH (ix + 1) lm1) as (lm' & Hrun & Hlen & Hget).
    { by rewrite Hlen1. }
    exists lm'. split; [done|]. split; [congruence|].
    intros p v0 Hp. rewrite (Hget p _ (Hget1 p v0 Hp)).
    destruct (region_from (ix + 1) nodes (Z.of_nat p)); [done|].
    simpl. by destruct (bool_decide _).
Qed.

Lemma elem_of_concat {A} (x : A) (ls : list (list A)) :
  x ∈ concat ls <-> exists l, x ∈ l /\ l ∈ ls.
Proof.
  rewrite list_elem_of_In, in_concat. split.
  - intros (l & H1 & H2). exists l. by rewrite !list_elem_of_In.
  - intros (l & H1 & H2). exists l. by rewrite <- !list_elem_of_In.
Qed.

Lemma array_max_bound arr m x :
  array_max arr = Some m -> x ∈ concat arr -> x <= m.
Proof.
  unfold array_max. destruct (concat arr) as [|x0 xs]; [done|].
  intros [= <-] Hx.
  destruct (foldr_max_spec x0 xs) as [_ Hall].
  by apply (proj1 (Forall_forall _ _) Hall).
Qed.

Lemma array_max_elem arr m : array_max arr = Some m -> m ∈ concat arr.
Proof.
  unfold array_max. destruct (concat arr) as [|x0 xs]; [done|].
  intros [= <-]. apply foldr_max_spec.
Qed.

Lemma relabel_run arr s m :
  array_max arr = Some m ->
  (forall k o, (k, o) ∈ g_node s ->
     exists d, o = Some d /\ Forall (fun y => 0 <= y <= m) (labels d)) ->
  Forall (Forall (fun x => 0 <= x)) arr ->
  relabel arr s = Ok (map (map (region_id (g_node s))) arr) s.
Proof.
  intros Hmax Hnodes Harr. unfold relabel. rewrite Hmax.
  assert (0 <= m) as Hm.
  { pose proof (array_max_elem _ _ Hmax) as Hin.
    apply elem_of_concat in Hin as (row & Hx & Hrow).
    apply (proj1 (Forall_forall _ _) Harr) in Hrow.
    by apply (proj1 (Forall_forall _ _) Hrow) in Hx. }
  destruct (build_label_map_exact 0 (g_node s) (seqZ 0 (m + 1)))
    as (lm & Hrun & Hlen & Hget).
  { apply Forall_forall. intros [k o] Hin.
    destruct (Hnodes k o Hin) as (d & -> & Hls). exists d. split; [done|].
    eapply Forall_impl; [exact Hls|]. intros y Hy. simpl in Hy.
    rewrite length_seqZ. lia. }
  rewrite Hrun. rewrite length_seqZ in Hlen.
  assert (take_labels lm arr = Some (map (map (region_id (g_node s))) arr))
    as ->; [|done].
  unfold take_labels.
  apply mapM_Some_2, Forall2_fmap_r, Forall_Forall2_diag, Forall_forall.
  intros row Hrow.
  apply mapM_Some_2, Forall2_fmap_r, Forall_Forall2_diag, Forall_forall.
  intros x Hx.
  assert (0 <= x <= m) as Hxm.
  { split.
    - apply (proj1 (Forall_forall _ _) Harr) in Hrow.
      by apply (proj1 (Forall_forall _ _) Hrow) in Hx.
    - apply (array_max_bound arr); [done|].
      apply elem_of_concat. eauto. }
  rewrite np_index_in_range by lia. simpl.
  rewrite (Hget (Z.to_nat x) x) by (apply lookup_seqZ; lia).
  by rewrite Z2Nat.id by lia.
Qed.

(** X9.  The relabelling of lines 166 to 171 by regions.  When the
    label array has no negative element and every label that a region
    lists lies between 0 and the largest element of the array, the
    relabelling returns, and each element of the array is replaced by the
    position, in the node order, of the last region listing it; an element
    that no region lists is left as it is. *)
Theorem relabel_by_region arr s m :
  array_max arr = Some m ->
  (forall k o, (k, o) ∈ g_node s ->
     exists d, o = Some d /\ Forall (fun y => 0 <= y <= m) (labels d)) ->
  Forall (Forall (fun x => 0 <= x)) arr ->
  relabel arr s = Ok (map (map (region_id (g_node s))) arr) s.
Proof. apply relabel_run. Qed.

Lemma write_labels_fails ix ls lm y :
  y ∈ ls -> np_index (length lm) y = None ->
  write_labels ix ls lm = inl IndexError.
Proof.
  revert lm. induction ls as [|y0 ls IH]; intros lm Hin Hidx; simpl.
  - by apply elem_of_nil in Hin.
  - destruct (np_index (length lm) y0) as [i|] eqn:Hi; [|done].
    apply elem_of_cons in Hin as [->|Hin]; [congruence|].
    apply IH; [done|]. by rewrite length_insert.
Qed.

Lemma write_labels_length ix ls lm lm' :
  write_labels ix ls lm = inr lm' -> length lm' = length lm.
Proof.
  revert lm. induction ls as [|y ls IH]; intros lm; simpl.
  - by intros [= <-].
  - destruct (np_index (length lm) y); [|done].
    intros H%IH. by rewrite length_insert in H.
Qed.

Lemma write_labels_error ix ls lm e :
  write_labels ix ls lm = inl e -> e = IndexError.
Proof.
  revert lm. induction ls as [|y ls IH]; intros lm; simpl; [done|].
  destruct (np_index (length lm) y); [apply IH|by intros [= <-]].
Qed.

Lemma build_label_map_fails ix nodes lm k d y :
  (forall k o, (k, o) ∈ nodes -> is_Some o) ->
  (k, Some d) ∈ nodes -> y ∈ labels d ->
  np_index (length lm) y = None ->
  build_label_map ix nodes lm = inl IndexError.
Proof.
  revert ix lm. induction nodes as [|[k0 o] nodes IH]; intros ix lm Hat Hin Hy Hi.
  - by apply elem_of_nil in Hin.
  - destruct (Hat k0 o) as [d0 ->]; [left|]. simpl.
    destruct (write_labels ix (labels d0) lm) as [e|lm1] eqn:Hw.
    + by rewrite (write_labels_error _ _ _ _ Hw).
    + apply elem_of_cons in Hin as [[= -> ->]|Hin].
      * by rewrite (write_labels_fails ix (labels d0) lm y) in Hw.
      * apply IH; [|done|done|].
        -- intros k' o' H'. apply (Hat k' o'). by right.
        -- by rewrite (write_labels_length _ _ _ _ Hw).
Qed.

(** X10.  A label outside the label array.  When some region lists a
    label larger than the largest element [m] of the label array, or
    smaller than [-(m + 1)], the relabelling of lines 166 to 169 raises
    [IndexError]: the label map has [m + 1] entries only. *)
Theorem label_out_of_range arr s m k d y :
  array_max arr = Some m ->
  (forall k o, (k, o) ∈ g_node s -> is_Some o) ->
  (k, Some d) ∈ g_node s -> y ∈ labels d ->
  y < - (m + 1) \/ m < y ->
  relabel arr s = Err IndexError s.
Proof.
  intros Hmax Hat Hin Hy Hout. unfold relabel. rewrite Hmax.
  rewrite (build_label_map_fails 0 (g_node s) _ k d y); try done.
  unfold np_index. rewrite length_seqZ.
  destruct (Z.leb_spec 0 y), (Z.ltb_spec y (Z.of_nat (Z.to_nat (m + 1))));
    simpl; try lia;
    destruct (Z.leb_spec (- Z.of_nat (Z.to_nat (m + 1))) y),
      (Z.ltb_spec y 0); simpl; try done; lia.
Qed.

(** ** The whole run *)

Lemma main_loop_mono body fuel fuel' s r :
  main_loop fuel body s = Some r -> (fuel <= fuel')%nat ->
  main_loop fuel' body s = Some r.
Proof.
  revert fuel' s. induction fuel as [|fuel IH]; intros fuel' s.
  - destruct fuel'; simpl; destruct (edge_heap s); done.
  - destruct fuel' as [|fuel']; [lia|]. simpl.
    destruct (edge_heap s); [done|].
    destruct (body s); [|done]. intros H Hle. apply IH; [done|lia].
Qed.

(** On a well-formed graph and with [dms] different from zero, the run
    reaches the relabelling, in a state with an empty heap. *)
Lemma run_to_end dms mas mmu ipm s0 :
  input_ok s0 -> dms <> 0 ->
  exists exp s1 s2,
    initialise dms mmu s0 = Ok exp s1 /\
    turns (loop_body dms mas mmu exp ipm merge_scrm weight_scrm) s1 s2 /\
    edge_heap s2 = [] /\
    forall fuel arr rag_copy, (measure s1 <= fuel)%nat ->
      merge_size_constrained fuel arr dms mas mmu rag_copy ipm
        merge_scrm weight_scrm s0 = Some (relabel arr s2).
Proof.
  intros Hin Hdms.
  destruct (initialise_ok dms mmu s0 Hin Hdms) as (s1 & Hrun & Hinv & _).
  destruct (main_loop_ok dms mas mmu (total_pixels (g_node s0) / dms) ipm
              _ (measure s1) s1 Hdms Hinv) as (s2 & Hloop & Hturns & Hemp);
    [done|].
  eexists _, s1, s2. do 3 (split; [done|]).
  intros fuel arr rag_copy Hfuel. unfold merge_size_constrained.
  by rewrite Hrun, (main_loop_mono _ _ _ _ _ Hloop Hfuel).
Qed.

Lemma label_covered_true nodes y :
  label_covered nodes y = true <->
  exists k d, (k, Some d) ∈ nodes /\ y ∈ labels d.
Proof.
  unfold label_covered. rewrite existsb_exists. split.
  - intros ([k [d|]] & Hin & Hy); [|done].
    apply bool_decide_eq_true_1 in Hy. exists k, d.
    by rewrite list_elem_of_In.
  - intros (k & d & Hin & Hy). exists (k, Some d).
    rewrite <- list_elem_of_In. split; [done|].
    by apply bool_decide_eq_true_2.
Qed.



(** ** [merge_scrm] outside [merge_size_constrained] *)

(** X13.  [merge_scrm] relies on the two counters that lines 84 to 87
    put into [rag.graph].  Called on a graph that lacks one of them, it
    raises [KeyError] at line 229 or 230, once [dst] has received the
    summed pixel count and colour and the new mean colour. *)
Theorem merge_scrm_without_counters src dst mmu s sd dd :
  dget src (g_node s) = Some (Some sd) ->
  dget dst (g_node s) = Some (Some dd) ->
  g_num_ge_mmu s = None \/ g_area_lt_mmu s = None ->
  exists s',
    merge_scrm src dst mmu s = Err KeyError s' /\
    g_node s' = dset dst (Some (merged_attrs sd dd)) (g_node s) /\
    g_adj s' = g_adj s /\ g_area_lt_mmu s' = g_area_lt_mmu s.
Proof.
  intros Hs Hd Hnone.
  unfold merge_scrm, bind, node_attrs, set_node_attrs, modify,
    graph_num_ge_mmu, graph_area_lt_mmu, lift_opt, ret, raise.
  destruct (decide (src = dst)) as [->|Hne].
  - assert (sd = dd) as -> by congruence.
    repeat progress (rewrite ?Hd, ?dget_dset_eq; simpl).
    rewrite !dset_dset.
    destruct (g_num_ge_mmu s) as [num|] eqn:Hnum; simpl.
    + destruct Hnone as [?|Ha]; [done|]. rewrite Ha. simpl. eauto.
    + eauto.
  - repeat progress
      (rewrite ?dget_dset_eq, ?dget_dset_ne by done;
       rewrite ?Hs, ?Hd; simpl).
    rewrite !dset_dset.
    destruct (g_num_ge_mmu s) as [num|] eqn:Hnum; simpl.
    + destruct Hnone as [?|Ha]; [done|]. rewrite Ha. simpl. eauto.
    + eauto.
Qed.

(** ** The queue after the initialisation *)

Lemma initialise_run dms mmu s :
  graph_ok s -> attrs_ok s -> dms <> 0 ->
  initialise dms mmu s
  = match for_each (edges_from [] (g_adj s)) queue_edge (counted mmu s) with
    | Ok _ sc => Ok (total_pixels (g_node s) / dms) (set_partial_stop false sc)
    | Err e sc => Err e sc
    end.
Proof.
  intros Hg Hat Hdms. unfold initialise.
  unfold bind at 1, modify at 1. unfold bind at 1, modify at 1.
  unfold bind at 1, modify at 1. unfold bind at 1, get at 1.
  set (sa := set_area_lt_mmu (Some 0)
               (set_num_ge_mmu (Some 0) (set_edge_heap [] s))).
  rewrite (bind_ok _ _ _ _ _
    (scan_areas_run (dkeys (g_node sa)) mmu 0 sa 0 0 eq_refl eq_refl Hat)).
  simpl g_node. rewrite !key_sum_node_sum by apply Hg. rewrite !Z.add_0_l.
  apply Z.eqb_neq in Hdms. rewrite Hdms.
  unfold bind at 1, ret at 1. unfold bind at 1, get at 1.
  unfold bind at 1.
  set (r1 := for_each _ _ _).
  assert (r1 = for_each (edges_from [] (g_adj s)) queue_edge (counted mmu s))
    as -> by reflexivity.
  by destruct (for_each (edges_from [] (g_adj s)) queue_edge (counted mmu s)).
Qed.

(** What the queue holds once the edges in [done] have been pushed *)
Definition queued_inv (s : St) (done : list (Z * Z * nat)) (s' : St) : Prop :=
  length (edata s') = length (edata s) /\
  edge_heap s' ≡ₚ seq 0 (length done) /\
  Forall2 (fun e it =>
             exists ed0, edata s !! (snd e) = Some ed0 /\
               it = mkItem (ed_weight ed0) (fst (fst e)) (snd (fst e)) true)
          done (items s') /\
  (forall r ed, edata s' !! r = Some ed ->
     exists ed0, edata s !! r = Some ed0 /\ ed_weight ed = ed_weight ed0) /\
  (forall i e, done !! i = Some e ->
     exists ed, edata s' !! (snd e) = Some ed /\ ed_heap_item ed = Some i).

Lemma queued_inv_step s done n1 n2 r s' :
  (r < length (edata s))%nat ->
  r ∉ (fun e => snd e) <$> done ->
  queued_inv s done s' ->
  exists s'', queue_edge (n1, n2, r) s' = Ok tt s'' /\
              queued_inv s (done ++ [(n1, n2, r)]) s''.
Proof.
  intros Hlt Hr (Hlen & Hheap & Hitems & Hwt & Hrefs).
  rewrite <- Hlen in Hlt. apply lookup_lt_is_Some in Hlt as Hd.
  destruct Hd as [data Hdata].
  destruct (Hwt r data Hdata) as (ed0 & Hed0 & Hw).
  pose proof (Forall2_length _ _ _ Hitems) as Hli.
  eexists. split; [by apply queue_edge_run|].
  split; [|split; [|split; [|split]]]; simpl.
  - by rewrite length_insert.
  - rewrite heappush_perm, Hheap, length_app, <- Hli. simpl.
    rewrite Nat.add_1_r, seq_S. simpl. apply Permutation_cons_append.
  - apply Forall2_app; [done|]. constructor; [|constructor].
    exists ed0. simpl. split; [done|]. by rewrite Hw.
  - intros r' ed'. destruct (decide (r' = r)) as [->|Hne].
    + rewrite list_lookup_insert_eq by lia. intros [= <-]. eauto.
    + rewrite list_lookup_insert_ne by done. apply Hwt.
  - intros i e Hi. apply lookup_app_Some in Hi as [Hi|[Hge Hi]].
    + destruct (Hrefs i e Hi) as (ed & Hed & Hh). exists ed.
      split; [|done]. rewrite list_lookup_insert_ne; [done|].
      intros Heq. apply Hr. rewrite Heq.
      apply (list_elem_of_fmap_2 (fun e => snd e)).
      by eapply list_elem_of_lookup_2.
    + apply list_lookup_singleton_Some in Hi as [Hz <-]. simpl.
      eexists. split; [apply list_lookup_insert_eq; lia|]. simpl.
      f_equal. lia.
Qed.

Lemma queue_edges_content s :
  graph_ok s -> edge_heap s = [] -> items s = [] ->
  exists s',
    for_each (edges_from [] (g_adj s)) queue_edge s = Ok tt s' /\
    queued_inv s (edges_from [] (g_adj s)) s'.
Proof.
  intros Hg Hheap Hitems.
  apply (for_each_ok (queued_inv s)).
  - split; [done|]. split; [by rewrite Hheap|].
    split; [rewrite Hitems; constructor|]. split; [eauto|].
    by intros i e ?.
  - intros done [[n1 n2] r] rest s' Hl Hinv.
    pose proof (edges_from_refs_NoDup s Hg) as Hnd.
    rewrite Hl, fmap_app in Hnd. apply NoDup_app in Hnd as (_ & Hnd & _).
    apply queued_inv_step; [| |done].
    + apply (gk_range _ Hg n1 n2), edges_from_sound; [done|].
      rewrite Hl. apply elem_of_app. right. left.
    + intros Hin. apply (Hnd r Hin). simpl. left.
Qed.

(** X1.  The queue that lines 101 to 108 build.  On a well-formed graph
    and with [dms] different from zero, [rag.edges] reports every edge
    once, from one of its two ends; the heap items are created in that
    order, item [i] carrying the weight and the two ends of the [i]-th
    edge and the flag [True]; the heap holds each of them once; and the
    attribute dictionary of the [i]-th edge refers to item [i]. *)
Theorem initialise_queue dms mmu s0 exp s1 :
  input_ok s0 -> dms <> 0 ->
  initialise dms mmu s0 = Ok exp s1 ->
  (forall u v r, adj_ref s0 u v = Some r ->
     (u, v, r) ∈ edges_from [] (g_adj s0) \/
     (v, u, r) ∈ edges_from [] (g_adj s0)) /\
  (forall n1 n2 r, (n1, n2, r) ∈ edges_from [] (g_adj s0) ->
     adj_ref s0 n1 n2 = Some r) /\
  NoDup ((fun e => snd e) <$> edges_from [] (g_adj s0)) /\
  edge_heap s1 ≡ₚ seq 0 (length (edges_from [] (g_adj s0))) /\
  Forall2 (fun e it =>
             exists ed0, edata s0 !! (snd e) = Some ed0 /\
               it = mkItem (ed_weight ed0) (fst (fst e)) (snd (fst e)) true)
          (edges_from [] (g_adj s0)) (items s1) /\
  (forall i e, edges_from [] (g_adj s0) !! i = Some e ->
     exists ed, edata s1 !! (snd e) = Some ed /\ ed_heap_item ed = Some i).
Proof.
  intros Hin Hdms Hinit.
  pose proof (in_graph _ Hin) as Hg.
  split; [by apply edges_from_complete|].
  split; [by apply edges_from_sound|].
  split; [by apply edges_from_refs_NoDup|].
  rewrite (initialise_run dms mmu s0 Hg (in_attrs _ Hin) Hdms) in Hinit.
  destruct (queue_edges_content (counted mmu s0)) as (sc & Hrun & Hq).
  { by apply (graph_ok_ext s0). }
  { done. }
  { apply (in_items _ Hin). }
  change (g_adj (counted mmu s0)) with (g_adj s0) in *.
  rewrite Hrun in Hinit. injection Hinit as _ <-.
  destruct Hq as (_ & Hheap & Hitems & _ & Hrefs). done.
Qed.

(** ** The nodes of a strip *)

Lemma path_graph_nodes n attrs wt k o :
  (k, o) ∈ g_node (path_graph n attrs wt) <->
  0 <= k < n /\ o = Some (attrs k).
Proof.
  simpl. rewrite list_elem_of_fmap. split.
  - intros (i & [= -> ->] & Hi%elem_of_seqZ). split; [lia|done].
  - intros [Hk ->]. exists k. split; [done|]. apply elem_of_seqZ. lia.
Qed.

(** ** [scrm] *)

Lemma reached_node_count dms mas mmu ipm s0 exp s1 s :
  input_ok s0 -> dms <> 0 ->
  initialise dms mmu s0 = Ok exp s1 ->
  turns (loop_body dms mas mmu exp ipm merge_scrm weight_scrm) s1 s ->
  (length (g_node s) <= length (g_node s0))%nat /\
  (g_node s0 <> [] -> g_node s <> []).
Proof.
  intros Hin Hdms Hinit Hturns.
  destruct (reached_inv _ _ _ _ _ _ _ _ Hin Hdms Hinit Hturns)
    as (_ & Hn & _ & _ & Hinv1 & _).
  apply (turns_keep dms mas mmu exp ipm (total_pixels (g_node s0))
           (fun s => (length (g_node s) <= length (g_node s0))%nat /\
                     (g_node s0 <> [] -> g_node s <> []))
           s1 s); [done| |done|done|by rewrite Hn].
  intros sa sb Hinv [Hle Hne0] Hne Hrun.
  destruct (loop_turn_cases dms mas mmu exp ipm _ sa Hinv Hne Hdms)
    as (s'' & h & heap' & it & Hrun' & Hinv' & _ & _ & _ & Hcase).
  assert (s'' = sb) as -> by congruence.
  destruct Hcase as [[_ ->]|(d1 & d2 & _ & He & H1 & H2 & _ & Hnodes)];
    [done|].
  destruct (loop_turn dms mas mmu exp ipm _ sa Hinv Hne Hdms)
    as (s'' & Hrun'' & _ & _ & Hlen).
  assert (s'' = sb) as -> by congruence.
  pose proof (mi_graph _ _ _ (li_mid _ _ _ Hinv')) as Hg'.
  assert (exists k, k ∈ dkeys (g_node sb)) as [k Hk].
  { rewrite Hnodes.
    pose proof (mi_graph _ _ _ (li_mid _ _ _ Hinv)) as Hg.
    destruct (adj_ref_nodes sa _ _ Hg He) as (_ & _ & Hn12).
    assert (hi_n1 it <> max_id sa + 1) as Hf.
    { intros Heq.
      assert (hi_n1 it ∈ dkeys (g_node sa)) as Hk
        by (apply dget_is_Some; eauto).
      apply (li_max_id _ _ _ Hinv) in Hk. lia. }
    eexists. apply dget_is_Some.
    rewrite (pair_merged_dst ipm (max_id sa) _ _ d1 d2 (g_node sa));
      [eauto|apply Hg|done|done]. }
  split.
  - destruct Hlen as [[-> _]|Hlen]; lia.
  - intros _ Hnil. rewrite Hnil in Hk. by apply elem_of_nil in Hk.
Qed.

Lemma region_from_bound ix nodes y j :
  region_from ix nodes y = Some j -> ix <= j < ix + Z.of_nat (length nodes).
Proof.
  revert ix. induction nodes as [|[k o] nodes IH]; intros ix; simpl; [done|].
  destruct (region_from (ix + 1) nodes y) as [j'|] eqn:Hr.
  - intros [= <-]. apply IH in Hr. lia.
  - destruct o as [d|]; [|done]. case_bool_decide; [|done].
    intros [= <-]. lia.
Qed.

Lemma region_from_covered ix nodes y :
  label_covered nodes y = true -> is_Some (region_from ix nodes y).
Proof.
  revert ix. induction nodes as [|[k o] nodes IH]; intros ix; simpl; [done|].
  destruct (region_from (ix + 1) nodes y) as [j'|] eqn:Hr; [eauto|].
  intros [Hh|Ht]%orb_true_iff.
  - destruct o as [d|]; [|done]. rewrite Hh. eauto.
  - apply (IH (ix + 1)) in Ht. rewrite Hr in Ht. by destruct Ht.
Qed.

(** ** The graph [rag_mean_color] builds for one row of pixels *)

Lemma dict_ext {V} (d d' : list (Z * V)) :
  NoDup (dkeys d) -> dkeys d = dkeys d' ->
  (forall k, k ∈ dkeys d -> dget k d = dget k d') -> d = d'.
Proof.
  revert d'. induction d as [|[k v] d IH]; intros [|[k' v'] d']; try done.
  unfold dkeys. simpl. intros [Hnin Hnd]%NoDup_cons [= <- Hk] Hget.
  pose proof (Hget k ltac:(left)) as Hkk. simpl in Hkk.
  rewrite Z.eqb_refl in Hkk. injection Hkk as <-.
  f_equal. apply IH; [done|done|]. intros k0 Hk0.
  specialize (Hget k0 ltac:(by right)). simpl in Hget.
  destruct (Z.eqb_spec k0 k) as [Heq|Hne]; [|done].
  subst k0. by destruct Hnin.
Qed.

Lemma tabulate_ext {V} (f : Z -> V) n (d : list (Z * V)) :
  dkeys d = seqZ 0 n ->
  (forall i, 0 <= i < n -> dget i d = Some (f i)) ->
  d = map (fun i => (i, f i)) (seqZ 0 n).
Proof.
  intros Hk Hg. apply dict_ext.
  - rewrite Hk. apply NoDup_seqZ.
  - by rewrite dkeys_tabulate.
  - intros k Hin. rewrite Hk in Hin. apply elem_of_seqZ in Hin.
    rewrite Hg, dget_tabulate, decide_True by lia. done.
Qed.

Lemma seqZ_snoc k : 0 <= k -> seqZ 0 (k + 1) = seqZ 0 k ++ [k].
Proof. intros Hk. by rewrite seqZ_app by lia. Qed.

Definition fun_upd {A} (g : Z -> A) (i : Z) (v : A) : Z -> A :=
  fun k => if decide (k = i) then v else g k.

(** A row of [n] regions with the attribute dictionaries [nodes] and
    [ed]; [path_graph] is the case in which every node has its attributes
    and no edge is queued. *)
Definition path_state (n : Z) (nodes : Z -> option NodeData)
    (ed : Z -> EdgeData) : St :=
  mkSt (map (fun i => (i, nodes i)) (seqZ 0 n))
       (map (fun i => (i, path_row n i)) (seqZ 0 n))
       (map ed (seqZ 0 (n - 1)))
       None None (n - 1) [] [] false.

Lemma path_state_ext n g g' ed ed' :
  (forall i, 0 <= i < n -> g i = g' i) ->
  (forall i, 0 <= i < n - 1 -> ed i = ed' i) ->
  path_state n g ed = path_state n g' ed'.
Proof.
  intros Hg He. unfold path_state. f_equal.
  - apply map_ext_in. intros i Hi%list_elem_of_In%elem_of_seqZ.
    by rewrite Hg by lia.
  - apply map_ext_in. intros i Hi%list_elem_of_In%elem_of_seqZ.
    apply He. lia.
Qed.

(** The graph after the first [k] regions of the row have been met: no
    node has attributes yet, no edge a weight. *)
Definition skeleton (k : Z) : St :=
  path_state k (fun _ => None) (fun _ => mkEdge (norm zero_color) None).

Lemma path_row_last k : 2 <= k -> path_row k (k - 1) = [(k - 2, Z.to_nat (k - 2))].
Proof.
  intros Hk. unfold path_row.
  assert (0 <? k - 1 = true) as -> by lia.
  assert (k - 1 <? k - 1 = false) as -> by lia.
  simpl. by replace (k - 1 - 1) with (k - 2) by lia.
Qed.

Lemma add_edge_skeleton k :
  2 <= k ->
  add_edge (k - 1) k (norm zero_color) (skeleton k) = Ok tt (skeleton (k + 1)).
Proof.
  intros Hk. unfold add_edge, skeleton, path_state.
  set (nodes := map (fun i => (i, @None NodeData)) (seqZ 0 k)).
  set (adj := map (fun i => (i, path_row k i)) (seqZ 0 k)).
  set (ed := map (fun _ => mkEdge (norm zero_color) None) (seqZ 0 (k - 1))).
  assert (dkeys nodes = seqZ 0 k) as Hkn by apply dkeys_tabulate.
  assert (dkeys adj = seqZ 0 k) as Hka by apply dkeys_tabulate.
  assert (dmem (k - 1) nodes = true) as Hm1.
  { apply dmem_true. rewrite Hkn. apply elem_of_seqZ. lia. }
  assert (dmem k nodes = false) as Hm2.
  { apply dmem_false. rewrite Hkn. rewrite elem_of_seqZ. lia. }
  assert (dget (k - 1) adj = Some [(k - 2, Z.to_nat (k - 2))]) as Ha1.
  { unfold adj. rewrite dget_tabulate, decide_True by lia.
    by rewrite path_row_last. }
  unfold bind, add_node_silent, modify, get, adj_set, ret, raise. simpl.
  rewrite Hm1. simpl. rewrite Hm2. simpl.
  rewrite dget_dset_ne by lia. rewrite Ha1. simpl.
  assert (k =? k - 2 = false) as -> by lia. simpl.
  rewrite dget_dset_ne by lia. rewrite Ha1. simpl.
  assert (k =? k - 2 = false) as -> by lia. simpl.
  rewrite dget_dset_ne by lia. rewrite dget_dset_eq. simpl.
  f_equal. unfold set_max_id, set_adj, set_edata, set_node. simpl.
  f_equal.
  - apply tabulate_ext.
    + rewrite dkeys_dset_notin by (rewrite Hkn, elem_of_seqZ; lia).
      by rewrite Hkn, seqZ_snoc by lia.
    + intros i Hi. rewrite dget_dset. case_decide; [done|].
      unfold nodes. rewrite dget_tabulate, decide_True by lia. done.
  - apply tabulate_ext.
    + rewrite dkeys_dset_in.
      2: { rewrite !elem_of_dkeys_dset. right. by left. }
      rewrite dkeys_dset_in.
      2: { rewrite elem_of_dkeys_dset, Hka, elem_of_seqZ. right. lia. }
      rewrite dkeys_dset_notin by (rewrite Hka, elem_of_seqZ; lia).
      by rewrite Hka, seqZ_snoc by lia.
    + intros i Hi. rewrite !dget_dset.
      case_decide as H1; [subst i|].
      { f_equal. unfold path_row.
        assert (0 <? k = true) as -> by lia.
        assert (k <? k + 1 - 1 = false) as -> by lia.
        simpl. unfold ed. by rewrite length_map, length_seqZ. }
      case_decide as H2; [subst i|].
      { f_equal. unfold path_row.
        assert (0 <? k - 1 = true) as -> by lia.
        assert (k - 1 <? k + 1 - 1 = true) as -> by lia.
        simpl. unfold ed. rewrite length_map, length_seqZ.
        replace (k - 1 - 1) with (k - 2) by lia.
        by replace (k - 1 + 1) with k by lia. }
      unfold adj. rewrite dget_tabulate, decide_True by lia.
      f_equal. unfold path_row.
      assert (i <? k - 1 = true) as -> by lia.
      by assert (i <? k + 1 - 1 = true) as -> by lia.
  - unfold ed. replace (k + 1 - 1) with (k - 1 + 1) by lia.
    rewrite seqZ_snoc by lia. by rewrite map_app.
  - lia.
Qed.

Arguments skeleton : simpl never.

Lemma has_edge_skeleton k v :
  2 <= k ->
  has_edge (k - 1) v (skeleton k) = Ok (bool_decide (v = k - 2)) (skeleton k).
Proof.
  intros Hk. unfold has_edge, skeleton, path_state. simpl.
  rewrite dget_tabulate, decide_True by lia.
  rewrite path_row_last by done. unfold dmem. simpl.
  destruct (Z.eqb_spec v (k - 2)).
  - by rewrite bool_decide_eq_true_2.
  - by rewrite bool_decide_eq_false_2.
Qed.

Lemma label_near_row n i j :
  0 < n -> label_near [seqZ 0 n] i j = Some (Z.min (Z.max j 0) (n - 1)).
Proof.
  intros Hn. unfold label_near, clamp. simpl length.
  assert (Z.to_nat (Z.min (Z.max i 0) (Z.of_nat 1 - 1)) = 0%nat) as -> by lia.
  simpl. rewrite length_seqZ. apply lookup_seqZ. lia.
Qed.

Lemma neighbourhood_row n j :
  0 < n -> 0 <= j < n ->
  (forall x, 0 <= x < n -> via_float x = x) ->
  neighbourhood [seqZ 0 n] 0 j
  = [j; Z.max (j - 1) 0; j; Z.min (j + 1) (n - 1); j].
Proof.
  intros Hn Hj Hv. unfold neighbourhood. simpl.
  rewrite !label_near_row by done. simpl.
  rewrite !Hv by lia.
  repeat (apply (f_equal2 cons); [lia|]). done.
Qed.

Lemma add_edge_filter_row n k :
  2 <= k <= n ->
  add_edge_filter [k - 1; k - 2; k - 1; Z.min k (n - 1); k - 1] (skeleton k)
  = Ok tt (skeleton (Z.min (k + 1) n)).
Proof.
  intros Hk.
  change (add_edge_filter [k - 1; k - 2; k - 1; Z.min k (n - 1); k - 1])
    with (for_each [k - 1; k - 2; k - 1; Z.min k (n - 1); k - 1]
            (fun value =>
               if bool_decide (value ≠ k - 1) then
                 b <~ has_edge (k - 1) value ;;
                 if b then ret tt
                 else add_edge (k - 1) value (norm zero_color)
               else ret tt)).
  set (body := fun value : Z => _).
  assert (forall s, body (k - 1) s = Ok tt s) as Hskip.
  { intros s. unfold body. by rewrite bool_decide_eq_false_2 by (by intros []). }
  assert (body (k - 2) (skeleton k) = Ok tt (skeleton k)) as Hleft.
  { unfold body. rewrite bool_decide_eq_true_2 by lia.
    unfold bind. rewrite has_edge_skeleton by lia.
    by rewrite bool_decide_eq_true_2. }
  assert (body (Z.min k (n - 1)) (skeleton k)
          = Ok tt (skeleton (Z.min (k + 1) n))) as Hright.
  { destruct (decide (k <= n - 1)) as [Hle|Hgt].
    - replace (Z.min k (n - 1)) with k by lia.
      replace (Z.min (k + 1) n) with (k + 1) by lia.
      unfold body. rewrite bool_decide_eq_true_2 by lia.
      unfold bind. rewrite has_edge_skeleton by lia.
      rewrite bool_decide_eq_false_2 by lia.
      apply add_edge_skeleton. lia.
    - replace (Z.min k (n - 1)) with (k - 1) by lia.
      replace (Z.min (k + 1) n) with k by lia.
      apply Hskip. }
  cbn [for_each].
  rewrite (bind_ok _ _ _ _ _ (Hskip _)), (bind_ok _ _ _ _ _ Hleft),
    (bind_ok _ _ _ _ _ (Hskip _)), (bind_ok _ _ _ _ _ Hright),
    (bind_ok _ _ _ _ _ (Hskip _)).
  done.
Qed.

Lemma row_indices_row n :
  0 <= n -> row_indices 0 [seqZ 0 n] = map (fun j => (0, j)) (seqZ 0 n).
Proof.
  intros Hn. simpl. rewrite length_seqZ, app_nil_r.
  by rewrite Z2Nat.id by done.
Qed.

(** The first loop of [rag_mean_color] ([RAG(labels, connectivity=1)]) on
    a row of [n] pixels with the labels [0] to [n - 1] *)
Lemma rag_filter_row n :
  2 <= n -> (forall x, 0 <= x < n -> via_float x = x) ->
  for_each (row_indices 0 [seqZ 0 n])
    (fun ix => add_edge_filter (neighbourhood [seqZ 0 n] ix.1 ix.2))
    empty_rag
  = Ok tt (skeleton n).
Proof.
  intros Hn Hv. rewrite row_indices_row by lia.
  set (body := fun ix : Z * Z => _).
  assert (forall m j, 1 <= j -> j + Z.of_nat m = n ->
    for_each (map (fun j => (0, j)) (seqZ j (Z.of_nat m))) body
      (skeleton (Z.min (j + 1) n))
    = Ok tt (skeleton n)) as Hrest.
  { induction m as [|m IH]; intros j Hj Hjm.
    - simpl. by replace (Z.min (j + 1) n) with n by lia.
    - rewrite seqZ_cons by lia. cbn [map for_each].
      rewrite (bind_ok _ _ _ tt (skeleton (Z.min (j + 1 + 1) n))).
      + replace (Z.succ j) with (j + 1) by lia.
        replace (Z.pred (Z.of_nat (S m))) with (Z.of_nat m) by lia.
        apply IH; lia.
      + unfold body. simpl fst. simpl snd.
        rewrite neighbourhood_row by (done || lia).
        pose proof (add_edge_filter_row n (j + 1) ltac:(lia)) as Hf.
        replace (j + 1 - 1) with j in Hf by lia.
        replace (j + 1 - 2) with (j - 1) in Hf by lia.
        replace (Z.max (j - 1) 0) with (j - 1) by lia.
        replace (Z.min (j + 1) n) with (j + 1) by lia.
        exact Hf. }
  rewrite seqZ_cons by lia. cbn [map for_each].
  rewrite (bind_ok _ _ _ tt (skeleton 2)).
  - specialize (Hrest (Z.to_nat (n - 1)) 1).
    rewrite Z2Nat.id in Hrest by lia.
    replace (Z.min (1 + 1) n) with 2 in Hrest by lia.
    replace (Z.pred n) with (n - 1) by lia.
    apply Hrest; lia.
  - unfold body. simpl fst. simpl snd.
    rewrite neighbourhood_row by (done || lia).
    replace (Z.min (0 + 1) (n - 1)) with 1 by lia.
    reflexivity.
Qed.

Lemma for_each_map {A B} (f : A -> B) (l : list A) (body : B -> Cmd unit) s :
  for_each (map f l) body s = for_each l (fun x => body (f x)) s.
Proof.
  revert s. induction l as [|x l IH]; intros s; [done|].
  cbn [map for_each]. unfold bind. destruct (body (f x) s); [apply IH|done].
Qed.

(** A loop that updates one entry of a family of dictionaries per turn *)
Lemma family_loop {A} (b : Z) (st : (Z -> A) -> St) (c : Z -> Cmd unit)
    (P : A -> Prop) (upd : Z -> A -> A) :
  (forall g g', (forall i, 0 <= i < b -> g i = g' i) -> st g = st g') ->
  (forall g i, 0 <= i < b -> P (g i) ->
     c i (st g) = Ok tt (st (fun_upd g i (upd i (g i))))) ->
  forall l g, NoDup l -> Forall (fun i => 0 <= i < b /\ P (g i)) l ->
  for_each l c (st g)
  = Ok tt (st (fun k => if decide (k ∈ l) then upd k (g k) else g k)).
Proof.
  intros Hext Hc. induction l as [|i l IH]; intros g Hnd Hall.
  - simpl. unfold ret. f_equal; apply Hext; intros i _;
      by rewrite ?decide_False by apply not_elem_of_nil.
  - apply NoDup_cons in Hnd as [Hi Hnd].
    apply Forall_cons in Hall as [[Hr HP] Hall].
    cbn [for_each]. rewrite (bind_ok _ _ _ _ _ (Hc g i Hr HP)).
    rewrite IH; [|done|].
    + f_equal. apply Hext. intros k Hk. unfold fun_upd.
      destruct (decide (k = i)) as [->|Hne].
      * rewrite decide_False by done. rewrite decide_True by left. done.
      * destruct (decide (k ∈ l)).
        -- rewrite decide_True by (by right). done.
        -- rewrite decide_False; [done|]. rewrite elem_of_cons. tauto.
    + rewrite Forall_forall in Hall. apply Forall_forall. intros k Hk.
      destruct (Hall k Hk) as [Hkr HkP]. split; [done|].
      unfold fun_upd. rewrite decide_False; [done|]. by intros ->.
Qed.

Lemma set_node_attrs_path n g ed i d :
  0 <= i < n ->
  set_node_attrs i d (path_state n g ed)
  = Ok tt (path_state n (fun_upd g i (Some d)) ed).
Proof.
  intros Hi. unfold set_node_attrs, modify, path_state, set_node. simpl.
  do 2 f_equal. apply tabulate_ext.
  - rewrite dkeys_dset_in; rewrite dkeys_tabulate; [done|].
    apply elem_of_seqZ. lia.
  - intros k Hk. rewrite dget_dset, dget_tabulate.
    unfold fun_upd. repeat case_decide; try lia; congruence.
Qed.

Lemma node_attrs_path n g ed i d :
  0 <= i < n -> g i = Some d ->
  node_attrs i (path_state n g ed) = Ok d (path_state n g ed).
Proof.
  intros Hi Hg. unfold node_attrs. simpl.
  by rewrite dget_tabulate, decide_True, Hg by lia.
Qed.

Lemma fun_upd_eq {A} (g : Z -> A) i v : fun_upd g i v i = v.
Proof. unfold fun_upd. by rewrite decide_True. Qed.

Lemma fun_upd_twice {A} (g : Z -> A) i v v' k :
  fun_upd (fun_upd g i v) i v' k = fun_upd g i v' k.
Proof. unfold fun_upd. by case_decide. Qed.

Lemma at_index_row {A} (f : Z -> A) n j :
  0 <= j < n -> at_index [map f (seqZ 0 n)] 0 j = Some (f j).
Proof.
  intros Hj. unfold at_index. simpl. rewrite list_lookup_fmap.
  rewrite lookup_seqZ_lt by lia. simpl. f_equal. f_equal. lia.
Qed.

Lemma insert_tabulate {A} (ed : Z -> A) m i v :
  0 <= i < m ->
  <[Z.to_nat i := v]> (map ed (seqZ 0 m)) = map (fun_upd ed i v) (seqZ 0 m).
Proof.
  intros Hi. apply list_eq. intros p.
  destruct (decide (p = Z.to_nat i)) as [->|Hne].
  - rewrite list_lookup_insert_eq by (rewrite length_map, length_seqZ; lia).
    rewrite list_lookup_fmap, lookup_seqZ_lt by lia. simpl.
    rewrite Z2Nat.id by lia. by rewrite fun_upd_eq.
  - rewrite list_lookup_insert_ne by done. rewrite !list_lookup_fmap.
    destruct (seqZ 0 m !! p) as [x|] eqn:Hx; [|done]. simpl.
    apply lookup_seqZ in Hx. unfold fun_upd. rewrite decide_False by lia.
    done.
Qed.

Lemma edges_from_path n :
  edges_from [] (map (fun i => (i, path_row n i)) (seqZ 0 n))
  = map (fun i => (i, i + 1, Z.to_nat i)) (seqZ 0 (n - 1)).
Proof.
  assert (forall m a seen,
    0 <= a -> a + Z.of_nat m = n -> (forall x, x ∈ seen <-> 0 <= x < a) ->
    edges_from seen (map (fun i => (i, path_row n i)) (seqZ a (Z.of_nat m)))
    = map (fun i => (i, i + 1, Z.to_nat i)) (seqZ a (Z.of_nat m - 1)))
    as Hgen.
  { induction m as [|m IH]; intros a seen Ha Ham Hseen; [done|].
    rewrite seqZ_cons by lia. cbn [map edges_from].
    replace (Z.succ a) with (a + 1) by lia.
    replace (Z.pred (Z.of_nat (S m))) with (Z.of_nat m) by lia.
    rewrite (IH (a + 1) (a :: seen)); [|lia|lia|].
    2: { intros x. rewrite elem_of_cons, Hseen. lia. }
    unfold path_row. rewrite filter_app.
    assert (filter (fun p : Z * nat => p.1 ∉ seen)
              (if 0 <? a then [(a - 1, Z.to_nat (a - 1))] else []) = [])
      as ->.
    { destruct (Z.ltb_spec 0 a); [|done].
      rewrite filter_cons_False; [done|]. simpl. intros Hn. apply Hn.
      apply Hseen. lia. }
    destruct (Z.ltb_spec a (n - 1)) as [Hlt|Hge].
    - rewrite filter_cons_True by (simpl; rewrite Hseen; lia).
      rewrite filter_nil. simpl.
      rewrite (seqZ_cons a (Z.of_nat (S m) - 1)) by lia. simpl.
      do 2 f_equal. f_equal; lia.
    - rewrite filter_nil. simpl.
      assert (m = 0%nat) as -> by lia. done. }
  destruct (Z_le_gt_dec 0 n) as [Hn|Hn].
  - specialize (Hgen (Z.to_nat n) 0 []). rewrite Z2Nat.id in Hgen by lia.
    apply Hgen; [lia|lia|]. intros x. rewrite elem_of_nil. lia.
  - by rewrite !seqZ_nil by lia.
Qed.

(** The attributes and the weights [rag_mean_color] computes for a row
    of pixels with the colours [pix] *)
Definition row_attrs (pix : Z -> color) (i : Z) : NodeData :=
  mkNode [i] 1 (cadd zero_color (pix i)) (cdiv (cadd zero_color (pix i)) 1).
Definition row_weight (pix : Z -> color) (i : Z) : W :=
  norm (csub (mean_color (row_attrs pix i))
             (mean_color (row_attrs pix (i + 1)))).

(** [rag_mean_color] on a row of [n] pixels, each with its own label: the
    regions form a path, region [i] has the one pixel [i]. *)
Lemma rag_mean_color_row n pix :
  2 <= n -> (forall x, 0 <= x < n -> via_float x = x) ->
  rag_mean_color [map pix (seqZ 0 n)] [seqZ 0 n] empty_rag
  = Ok tt (path_graph n (row_attrs pix) (row_weight pix)).
Proof.
  intros Hn Hv. unfold rag_mean_color.
  rewrite (bind_ok _ _ _ _ _ (rag_filter_row n Hn Hv)).
  assert (forall (g : Z -> option NodeData) ed g',
    (forall i, 0 <= i < n -> g i = g' i) ->
    path_state n g ed = path_state n g' ed) as Hextn.
  { intros g ed g' Hg. by apply path_state_ext. }
  assert (forall (g : Z -> option NodeData) (ed ed' : Z -> EdgeData),
    (forall i, 0 <= i < n - 1 -> ed i = ed' i) ->
    path_state n g ed = path_state n g ed') as Hexte.
  { intros g ed ed' He. by apply path_state_ext. }
  assert (Forall (fun i => 0 <= i < n) (seqZ 0 n)) as Hrange
    by (apply Forall_seqZ; lia).
  (* the attributes of the nodes *)
  unfold bind at 1, get at 1. unfold skeleton at 2. simpl g_node.
  rewrite dkeys_tabulate. unfold skeleton.
  set (ed0 := fun _ : Z => mkEdge (norm zero_color) None).
  rewrite (bind_ok _ _ _ tt
    (path_state n (fun k => Some (mkNode [k] 0 zero_color zero_color)) ed0)).
  2: { rewrite (family_loop n (fun g => path_state n g ed0) _
                  (fun _ => True)
                  (fun k _ => Some (mkNode [k] 0 zero_color zero_color))).
       - f_equal. apply Hextn. intros i Hi.
         by rewrite decide_True by (apply elem_of_seqZ; lia).
       - intros g g' Hg. by apply Hextn.
       - intros g i Hi _. by apply set_node_attrs_path.
       - apply NoDup_seqZ.
       - eapply Forall_impl; [exact Hrange|]. done. }
  (* the pixels *)
  rewrite row_indices_row by lia.
  rewrite (bind_ok _ _ _ tt
    (path_state n
       (fun k => Some (mkNode [k] 1 (cadd zero_color (pix k)) zero_color))
       ed0)).
  2: { rewrite for_each_map.
       rewrite (family_loop n (fun g => path_state n g ed0) _ is_Some
         (fun k o =>
            match o with
            | Some d =>
                Some (mkNode (labels d) (pixel_count d + 1)
                        (cadd (total_color d) (pix k)) (mean_color d))
            | None => None
            end)).
       - f_equal. apply Hextn. intros i Hi.
         by rewrite decide_True by (apply elem_of_seqZ; lia).
       - intros g g' Hg. by apply Hextn.
       - intros g i Hi [d Hd]. simpl fst. simpl snd.
         assert (at_index [seqZ 0 n] 0 i = Some i) as ->.
         { unfold at_index. simpl. apply lookup_seqZ. lia. }
         rewrite at_index_row by done. rewrite Hd.
         unfold lift_opt.
         unfold bind at 1, ret at 1.
         rewrite (bind_ok _ _ _ _ _ (node_attrs_path n g ed0 i d Hi Hd)).
         rewrite (bind_ok _ _ _ _ _ (set_node_attrs_path n g ed0 i _ Hi)).
         rewrite (bind_ok _ _ _ _ _
           (node_attrs_path n _ ed0 i _ Hi (fun_upd_eq g i _))).
         unfold bind at 1, ret at 1.
         rewrite set_node_attrs_path by done. f_equal.
         apply Hextn. intros k _. apply fun_upd_twice.
       - apply NoDup_seqZ.
       - eapply Forall_impl; [exact Hrange|]. intros i Hi. simpl. eauto. }
  (* the mean colours *)
  unfold bind at 1, get at 1. simpl g_node. rewrite dkeys_tabulate.
  rewrite (bind_ok _ _ _ tt
    (path_state n (fun k => Some (row_attrs pix k)) ed0)).
  2: { rewrite (family_loop n (fun g => path_state n g ed0) _ is_Some
         (fun k o =>
            match o with
            | Some d =>
                Some (mkNode (labels d) (pixel_count d) (total_color d)
                        (cdiv (total_color d) (pixel_count d)))
            | None => None
            end)).
       - f_equal. apply Hextn. intros i Hi.
         by rewrite decide_True by (apply elem_of_seqZ; lia).
       - intros g g' Hg. by apply Hextn.
       - intros g i Hi [d Hd]. rewrite Hd.
         rewrite (bind_ok _ _ _ _ _ (node_attrs_path n g ed0 i d Hi Hd)).
         by apply set_node_attrs_path.
       - apply NoDup_seqZ.
       - eapply Forall_impl; [exact Hrange|]. intros i Hi. simpl. eauto. }
  (* the weights *)
  unfold bind at 1, get at 1. simpl g_adj. rewrite edges_from_path.
  rewrite for_each_map.
  set (g := fun k => Some (row_attrs pix k)).
  rewrite (family_loop (n - 1) (fun ed => path_state n g ed) _
             (fun _ => True)
             (fun k ed => mkEdge (row_weight pix k) (ed_heap_item ed))).
  - f_equal. unfold path_graph. apply Hexte. intros i Hi.
    by rewrite decide_True by (apply elem_of_seqZ; lia).
  - intros ed ed' He. by apply Hexte.
  - intros ed i Hi _.
    rewrite (bind_ok _ _ _ _ _
      (node_attrs_path n g ed i _ ltac:(lia) eq_refl)).
    rewrite (bind_ok _ _ _ _ _
      (node_attrs_path n g ed (i + 1) _ ltac:(lia) eq_refl)).
    unfold bind, edge_data, lift_opt, modify. simpl.
    rewrite list_lookup_fmap, lookup_seqZ_lt by lia. simpl.
    rewrite Z2Nat.id by lia.
    unfold path_state, set_edata. simpl. do 2 f_equal.
    by apply insert_tabulate.
  - apply NoDup_seqZ.
  - apply Forall_seqZ. intros i Hi. split; [lia|done].
Qed.

(** A row of [n] pixels, one region per pixel, and [mas] below 1: [scrm]
    merges nothing and returns the cast of the label array. *)
Lemma strip_scrm n pix dms mas mmu :
  2 <= n -> (forall x, 0 <= x < n -> via_float x = x) ->
  dms <> 0 -> mas < 1 ->
  exists fuel s',
    scrm fuel [map pix (seqZ 0 n)] [seqZ 0 n] dms mas mmu
    = Some (Ok [map astype_int16 (seqZ 0 n)] s') /\
    g_node s' = g_node (path_graph n (row_attrs pix) (row_weight pix)).
Proof.
  intros Hn Hv Hdms Hmas.
  destruct (strip_run n (row_attrs pix) (row_weight pix) [seqZ 0 n]
              dms mas mmu) as (fuel & s' & Hrun & Hnodes);
    [lia|done|done|done| | |].
  - simpl. rewrite app_nil_r. apply elem_of_seqZ. lia.
  - repeat constructor. apply Forall_seqZ. lia.
  - exists fuel, s'. split; [|done].
    unfold scrm. rewrite rag_mean_color_row by done. by rewrite Hrun.
Qed.

(** ** The ids of the surviving regions *)

Lemma label_count_cons y k o rest :
  label_count y ((k, o) :: rest)
  = match o with
    | Some d => Z.of_nat (count_occ Z.eq_dec (labels d) y) + label_count y rest
    | None => label_count y rest
    end.
Proof. by destruct o. Qed.

Lemma label_count_nonneg y nodes : 0 <= label_count y nodes.
Proof.
  induction nodes as [|[k o] nodes IH]; [done|].
  rewrite label_count_cons. destruct o; lia.
Qed.

Lemma region_from_absent ix nodes y :
  label_count y nodes <= 0 -> region_from ix nodes y = None.
Proof.
  revert ix. induction nodes as [|[k o] nodes IH]; intros ix; [done|].
  rewrite label_count_cons. pose proof (label_count_nonneg y nodes).
  intros Hc. simpl. rewrite IH by (destruct o; lia).
  destruct o as [d|]; [|done].
  rewrite bool_decide_eq_false_2; [done|].
  intros Hy%list_elem_of_In%(count_occ_In Z.eq_dec). lia.
Qed.

(** A label that the regions list once belongs to the region that lists
    it. *)
Lemma region_from_unique ix nodes y p k d :
  nodes !! p = Some (k, Some d) -> y ∈ labels d ->
  label_count y nodes <= 1 ->
  region_from ix nodes y = Some (ix + Z.of_nat p).
Proof.
  revert ix p. induction nodes as [|[k0 o] nodes IH]; intros ix p; [done|].
  rewrite label_count_cons. pose proof (label_count_nonneg y nodes) as Hnn.
  destruct p as [|p]; simpl.
  - intros [= -> ->] Hy Hc.
    pose proof Hy as Hy'%list_elem_of_In%(count_occ_In Z.eq_dec).
    rewrite region_from_absent by lia.
    rewrite bool_decide_eq_true_2 by done. f_equal. lia.
  - intros Hp Hy Hc.
    rewrite (IH (ix + 1) p Hp Hy) by (destruct o; lia).
    f_equal. lia.
Qed.

Lemma path_label_count attrs y m a :
  (forall i, labels (attrs i) = [i]) ->
  label_count y (map (fun i => (i, Some (attrs i))) (seqZ a (Z.of_nat m)))
  = if decide (a <= y < a + Z.of_nat m) then 1 else 0.
Proof.
  intros Hlab. revert a. induction m as [|m IH]; intros a.
  - simpl. by rewrite decide_False by lia.
  - rewrite seqZ_cons by lia. cbn [map]. rewrite label_count_cons.
    replace (Z.succ a) with (a + 1) by lia.
    replace (Z.pred (Z.of_nat (S m))) with (Z.of_nat m) by lia.
    rewrite IH, Hlab. simpl.
    destruct (Z.eq_dec a y); repeat case_decide; lia.
Qed.

Lemma path_labels_once n attrs wt y :
  (forall i, labels (attrs i) = [i]) ->
  label_count y (g_node (path_graph n attrs wt)) <= 1.
Proof.
  intros Hlab. simpl. destruct (Z_le_gt_dec 0 n) as [Hn|Hn].
  - rewrite <- (Z2Nat.id n) by done. rewrite path_label_count by done.
    case_decide; lia.
  - by rewrite seqZ_nil by lia.
Qed.

Lemma path_all_covered n attrs wt arr :
  (forall i, labels (attrs i) = [i]) ->
  Forall (Forall (fun x => 0 <= x < n)) arr ->
  all_covered (g_node (path_graph n attrs wt)) arr = true.
Proof.
  intros Hlab Hall. unfold all_covered. apply forallb_forall.
  intros row Hrow%list_elem_of_In. apply forallb_forall.
  intros x Hx%list_elem_of_In.
  rewrite Forall_forall in Hall. specialize (Hall row Hrow).
  rewrite Forall_forall in Hall. specialize (Hall x Hx). simpl in Hall.
  apply label_covered_true. exists x, (attrs x). split.
  - by apply path_graph_nodes.
  - rewrite Hlab. by left.
Qed.

(** C9, as the code has it.  [scrm] builds the graph with
    [rag_mean_color], runs [merge_size_constrained] on it and casts the
    array it returns to 16-bit signed integers.  On a well-formed graph
    whose regions each list some labels of the array and no label twice,
    the run returns, and the ids before the cast are the positions [0] to
    [n - 1] of the [n] surviving regions, each of which occurs in the
    array.  With at most 32768 surviving regions the cast changes nothing;
    with more than 32768, the array holds an element of the region at
    position 32768, and [scrm] returns [-32768] in its place. *)
Theorem int16_cast_faithful img arr dms mas mmu s0 m :
  rag_mean_color img arr empty_rag = Ok tt s0 ->
  input_ok s0 -> dms <> 0 ->
  array_max arr = Some m ->
  Forall (Forall (fun x => 0 <= x)) arr ->
  (forall k d, (k, Some d) ∈ g_node s0 ->
     labels d <> [] /\
     forall y, y ∈ labels d -> 0 <= y <= m /\ y ∈ concat arr) ->
  (forall y, label_count y (g_node s0) <= 1) ->
  all_covered (g_node s0) arr = true ->
  exists fuel0 s2,
    (forall fuel, (fuel0 <= fuel)%nat ->
       merge_size_constrained fuel arr dms mas mmu false true
         merge_scrm weight_scrm s0
       = Some (Ok (map (map (region_id (g_node s2))) arr) s2) /\
       scrm fuel img arr dms mas mmu
       = Some (Ok (map (map (fun x => astype_int16 (region_id (g_node s2) x)))
                     arr) s2)) /\
    Forall (Forall (fun x => 0 <= x < Z.of_nat (length (g_node s2))))
      (map (map (region_id (g_node s2))) arr) /\
    (forall p, 0 <= p < Z.of_nat (length (g_node s2)) ->
       exists x, x ∈ concat arr /\ region_id (g_node s2) x = p) /\
    (Z.of_nat (length (g_node s2)) <= 32768 ->
     map (map (fun x => astype_int16 (region_id (g_node s2) x))) arr
     = map (map (region_id (g_node s2))) arr) /\
    (32768 < Z.of_nat (length (g_node s2)) ->
     exists x,
       x ∈ concat arr /\ region_id (g_node s2) x = 32768 /\
       -32768 ∈ concat (map (map (fun x =>
                          astype_int16 (region_id (g_node s2) x))) arr)).
Proof.
  intros Hrag Hin Hdms Hmax Harr Hlabels Honce Hcov.
  destruct (run_to_end dms mas mmu true s0 Hin Hdms)
    as (exp & s1 & s2 & Hinit & Hturns & Hemp & Hrun).
  destruct (reached_inv _ _ _ _ _ _ _ _ Hin Hdms Hinit Hturns)
    as (_ & Hn1 & _ & _ & Hinv1 & Hinv).
  pose proof (li_mid _ _ _ Hinv) as Hm.
  assert (forall y, label_covered (g_node s2) y = label_covered (g_node s0) y)
    as Hsame.
  { intros y. rewrite !label_count_covered.
    by rewrite (reached_label_count _ _ _ _ _ _ _ _ y Hin Hdms Hinit Hturns). }
  assert (forall k d y, (k, Some d) ∈ g_node s2 -> y ∈ labels d ->
            0 <= y <= m /\ y ∈ concat arr) as Hlabels2.
  { intros k d y Hk Hy.
    assert (label_covered (g_node s2) y = true) as Hc
      by (apply label_covered_true; eauto).
    rewrite Hsame in Hc.
    apply label_covered_true in Hc as (k' & d' & Hk' & Hy').
    by apply (Hlabels k' d'). }
  assert (all_nodes (fun d => labels d <> []) (g_node s2)) as Hne.
  { apply (turns_keep dms mas mmu exp true (total_pixels (g_node s0))
             (fun s => all_nodes (fun d => labels d <> []) (g_node s))
             s1 s2); [done| |done|done|].
    - intros sa sb Hinva Ha Hheap Hbody.
      apply (turn_all _ dms mas mmu exp true (total_pixels (g_node s0))
               sa sb); try done.
      intros sd dd Hsd _. simpl. intros [Hnil _]%app_eq_nil. done.
    - rewrite Hn1. apply Forall_forall. intros [k [d|]] Hk; [|done].
      simpl. by apply (Hlabels k d). }
  assert (forall k o, (k, o) ∈ g_node s2 -> exists d, o = Some d) as Hattrs.
  { intros k o Hk.
    pose proof (dget_elem _ _ _ (gk_nodes _ (mi_graph _ _ _ Hm)) Hk) as Hget.
    destruct (mi_attrs _ _ _ Hm k) as [d Hd].
    { apply dget_is_Some. eauto. }
    exists d. congruence. }
  assert (forall p, 0 <= p < Z.of_nat (length (g_node s2)) ->
            exists x, x ∈ concat arr /\ region_id (g_node s2) x = p) as Hsurj.
  { intros p Hp.
    destruct (lookup_lt_is_Some_2 (g_node s2) (Z.to_nat p)) as [[k o] Hko];
      [lia|].
    pose proof (list_elem_of_lookup_2 _ _ _ Hko) as Hk.
    destruct (Hattrs k o Hk) as [d ->].
    unfold all_nodes in Hne. rewrite Forall_forall in Hne.
    specialize (Hne _ Hk). simpl in Hne.
    destruct (labels d) as [|y ys] eqn:Hd; [done|].
    assert (y ∈ labels d) as Hy by (rewrite Hd; left).
    exists y. split; [by apply (Hlabels2 k d)|].
    unfold region_id.
    rewrite (region_from_unique 0 _ y (Z.to_nat p) k d Hko Hy).
    - simpl. lia.
    - rewrite (reached_label_count _ _ _ _ _ _ _ _ y Hin Hdms Hinit Hturns).
      apply Honce. }
  assert (Forall (Forall (fun x => 0 <= x < Z.of_nat (length (g_node s2))))
            (map (map (region_id (g_node s2))) arr)) as Hids.
  { apply Forall_fmap, Forall_forall. intros row Hrow.
    apply Forall_fmap, Forall_forall. intros x Hx. simpl.
    assert (label_covered (g_node s2) x = true) as Hc.
    { rewrite Hsame. unfold all_covered in Hcov.
      rewrite forallb_forall in Hcov.
      specialize (Hcov row (proj1 (list_elem_of_In _ _) Hrow)).
      rewrite forallb_forall in Hcov.
      apply Hcov. by apply list_elem_of_In. }
    destruct (region_from_covered 0 _ _ Hc) as [j Hj].
    unfold region_id. rewrite Hj. simpl.
    apply region_from_bound in Hj. lia. }
  assert (map (map (fun x => astype_int16 (region_id (g_node s2) x))) arr
          = map (map astype_int16) (map (map (region_id (g_node s2))) arr))
    as Hcast.
  { rewrite map_map. apply map_ext. intros row. by rewrite map_map. }
  exists (measure s1), s2. split; [|split; [done|split; [done|split]]].
  - intros fuel Hfuel. unfold scrm. rewrite Hrag.
    rewrite (Hrun fuel arr false Hfuel).
    rewrite (relabel_run arr s2 m); [by rewrite Hcast|done| |done].
    intros k o Hk. destruct (Hattrs k o Hk) as [d ->].
    exists d. split; [done|]. apply Forall_forall. intros y Hy.
    by apply (Hlabels2 k d).
  - intros Hsmall. rewrite Hcast. apply astype_int16_fixed.
    eapply Forall_impl; [exact Hids|]. intros row Hrow. simpl in Hrow.
    eapply Forall_impl; [exact Hrow|]. intros x Hx. simpl in Hx. lia.
  - intros Hbig. destruct (Hsurj 32768) as (x & Hx & Hid); [lia|].
    exists x. split; [done|]. split; [done|].
    apply elem_of_concat in Hx as (row & Hxr & Hrow).
    apply elem_of_concat.
    exists (map (fun x => astype_int16 (region_id (g_node s2) x)) row).
    split.
    + apply list_elem_of_fmap. exists x. by rewrite Hid.
    + apply list_elem_of_fmap. eauto.
Qed.

(** ** An image with a single label *)

Lemma label_near_const h w l i j :
  (0 < h)%nat -> (0 < w)%nat ->
  label_near (replicate h (replicate w l)) i j = Some l.
Proof.
  intros Hh Hw. unfold label_near, clamp. rewrite length_replicate.
  rewrite lookup_replicate_2 by lia. simpl. rewrite length_replicate.
  apply lookup_replicate_2. lia.
Qed.

Lemma add_edge_filter_const v s :
  add_edge_filter [v; v; v; v; v] s = Ok tt s.
Proof.
  unfold add_edge_filter. simpl. unfold bind, lift_opt, ret. simpl.
  by rewrite bool_decide_eq_false_2 by (by intros []).
Qed.

(** X14.  [scrm] needs two regions: on an image whose label array holds
    one label only, [RAG(labels)] creates no node, since nodes come into
    being with edges, and the first pixel count of [rag_mean_color] then
    raises [KeyError]; [merge_size_constrained] is never reached. *)
Theorem one_label_image_fails fuel img h w l dms mas mmu :
  (0 < h)%nat -> (0 < w)%nat ->
  rag_mean_color img (replicate h (replicate w l)) empty_rag
  = Err KeyError empty_rag /\
  scrm fuel img (replicate h (replicate w l)) dms mas mmu
  = Some (Err KeyError empty_rag).
Proof.
  intros Hh Hw.
  assert (rag_mean_color img (replicate h (replicate w l)) empty_rag
          = Err KeyError empty_rag) as Hrag.
  { unfold rag_mean_color.
    set (arr := replicate h (replicate w l)).
    assert (forall ixs,
      for_each ixs (fun ix => add_edge_filter (neighbourhood arr ix.1 ix.2))
        empty_rag = Ok tt empty_rag) as Hfilter.
    { induction ixs as [|ix ixs IH]; [done|].
      cbn [for_each]. rewrite (bind_ok _ _ _ tt empty_rag); [done|].
      unfold neighbourhood, arr. simpl.
      rewrite !label_near_const by done. simpl.
      apply add_edge_filter_const. }
    rewrite (bind_ok _ _ _ _ _ (Hfilter _)).
    unfold bind at 1, get at 1. simpl g_node. cbn [dkeys map for_each].
    unfold bind at 1, ret at 1.
    unfold arr. destruct h as [|h]; [lia|]. destruct w as [|w]; [lia|].
    cbn [replicate row_indices]. simpl length.
    rewrite (seqZ_cons 0) by lia. reflexivity. }
  split; [done|]. unfold scrm. by rewrite Hrag.
Qed.

(** ** More fuel changes nothing *)

Lemma merge_size_constrained_mono fuel fuel' arr dms mas mmu rc ipm mf wf s r :
  merge_size_constrained fuel arr dms mas mmu rc ipm mf wf s = Some r ->
  (fuel <= fuel')%nat ->
  merge_size_constrained fuel' arr dms mas mmu rc ipm mf wf s = Some r.
Proof.
  unfold merge_size_constrained.
  destruct (initialise dms mmu s) as [e s1|e s1]; [|done].
  destruct (main_loop fuel _ s1) as [r1|] eqn:Hl; [|done].
  intros Hr Hle. by rewrite (main_loop_mono _ _ _ _ _ Hl Hle).
Qed.

Lemma strip_nodes_kept n attrs wt arr dms mas mmu fuel out s2 :
  0 < n -> dms <> 0 ->
  (forall i, labels (attrs i) = [i]) ->
  (forall i, mas < pixel_count (attrs i)) ->
  (n - 1) ∈ concat arr -> Forall (Forall (fun x => 0 <= x < n)) arr ->
  merge_size_constrained fuel arr dms mas mmu false true
    merge_scrm weight_scrm (path_graph n attrs wt) = Some (Ok out s2) ->
  g_node s2 = g_node (path_graph n attrs wt).
Proof.
  intros Hn Hdms Hlab Hbig Hmax Hall Hrun.
  destruct (strip_run n attrs wt arr dms mas mmu Hn Hdms Hlab Hbig Hmax Hall)
    as (fuel1 & s' & Hrun1 & Hnodes).
  apply (merge_size_constrained_mono _ (fuel `max` fuel1)) in Hrun; [|lia].
  apply (merge_size_constrained_mono _ (fuel `max` fuel1)) in Hrun1; [|lia].
  congruence.
Qed.

(** ** A row of pixels, each a region of its own *)

Lemma row_covers n : 0 < n -> Forall (Forall (fun x => 0 <= x < n)) [seqZ 0 n].
Proof.
  intros Hn. apply Forall_cons. split; [|constructor].
  apply Forall_seqZ. lia.
Qed.

Lemma row_last n : 0 < n -> (n - 1) ∈ concat [seqZ 0 n].
Proof. intros Hn. simpl. rewrite app_nil_r. apply elem_of_seqZ. lia. Qed.

(** What [scrm] starts from on such a row: the graph of
    [rag_mean_color] is a path, well formed, and its regions list the
    labels of the row, each once. *)
Lemma row_graph n pix :
  2 <= n -> (forall x, 0 <= x < n -> via_float x = x) ->
  let s0 := path_graph n (row_attrs pix) (row_weight pix) in
  rag_mean_color [map pix (seqZ 0 n)] [seqZ 0 n] empty_rag = Ok tt s0 /\
  input_ok s0 /\
  array_max [seqZ 0 n] = Some (n - 1) /\
  Forall (Forall (fun x => 0 <= x)) [seqZ 0 n] /\
  (forall k d, (k, Some d) ∈ g_node s0 ->
     labels d <> [] /\
     forall y, y ∈ labels d -> 0 <= y <= n - 1 /\ y ∈ concat [seqZ 0 n]) /\
  (forall y, label_count y (g_node s0) <= 1) /\
  all_covered (g_node s0) [seqZ 0 n] = true.
Proof.
  intros Hn Hv s0.
  assert (forall i, labels (row_attrs pix i) = [i]) as Hlab by done.
  split; [by apply rag_mean_color_row|].
  split; [apply path_input_ok|].
  split.
  { apply array_max_spec; [apply row_last; lia|].
    simpl. rewrite app_nil_r. apply Forall_seqZ. lia. }
  split.
  { apply Forall_cons. split; [|constructor]. apply Forall_seqZ. lia. }
  split.
  { intros k d [Hk Hd]%path_graph_nodes. injection Hd as ->.
    split; [by rewrite Hlab|]. intros y Hy. rewrite Hlab in Hy.
    apply list_elem_of_singleton in Hy as ->. split; [lia|].
    simpl. rewrite app_nil_r. apply elem_of_seqZ. lia. }
  split; [intros y; by apply path_labels_once|].
  apply path_all_covered; [done|]. apply row_covers. lia.
Qed.

(** With [mas] below 1 every region of the row survives. *)
Lemma row_survivors n pix dms mas mmu fuel out s2 :
  2 <= n -> dms <> 0 -> mas < 1 ->
  merge_size_constrained fuel [seqZ 0 n] dms mas mmu false true
    merge_scrm weight_scrm (path_graph n (row_attrs pix) (row_weight pix))
  = Some (Ok out s2) ->
  Z.of_nat (length (g_node s2)) = n.
Proof.
  intros Hn Hdms Hmas Hrun.
  rewrite (strip_nodes_kept n (row_attrs pix) (row_weight pix) [seqZ 0 n]
             dms mas mmu fuel out s2);
    [|lia|done|done| |apply row_last; lia|apply row_covers; lia|done].
  2: { intros i. simpl. lia. }
  cbn [g_node path_graph]. rewrite length_map, length_seqZ. lia.
Qed.

(** Up to 32768 pixels [scrm] returns the labels of the row as they
    are. *)
Lemma row_faithful n pix dms mas mmu :
  2 <= n <= 32768 -> (forall x, 0 <= x < n -> via_float x = x) ->
  dms <> 0 -> mas < 1 ->
  exists fuel s',
    scrm fuel [map pix (seqZ 0 n)] [seqZ 0 n] dms mas mmu
    = Some (Ok [seqZ 0 n] s') /\
    Z.of_nat (length (g_node s')) = n.
Proof.
  intros Hn Hv Hdms Hmas.
  destruct (strip_scrm n pix dms mas mmu) as (fuel & s' & Hrun & Hnodes);
    [lia|done|done|done|].
  exists fuel, s'. split.
  - rewrite Hrun.
    assert (map (map astype_int16) [seqZ 0 n] = [seqZ 0 n]) as Hc.
    { apply astype_int16_fixed. apply Forall_cons.
      split; [|constructor]. apply Forall_seqZ. lia. }
    cbn [map] in Hc. injection Hc as ->. done.
  - rewrite Hnodes. cbn [g_node path_graph].
    rewrite length_map, length_seqZ. lia.
Qed.

End Scrm.

(** * Runs on small images *)

(** The weights are floats, compared as Python compares them, and the
    norm is [np.linalg.norm].  The pixels have one non-zero channel: for
    such colours the norm does not depend on the order in which the
    squares are added. *)
Definition red (c : Z) : color := Color (z2f c) (z2f 0) (z2f 0).

(** A row of eleven pixels in four regions of 2, 3, 1 and 5 pixels with
    the levels 10, 12, 30 and 31 *)
Definition image4 : list (list Z) := [[0; 0; 1; 1; 1; 2; 3; 3; 3; 3; 3]].
Definition colours4 : list (list color) :=
  [map red [10; 10; 12; 12; 12; 30; 31; 31; 31; 31; 31]].

Definition attrs4 (i : Z) : NodeData :=
  let pc := nth (Z.to_nat i) [2; 3; 1; 5] 0 in
  let c := nth (Z.to_nat i) [10; 12; 30; 31] 0 in
  mkNode [i] pc (red (c * pc)) (red c).

Definition wt4 (i : Z) : float64 :=
  linalg_norm (csub (mean_color (attrs4 i)) (mean_color (attrs4 (i + 1)))).

(** The graph [rag_mean_color] builds for [image4] *)
Definition strip4 : St float64 :=
  path_graph float64 4 attrs4 wt4.

Lemma strip4_spec :
  rag_mean_color float64 linalg_norm colours4 image4
    (empty_rag float64)
  = Ok tt strip4.
Proof. vm_compute. reflexivity. Qed.

(** The state at the head of the first turn, for [dms = 4] and [mmu = 2] *)
Definition queued4 : St float64 :=
  Eval vm_compute in res_state (initialise float64 feqb fltb 4 2 strip4).

Lemma queued4_spec : initialise float64 feqb fltb 4 2 strip4 = Ok 2 queued4.
Proof. vm_compute. reflexivity. Qed.

(** The graph at the end of the run with [dms = 4], [mas = 6], [mmu = 2] *)
Definition merged4 : St float64 :=
  Eval vm_compute in
    match merge_size_constrained float64 feqb fltb 100 image4 4 6 2 false true
            (merge_scrm float64) (weight_scrm float64 linalg_norm) strip4 with
    | Some r => res_state r
    | None => strip4
    end.

(** [scrm] on the small image with [dms = 4], [mas = 6], [mmu = 2]: the
    regions 2 and 3 merge first (weight 1), then 0 and 1 (weight 2), then
    the two regions of 5 and 6 pixels that are left, neither of them
    larger than [mas]; every pixel is relabelled 0. *)
Lemma scrm_image4 :
  scrm float64 feqb fltb linalg_norm 100 colours4 image4 4 6 2
  = Some (Ok [[0; 0; 0; 0; 0; 0; 0; 0; 0; 0; 0]] merged4) /\
  dget 3 (g_node float64 merged4)
  = Some (Some (mkNode [0; 1; 2; 3] 11 (red 241) (cdiv (red 241) 11))).
Proof. split; vm_compute; reflexivity. Qed.


(** ** C1 *)

Lemma aggregates_consistent_witness :
  input_ok float64 strip4 /\ 4 <> 0 /\
  exists exp s1,
    initialise float64 feqb fltb 4 2 strip4 = Ok exp s1 /\
    forall s,
      turns float64
        (loop_body float64 feqb fltb 4 6 2 exp true (merge_scrm float64)
                 (weight_scrm float64 linalg_norm)) s1 s ->
      g_num_ge_mmu float64 s = Some (count_ge_mmu 2 (g_node float64 s)) /\
      g_area_lt_mmu float64 s = Some (area_below_mmu 2 (g_node float64 s)) /\
      (edge_heap float64 s <> [] ->
       exists s',
         loop_body float64 feqb fltb 4 6 2 exp true (merge_scrm float64)
           (weight_scrm float64 linalg_norm) s = Ok tt s').
Proof.
  split; [apply path_input_ok|]. split; [lia|].
  apply (aggregates_consistent float64 feqb fltb linalg_norm 4 6 2 true strip4);
    [apply path_input_ok|lia].
Defined.

(** ** C2 *)

Lemma oversized_pair_never_merged_witness :
  heappop (ref_lt float64 feqb fltb (items float64 queued4))
    (edge_heap float64 queued4)
  = Some (2%nat, [0%nat; 1%nat]) /\
  items float64 queued4 !! 2%nat = Some (mkItem float64 (z2f 1) 2 3 true) /\
  0 < pixel_count (attrs4 2) /\ 0 < pixel_count (attrs4 3) /\
  loop_body float64 feqb fltb 4 0 2 2 true (merge_scrm float64)
    (weight_scrm float64 linalg_norm)
    queued4
  = Ok tt (set_partial_stop float64 (latch_after float64 4 2 queued4)
             (set_edge_heap float64 [0%nat; 1%nat] queued4)).
Proof.
  split; [vm_compute; reflexivity|]. split; [reflexivity|].
  split; [vm_compute; reflexivity|]. split; [vm_compute; reflexivity|].
  apply (oversized_pair_never_merged float64 feqb fltb 4 0 2 2 true
           (merge_scrm float64) (weight_scrm float64 linalg_norm) queued4 2%nat
           [0%nat; 1%nat] (mkItem float64 (z2f 1) 2 3 true) (attrs4 2)
             (attrs4 3)).
  - vm_compute. reflexivity.
  - reflexivity.
  - eexists. reflexivity.
  - eexists. reflexivity.
  - lia.
  - vm_compute. reflexivity.
  - vm_compute. reflexivity.
  - vm_compute. reflexivity.
  - vm_compute. reflexivity.
Defined.

(** ** C3 *)

Lemma latch_monotone_witness :
  initialise float64 feqb fltb 4 2 strip4 = Ok 2 queued4 /\
  partial_stop float64 queued4 = false /\
  forall s s',
    turns float64 (loop_body float64 feqb fltb 4 6 2 2 true (merge_scrm float64)
               (weight_scrm float64 linalg_norm)) s s' ->
    partial_stop float64 s = true ->
    partial_stop float64 s' = true /\
    partial_stop float64
      (res_state (loop_body float64 feqb fltb 4 6 2 2 true (merge_scrm float64)
                    (weight_scrm float64 linalg_norm) s')) = true.
Proof.
  split; [vm_compute; reflexivity|].
  apply
    (latch_monotone float64 feqb fltb linalg_norm 4 6 2 2 true strip4 queued4).
  vm_compute. reflexivity.
Defined.

(** ** C5 *)

Lemma merge_scrm_attributes_witness :
  dget 2 (g_node float64 queued4) = Some (Some (attrs4 2)) /\
  dget 3 (g_node float64 queued4) = Some (Some (attrs4 3)) /\
  exists s' nd,
    merge_scrm float64 2 3 2 queued4 = Ok tt s' /\
    dget 3 (g_node float64 s') = Some (Some nd) /\
    pixel_count nd = pixel_count (attrs4 3) + pixel_count (attrs4 2) /\
    total_color nd
    = cadd (total_color (attrs4 3)) (total_color (attrs4 2)) /\
    mean_color nd = cdiv (total_color nd) (pixel_count nd) /\
    mean_color nd
    = cdiv (cadd (total_color (attrs4 3)) (total_color (attrs4 2)))
           (pixel_count (attrs4 3) + pixel_count (attrs4 2)).
Proof.
  split; [vm_compute; reflexivity|]. split; [vm_compute; reflexivity|].
  apply (merge_scrm_attributes float64 2 3 2 queued4
           (attrs4 2) (attrs4 3)).
  - vm_compute. reflexivity.
  - vm_compute. reflexivity.
  - eexists. reflexivity.
  - eexists. reflexivity.
Defined.

(** The average of the two mean colours weighted by the pixel counts, as
    the specification words the new mean colour, in float64 *)
Definition cscale (n : Z) (a : color) : color :=
  Color (PrimFloat.mul (z2f n) (ch0 a)) (PrimFloat.mul (z2f n) (ch1 a))
        (PrimFloat.mul (z2f n) (ch2 a)).
Definition weighted_mean (sd dd : NodeData) : color :=
  cdiv (cadd (cscale (pixel_count sd) (mean_color sd))
             (cscale (pixel_count dd) (mean_color dd)))
       (pixel_count sd + pixel_count dd).

(** A row of eight pixels: one pixel of level 0, then a region of seven
    pixels whose levels add up to 29 *)
Definition image2 : list (list Z) := [[0; 1; 1; 1; 1; 1; 1; 1]].
Definition colours2 : list (list color) := [map red [0; 4; 4; 4; 4; 4; 4; 5]].

Definition strip2 : St float64 :=
  Eval vm_compute in
    res_state (rag_mean_color float64 linalg_norm colours2 image2
                 (empty_rag float64)).
Definition queued2 : St float64 :=
  Eval vm_compute in
    res_state (initialise float64 feqb fltb 8 2
                 strip2).
Definition turn2 : St float64 :=
  Eval vm_compute in
    res_state (loop_body float64 feqb fltb
                 8 10 2 1 true (merge_scrm float64)
                 (weight_scrm float64 linalg_norm) queued2).

(** The new mean colour is not the weighted average of the two mean
    colours.  [scrm] is run on [image2] with [dms = 8], [mas = 10] and
    [mmu = 2]; the first turn pops the one edge and merges region 0, of
    one pixel and mean 0, into region 1, of seven pixels, total 29 and
    mean 29/7 rounded.  Both means were up to date.  The merged region
    has the mean 29/8 = 3.625, the quotient of its total by its count,
    but the weighted average of the two means, computed in float64, is the
    next float above 3.625; computed exactly from the stored means it is
    larger than 29/8 as well, because the stored mean of region 1,
    4664442471205157 / 2^50, is larger than 29/7. *)
Lemma weighted_average_rounds :
  exists sd dd nd,
    rag_mean_color float64 linalg_norm colours2 image2
      (empty_rag float64) = Ok tt strip2 /\
    initialise float64 feqb fltb 8 2 strip2
    = Ok 1 queued2 /\
    dget 0 (g_node float64 queued2) = Some (Some sd) /\
    dget 1 (g_node float64 queued2) = Some (Some dd) /\
    pixel_count sd = 1 /\ pixel_count dd = 7 /\
    mean_color sd = cdiv (total_color sd) (pixel_count sd) /\
    mean_color dd = cdiv (total_color dd) (pixel_count dd) /\
    loop_body float64 feqb fltb 8 10 2 1 true
      (merge_scrm float64) (weight_scrm float64 linalg_norm)
      queued2 = Ok tt turn2 /\
    dget 0 (g_node float64 turn2) = None /\
    dget 1 (g_node float64 turn2) = Some (Some nd) /\
    pixel_count nd = 8 /\ total_color nd = red 29 /\
    mean_color nd = cdiv (red 29) 8 /\
    fltb (ch0 (mean_color nd)) (ch0 (weighted_mean sd dd)) = true /\
    ch0 (mean_color sd) = z2f 0 /\
    FloatOps.Prim2SF (ch0 (mean_color dd))
    = SpecFloat.S754_finite false 4664442471205157 (-50) /\
    29 * 2 ^ 50 < 1 * 0 + 7 * 4664442471205157.
Proof.
  eexists _, _, _.
  repeat (split; [vm_compute; reflexivity|]).
  vm_compute. reflexivity.
Qed.

(** ** C6 *)

Lemma area_conserved_witness :
  input_ok float64 strip4 /\ 4 <> 0 /\
  exists s1,
    initialise float64 feqb fltb 4 2 strip4
    = Ok (total_pixels (g_node float64 strip4) / 4) s1 /\
    total_pixels (g_node float64 s1) = total_pixels (g_node float64 strip4) /\
    forall s,
      turns float64 (loop_body float64 feqb fltb 4 6 2
                 (total_pixels (g_node float64 strip4) / 4) false
                   (merge_scrm float64)
                 (weight_scrm float64 linalg_norm)) s1 s ->
      total_pixels (g_node float64 s) = total_pixels (g_node float64 strip4).
Proof.
  split; [apply path_input_ok|]. split; [lia|].
  apply (area_conserved float64 feqb fltb linalg_norm 4 6 2 false strip4);
    [apply path_input_ok|lia].
Defined.

(** ** C7 *)


(** ** C10 *)

Lemma discarded_entry_frame_witness :
  heappop (ref_lt float64 feqb fltb (items float64 queued4))
    (edge_heap float64 queued4)
  = Some (2%nat, [0%nat; 1%nat]) /\
  items float64 queued4 !! 2%nat = Some (mkItem float64 (z2f 1) 2 3 true) /\
  size_checks 0 2 (latch_after float64 4 2 queued4)
    (pixel_count (attrs4 2)) (pixel_count (attrs4 3)) = false /\
  exists s',
    loop_body float64 feqb fltb 4 0 2 2 false (merge_scrm float64)
      (weight_scrm float64 linalg_norm) queued4 = Ok tt s' /\
    same_graph float64 queued4 s' /\
    edge_heap float64 queued4 ≡ₚ 2%nat :: edge_heap float64 s' /\
    (partial_stop float64 queued4 = true -> partial_stop float64 s' = true) /\
    (partial_stop float64 s' = false -> partial_stop float64 queued4 = false).
Proof.
  split; [vm_compute; reflexivity|]. split; [reflexivity|].
  split; [vm_compute; reflexivity|].
  apply (discarded_entry_frame float64 feqb fltb 4 0 2 2 false
           (merge_scrm float64) (weight_scrm float64 linalg_norm) queued4 2%nat
           [0%nat; 1%nat] (mkItem float64 (z2f 1) 2 3 true)).
  - vm_compute. reflexivity.
  - reflexivity.
  - eexists. reflexivity.
  - eexists. reflexivity.
  - lia.
  - right. exists (attrs4 2), (attrs4 3).
    split; [vm_compute; reflexivity|]. split; vm_compute; reflexivity.
Defined.

(** ** C4 *)



(** ** C8 *)

Lemma single_region_witness :
  labels (mkNode [7] 6 (red 42) (red 7)) = [7] /\
  0 <= 7 /\ 4 <> 0 /\
  concat [[7; 7; 7]; [7; 7; 7]] <> [] /\
  Forall (Forall (eq 7)) [[7; 7; 7]; [7; 7; 7]] /\
  exists s',
    merge_size_constrained float64 feqb fltb 0
      [[7; 7; 7]; [7; 7; 7]] 4 6 2
      false true (merge_scrm float64)
      (weight_scrm float64 linalg_norm)
      (mkSt float64 [(7, Some (mkNode [7] 6 (red 42) (red 7)))]
         [(7, [])] [] None None 7 [] [] false)
    = Some (Ok (map (map (fun _ => 0)) [[7; 7; 7]; [7; 7; 7]]) s') /\
    g_node float64 s' = [(7, Some (mkNode [7] 6 (red 42) (red 7)))] /\
    g_adj float64 s' = [(7, [])] /\
    edata float64 s' = [] /\ items float64 s' = [] /\
    edge_heap float64 s' = [].
Proof.
  split; [reflexivity|]. split; [lia|]. split; [lia|].
  split; [discriminate|]. split; [repeat constructor|].
  apply (single_region float64 feqb fltb
           linalg_norm 7 (mkNode [7] 6 (red 42) (red 7))
           [] None None 7 [] [] false [[7; 7; 7]; [7; 7; 7]] 4 6 2
           false true 0%nat).
  - reflexivity.
  - lia.
  - lia.
  - discriminate.
  - repeat constructor.
Defined.

(** ** C9 *)

(** The labels from [x] on, [fuel] of them, pass through float64
    unchanged. *)
Fixpoint labels_pass (fuel : nat) (x : Z) : bool :=
  match fuel with
  | O => true
  | S fuel' => (via_float x =? x) && labels_pass fuel' (x + 1)
  end.

Lemma labels_pass_spec fuel a x :
  labels_pass fuel a = true -> a <= x < a + Z.of_nat fuel -> via_float x = x.
Proof.
  revert a. induction fuel as [|fuel IH]; intros a; [lia|].
  cbn [labels_pass]. intros [Ha Hrest]%andb_true_iff Hx.
  destruct (decide (x = a)) as [->|Hne]; [by apply Z.eqb_eq|].
  apply (IH (a + 1)); [done|lia].
Qed.

Lemma via_float_labels x : 0 <= x < 32769 -> via_float x = x.
Proof.
  intros Hx. apply (labels_pass_spec (Z.to_nat 32769) 0); [|lia].
  vm_compute. reflexivity.
Qed.

(** The colours of a row of pixels *)
Definition levels (i : Z) : color := red (i mod 256).

(** A picture of one row and 32768 columns, every pixel a region of its
    own, with [mas = 0]: no two regions may merge, 32768 regions survive,
    and [scrm] returns the ids 0 to 32767 as they are. *)
Lemma wide_strip_faithful :
  exists fuel s',
    scrm float64 feqb fltb linalg_norm fuel
      [map levels (seqZ 0 32768)] [seqZ 0 32768] 1 0 1
    = Some (Ok [seqZ 0 32768] s') /\
    Z.of_nat (length (g_node float64 s')) = 32768.
Proof.
  apply (row_faithful float64 feqb fltb
           linalg_norm 32768 levels 1 0 1); [lia| |lia|lia].
  intros x Hx. apply via_float_labels. lia.
Qed.

(** The same picture with one column more: 32769 regions survive, and the
    last pixel, whose region stands at position 32768, comes out as
    [-32768]. *)
Lemma int16_cast_faithful_witness :
  exists fuel s2,
    scrm float64 feqb fltb linalg_norm fuel
      [map levels (seqZ 0 32769)] [seqZ 0 32769] 1 0 1
    = Some (Ok (map (map (fun x =>
                  astype_int16 (region_id (g_node float64 s2) x)))
                  [seqZ 0 32769]) s2) /\
    Z.of_nat (length (g_node float64 s2)) = 32769 /\
    (exists x,
       x ∈ concat [seqZ 0 32769] /\
       region_id (g_node float64 s2) x = 32768) /\
    -32768 ∈ concat (map (map (fun x =>
                 astype_int16 (region_id (g_node float64 s2) x)))
                 [seqZ 0 32769]).
Proof.
  destruct (row_graph float64 linalg_norm 32769 levels)
    as (Hrag & Hin & Hmax & Hpos & Hlabels & Honce & Hcov);
    [lia|apply via_float_labels|].
  destruct (int16_cast_faithful float64 feqb fltb
              linalg_norm [map levels (seqZ 0 32769)] [seqZ 0 32769] 1 0 1
              (path_graph float64 32769 (row_attrs levels)
                 (row_weight float64 linalg_norm levels))
              (32769 - 1) Hrag Hin ltac:(lia) Hmax Hpos Hlabels Honce Hcov)
    as (fuel0 & s2 & Hrun & _ & _ & _ & Hbig).
  destruct (Hrun fuel0 (le_n _)) as [Hmsc Hscrm].
  assert (Z.of_nat (length (g_node float64 s2)) = 32769) as Hlen.
  { eapply (row_survivors float64 feqb fltb
              linalg_norm 32769 levels 1 0 1 fuel0);
      [lia|lia|lia|exact Hmsc]. }
  exists fuel0, s2. split; [exact Hscrm|]. split; [exact Hlen|].
  destruct Hbig as (x & Hx & Hid & Hneg); [lia|].
  split; [exists x; split; assumption|exact Hneg].
Defined.

(** * Further properties on the small image *)

(** The state after the first turn with [dms = 4], [mas = 6], [mmu = 2],
    merging in place: the regions 2 and 3 have been merged. *)
Definition turn4 : St float64 :=
  Eval vm_compute in
    res_state (loop_body float64 feqb fltb 4 6 2 2 true (merge_scrm float64)
                 (weight_scrm float64 linalg_norm) queued4).

Lemma turn4_reached :
  turns float64 (loop_body float64 feqb fltb 4 6 2 2 true (merge_scrm float64)
             (weight_scrm float64 linalg_norm)) queued4 turn4.
Proof.
  eapply turns_step; [discriminate|vm_compute; reflexivity|apply turns_refl].
Qed.


Lemma labels_conserved_witness :
  input_ok float64 strip4 /\
  label_count 2 (g_node float64 turn4) = label_count 2 (g_node float64 strip4)
    /\
  label_covered (g_node float64 turn4) 2 = label_covered
    (g_node float64 strip4) 2.
Proof.
  split; [apply path_input_ok|].
  apply
    (labels_conserved float64 feqb fltb linalg_norm 4 6 2 true strip4 2 queued4
           turn4 2).
  - apply path_input_ok.
  - lia.
  - exact queued4_spec.
  - exact turn4_reached.
Defined.

Lemma small_region_passes_witness :
  2 <= 6 /\ size_checks 6 2 true 1 100 = true.
Proof.
  split; [lia|].
  apply (small_region_passes 6 2 true 1 100); [lia|left; lia].
Defined.

(** The heap item of the edge between the merged region and region 1 *)
Definition item3 : HeapItem float64 :=
  Eval vm_compute in
    default (mkItem float64 (z2f 0) 0 0 false)
      (items float64 turn4 !! 3%nat).

Lemma valid_entry_is_edge_witness :
  items float64 turn4 !! 3%nat = Some item3 /\
  hi_wt float64 item3
  = linalg_norm (csub (cdiv (red 185) 6) (red 12)) /\
  hi_valid float64 item3 = true /\
  3 <> 1 /\
  (exists d1, dget 3 (g_node float64 turn4) = Some (Some d1)) /\
  (exists d2, dget 1 (g_node float64 turn4) = Some (Some d2)) /\
  exists r ed,
    adj_ref float64 turn4 3 1 = Some r /\ adj_ref float64 turn4 1 3 = Some r /\
    edata float64 turn4 !! r = Some ed /\ ed_heap_item float64 ed = Some 3%nat.
Proof.
  split; [reflexivity|]. split; [vm_compute; reflexivity|].
  split; [reflexivity|].
  apply (valid_entry_is_edge float64 feqb fltb
           linalg_norm 4 6 2 true strip4 2 queued4 turn4 3%nat item3).
  - apply path_input_ok.
  - lia.
  - exact queued4_spec.
  - exact turn4_reached.
  - reflexivity.
  - reflexivity.
Defined.



Lemma relabel_by_region_witness :
  array_max image4 = Some 3 /\
  relabel float64 image4 turn4
  = Ok (map (map (region_id (g_node float64 turn4))) image4) turn4 /\
  map (map (region_id (g_node float64 turn4))) image4
  = [[0; 0; 1; 1; 1; 2; 2; 2; 2; 2; 2]].
Proof.
  split; [vm_compute; reflexivity|]. split; [|vm_compute; reflexivity].
  apply (relabel_by_region float64 image4 turn4 3).
  - vm_compute. reflexivity.
  - intros k o Hk. vm_compute in Hk.
    repeat (apply elem_of_cons in Hk as [[= -> ->]|Hk];
            [eexists; split; [reflexivity|repeat constructor; lia]|]).
    by apply elem_of_nil in Hk.
  - repeat constructor; lia.
Defined.

Lemma label_out_of_range_witness :
  array_max [[0; 0]] = Some 0 /\
  relabel float64 [[0; 0]] strip4 = Err IndexError strip4.
Proof.
  split; [vm_compute; reflexivity|].
  apply (label_out_of_range float64 [[0; 0]] strip4 0 3 (attrs4 3) 3).
  - vm_compute. reflexivity.
  - intros k o [_ ->]%path_graph_nodes. eauto.
  - apply path_graph_nodes. split; [lia|done].
  - left.
  - right. lia.
Defined.



Lemma merge_scrm_without_counters_witness :
  g_num_ge_mmu float64 strip4 = None /\
  exists s',
    merge_scrm float64 2 3 2 strip4 = Err KeyError s' /\
    g_node float64 s'
    = dset 3 (Some (merged_attrs (attrs4 2) (attrs4 3)))
      (g_node float64 strip4) /\
    g_adj float64 s' = g_adj float64 strip4 /\
    g_area_lt_mmu float64 s' = g_area_lt_mmu float64 strip4.
Proof.
  split; [reflexivity|].
  apply
    (merge_scrm_without_counters float64 2 3 2 strip4 (attrs4 2) (attrs4 3)).
  - vm_compute. reflexivity.
  - vm_compute. reflexivity.
  - left. reflexivity.
Defined.

Lemma initialise_queue_witness :
  edges_from [] (g_adj float64 strip4) =
    [(0, 1, 0%nat); (1, 2, 1%nat); (2, 3, 2%nat)]
  /\
  (forall u v r, adj_ref float64 strip4 u v = Some r ->
     (u, v, r) ∈ edges_from [] (g_adj float64 strip4) \/
     (v, u, r) ∈ edges_from [] (g_adj float64 strip4)) /\
  (forall n1 n2 r, (n1, n2, r) ∈ edges_from [] (g_adj float64 strip4) ->
     adj_ref float64 strip4 n1 n2 = Some r) /\
  NoDup ((fun e => snd e) <$> edges_from [] (g_adj float64 strip4)) /\
  edge_heap float64 queued4 ≡ₚ seq 0
    (length (edges_from [] (g_adj float64 strip4))) /\
  Forall2 (fun e it =>
             exists ed0, edata float64 strip4 !! (snd e) = Some ed0 /\
               it = mkItem float64 (ed_weight float64 ed0) (fst (fst e))
                 (snd (fst e))
                      true)
          (edges_from [] (g_adj float64 strip4)) (items float64 queued4) /\
  (forall i e, edges_from [] (g_adj float64 strip4) !! i = Some e ->
     exists ed, edata float64 queued4 !! (snd e) = Some ed /\
                ed_heap_item float64 ed = Some i).
Proof.
  split; [vm_compute; reflexivity|].
  apply (initialise_queue float64 feqb fltb 4 2 strip4 2 queued4).
  - apply path_input_ok.
  - lia.
  - exact queued4_spec.
Defined.

Lemma one_label_image_fails_witness :
  rag_mean_color float64 linalg_norm
    [map red [1; 2; 3]; map red [4; 5; 6]] [[7; 7; 7]; [7; 7; 7]]
    (empty_rag float64)
  = Err KeyError (empty_rag float64) /\
  scrm float64 feqb fltb linalg_norm 100
    [map red [1; 2; 3]; map red [4; 5; 6]] [[7; 7; 7]; [7; 7; 7]] 4 6 2
  = Some (Err KeyError (empty_rag float64)).
Proof.
  apply (one_label_image_fails float64 feqb fltb
           linalg_norm 100 [map red [1; 2; 3]; map red [4; 5; 6]]
           2%nat 3%nat 7 4 6 2); lia.
Defined.
